(** * Frame Codex viewer: a shallow embedding of the client logic

    The development follows the TypeScript sources of the viewer:
    the strand cache ([lib/codexCache]), the placeholder search engine
    ([lib/search/engine.ts]), the search/filter hook ([useSearchFilter]),
    the file-scope predicate ([shouldShowFile]), the remark plugin
    [remarkStripControlFlags], the tree fetcher ([useGithubTree.fetchTree]),
    the file fetcher ([fetchFileContent]) and the knowledge-tree builder.

    JavaScript strings are modelled as [string] (sequences of 8-bit
    characters).  On a string of ASCII characters [toLowerCase] folds the
    letters A-Z, as the JavaScript method does; on any other string its
    result is left unspecified.  Module-level state (the cache map,
    the branch configuration, the [lastIndex] of a global regular expression)
    is passed explicitly; an asynchronous function is modelled by the effects
    it has, in order, and a call that can reject returns a [Result]. *)

From Stdlib Require Import Ascii String.
From stdpp Require Import base gmap strings list fin_maps.

(** ** JavaScript string primitives *)

(** A string is truthy exactly when it is not empty ([!path], [if (query)]). *)
Definition truthy (s : string) : bool :=
  match s with
  | EmptyString => false
  | String _ _ => true
  end.

(** [c.toLowerCase()] on one character: the letters A-Z are folded. *)
Definition lowerChar (c : ascii) : ascii :=
  let n := nat_of_ascii c in
  if (65 <=? n) && (n <=? 90) then ascii_of_nat (n + 32) else c.

(** A character of the ASCII range, and a string of such characters. *)
Definition isAsciiChar (c : ascii) : bool := nat_of_ascii c <? 128.

Fixpoint isAscii (s : string) : bool :=
  match s with
  | EmptyString => true
  | String c rest => isAsciiChar c && isAscii rest
  end.

(** [s.toLowerCase()] on a string of ASCII characters: every letter A-Z is
    folded and nothing else changes. *)
Fixpoint foldCase (s : string) : string :=
  match s with
  | EmptyString => EmptyString
  | String c rest => String (lowerChar c) (foldCase rest)
  end.

(** [s.toLowerCase()] on a string with a character outside ASCII.  There
    JavaScript follows the case mapping of Unicode, which depends on the
    neighbours of a character (the final sigma) and can change the length of
    the string.  That mapping is not modelled: the function is opaque, and
    what is proved below holds whatever it returns. *)
Definition unicodeLowerCase : string → string.
Proof. exact (λ s, s). Qed.

(** [s.toLowerCase()] *)
Definition toLowerCase (s : string) : string :=
  if isAscii s then foldCase s else unicodeLowerCase s.

(** [s.startsWith(q)] *)
Fixpoint startsWith (s q : string) {struct q} : bool :=
  match q, s with
  | EmptyString, _ => true
  | String _ _, EmptyString => false
  | String b q', String a s' => Ascii.eqb a b && startsWith s' q'
  end.

(** [s.includes(q)]: [q] occurs in [s] at some index. *)
Fixpoint includes (s q : string) : bool :=
  startsWith s q
  || match s with
     | EmptyString => false
     | String _ rest => includes rest q
     end.

(** The suffix of [s] that starts at its last occurrence of [c], if any:
    [s.substring(s.lastIndexOf(c))] when [lastIndexOf] is not [-1]. *)
Fixpoint fromLast (c : ascii) (s : string) : option string :=
  match s with
  | EmptyString => None
  | String a rest =>
      match fromLast c rest with
      | Some suffix => Some suffix
      | None => if Ascii.eqb a c then Some s else None
      end
  end.

(** [list.includes(x)] and [set.has(x)] on strings. *)
Definition hasString (l : list string) (x : string) : bool :=
  existsb (String.eqb x) l.

(** ** lib/codexCache: the strand cache *)

Record CachedRow := mkCachedRow {
  row_path : string;
  content : string;
  updated_at : string
}.

Record CodexCacheStats := mkCodexCacheStats {
  totalItems : nat;
  totalBytes : nat
}.

(** [memoryCache] is a [Map<string, CachedRow>]; the functions below take the
    current map and return the value and/or the updated map. *)
Abbreviation MemoryCache := (gmap string CachedRow).

Definition getCachedStrand (memoryCache : MemoryCache) (path : string)
  : option string :=
  if negb (truthy path) then None
  else match memoryCache !! path with
       | Some row => Some (content row)
       | None => None
       end.

(** [now] stands for [new Date().toISOString()] at the time of the call. *)
Definition setCachedStrand (now path c : string) (memoryCache : MemoryCache)
  : MemoryCache :=
  if negb (truthy path) then memoryCache
  else
    let row := {| row_path := path; content := c; updated_at := now |} in
    <[path := row]> memoryCache.

(** [memoryCache.forEach] adds the length of every row's content; the sum
    does not depend on the order in which the rows are visited. *)
Definition getCodexCacheStats (memoryCache : MemoryCache) : CodexCacheStats :=
  let totalBytes :=
    map_fold (fun _ row totalBytes => totalBytes + String.length (content row))
             0 memoryCache in
  {| totalItems := size memoryCache; totalBytes := totalBytes |}.

Definition clearCodexCache (memoryCache : MemoryCache) : MemoryCache := ∅.

(** A client of the cache module performs a sequence of calls. *)
Inductive CacheCall :=
| CallSet (now path c : string)
| CallClear.

Definition cacheStep (memoryCache : MemoryCache) (call : CacheCall)
  : MemoryCache :=
  match call with
  | CallSet now path c => setCachedStrand now path c memoryCache
  | CallClear => clearCodexCache memoryCache
  end.

Definition cacheRun (calls : list CacheCall) (memoryCache : MemoryCache)
  : MemoryCache :=
  foldl cacheStep memoryCache calls.

(** *** What a sequence of calls has written, read off the call list *)

Definition isClear (call : CacheCall) : bool :=
  match call with CallClear => true | CallSet _ _ _ => false end.

(** The calls made after the last [clearCodexCache]. *)
Fixpoint sinceLastClear (calls : list CacheCall) : list CacheCall :=
  match calls with
  | [] => []
  | call :: rest =>
      if existsb isClear calls then sinceLastClear rest else calls
  end.

(** The (path, content) pairs written with a non-empty path, oldest first. *)
Fixpoint writes (calls : list CacheCall) : list (string * string) :=
  match calls with
  | [] => []
  | CallSet _ path c :: rest =>
      if truthy path then (path, c) :: writes rest else writes rest
  | CallClear :: rest => writes rest
  end.

(** The content most recently written to [path]. *)
Fixpoint latest (path : string) (ws : list (string * string)) : option string :=
  match ws with
  | [] => None
  | (p, c) :: rest =>
      match latest path rest with
      | Some c' => Some c'
      | None => if String.eqb p path then Some c else None
      end
  end.

(** The distinct paths written, each listed once. *)
Definition distinctPaths (ws : list (string * string)) : list string :=
  remove_dups (ws.*1).

Definition latestLength (ws : list (string * string)) (path : string) : nat :=
  match latest path ws with
  | Some c => String.length c
  | None => 0
  end.

Definition expectedStats (calls : list CacheCall) : CodexCacheStats :=
  let ws := writes (sinceLastClear calls) in
  {| totalItems := length (distinctPaths ws);
     totalBytes := sum_list (latestLength ws <$> distinctPaths ws) |}.

(** ** lib/search/engine.ts: the placeholder search engine *)

Record CodexSearchResult := mkCodexSearchResult {
  result_path : string;
  result_title : string;
  result_excerpt : string
}.

(** The options of the engine; [number] is the type of JavaScript numbers. *)
Record EngineSearchOptions (number : Type) := mkEngineSearchOptions {
  limit : option number;
  semantic : option bool;
  threshold : option number
}.

Module SimpleSearchEngine.
Section engine.
Context {any number : Type}.

(** The only field of the class: [private files: any[] = []]. *)
Record t := mk { files : list any }.

Definition new : t := {| files := [] |}.

Definition index (this : t) (fs : list any) : t := {| files := fs |}.

(** [search] builds [q] and an empty [results] array, waits, and returns
    [results] untouched; it does not change the engine. *)
Definition search (this : t) (query : string)
    (options : option (EngineSearchOptions number)) : list CodexSearchResult :=
  if negb (truthy query) then []
  else
    let q := toLowerCase query in
    let results : list CodexSearchResult := [] in
    results.

Definition canUseSemantic (this : t) : bool := false.
End engine.
Arguments t : clear implicits.
End SimpleSearchEngine.

(** ** codex/types.ts, codex/constants.ts *)

Inductive FileType := TypeFile | TypeDir.

Record GitHubFile := mkGitHubFile {
  file_name : string;
  file_path : string;
  file_type : FileType;
  file_sha : string;
  file_size : option nat;
  file_url : string;
  file_html_url : string;
  file_download_url : option string
}.

Inductive FileFilterScope := ScopeAll | ScopeStrands | ScopeMedia | ScopeConfigs.

Inductive NavigationRootScope := RootFabric | RootWeaves.

Inductive Difficulty := Beginner | Intermediate | Advanced.

Record SearchOptions := mkSearchOptions {
  query : string;
  searchNames : bool;
  searchContent : bool;
  caseSensitive : bool;
  difficulty : option Difficulty;
  tags : option (list string);
  subjects : option (list string);
  filterScope : FileFilterScope;
  hideEmptyFolders : bool;
  rootScope : NavigationRootScope
}.

Definition MARKDOWN_EXTENSIONS : list string := [".md"; ".mdx"].

Definition MEDIA_EXTENSIONS_images : list string :=
  [".jpg"; ".jpeg"; ".png"; ".gif"; ".webp"; ".svg"; ".bmp"; ".ico"].
Definition MEDIA_EXTENSIONS_audio : list string :=
  [".mp3"; ".wav"; ".ogg"; ".m4a"; ".aac"; ".flac"; ".webm"].
Definition MEDIA_EXTENSIONS_video : list string :=
  [".mp4"; ".webm"; ".ogv"; ".mov"; ".avi"; ".mkv"].
Definition MEDIA_EXTENSIONS_documents : list string := [".pdf"].

Definition TEXT_FILE_EXTENSIONS : list string :=
  [".json"; ".yaml"; ".yml"; ".toml"; ".ini"; ".cfg"; ".conf"; ".txt"; ".log";
   ".env"; ".gitignore"; ".gitattributes"; ".mdxconfig"; ".schema"].

(** ** codex/utils.ts *)

Definition MEDIA_EXTENSION_SET : list string :=
  toLowerCase <$> (MEDIA_EXTENSIONS_images ++ MEDIA_EXTENSIONS_audio
                   ++ MEDIA_EXTENSIONS_video ++ MEDIA_EXTENSIONS_documents).

Definition TEXT_EXTENSION_SET : list string :=
  toLowerCase <$> TEXT_FILE_EXTENSIONS.

Definition getExtension (filename : string) : string :=
  match fromLast "." filename with
  | None => ""
  | Some suffix => toLowerCase suffix
  end.

Definition isPreviewableTextFile (filename : string) : bool :=
  let ext := getExtension filename in
  if truthy ext then hasString TEXT_EXTENSION_SET ext else false.

Definition isMediaFile (filename : string) : bool :=
  let ext := getExtension filename in
  if truthy ext then hasString MEDIA_EXTENSION_SET ext else false.

(** Modelled from the spec: [isMarkdownFile], which codex/utils.ts re-exports
    from [packages/codex-viewer/src/lib/utils]; that module is missing from
    the sources.  The specification describes a markdown file as one with a
    [.md] or [.mdx] extension, compared case-insensitively; the extensions
    are the constant [MARKDOWN_EXTENSIONS]. *)
Definition isMarkdownFile (filename : string) : bool :=
  hasString MARKDOWN_EXTENSIONS (getExtension filename).

Definition shouldShowFile (file : GitHubFile) (scope : FileFilterScope)
    (_includeMarkdown : bool) (extraExtensions : list string) : bool :=
  match file_type file with
  | TypeDir => true
  | TypeFile =>
      let ext := getExtension (file_name file) in
      if (0 <? length extraExtensions) && truthy ext
         && negb (hasString extraExtensions ext)
      then false
      else
        match scope with
        | ScopeStrands => isMarkdownFile (file_name file)
        | ScopeMedia => isMediaFile (file_name file)
        | ScopeConfigs => isPreviewableTextFile (file_name file)
        | ScopeAll => true
        end
  end.

(** ** codex/hooks/useSearchFilter.ts *)

(** The callback given to [result.filter] in step 2 of [filteredFiles]. *)
Definition queryCallback (options : SearchOptions) (q : string)
    (f : GitHubFile) : bool :=
  let name :=
    if caseSensitive options then file_name f else toLowerCase (file_name f) in
  let path :=
    if caseSensitive options then file_path f else toLowerCase (file_path f) in
  if searchNames options && includes name q then true
  else if includes path q then true
  else false.

(** The memoised value [filteredFiles] of the hook, as a function of the
    file list and of the current options. *)
Definition filteredFiles (files : list GitHubFile) (options : SearchOptions)
  : list GitHubFile :=
  if length files =? 0 then []
  else
    let result := files in
    (* 1. Scope filtering: the body of the conditional is empty. *)
    let result :=
      match filterScope options with
      | ScopeStrands => result
      | _ => result
      end in
    (* 2. Query filtering *)
    let result :=
      if truthy (query options) then
        let q :=
          if caseSensitive options then query options
          else toLowerCase (query options) in
        List.filter (queryCallback options q) result
      else result in
    (* 3. Empty folder hiding: the body of the conditional is empty. *)
    let result := if hideEmptyFolders options then result else result in
    result.

(** *** The composition the specification describes for the flat list *)

(** The scope predicate: the file's extension belongs to the set of the
    selected scope. *)
Definition scopePredicate (options : SearchOptions) (f : GitHubFile) : bool :=
  shouldShowFile f (filterScope options) true [].

(** The query predicate: the query occurs in the name or in the path, letter
    case being significant only when [caseSensitive] is set. *)
Definition queryPredicate (options : SearchOptions) (f : GitHubFile) : bool :=
  let fold := fun s => if caseSensitive options then s else toLowerCase s in
  if truthy (query options) then
    (searchNames options && includes (fold (file_name f)) (fold (query options)))
    || includes (fold (file_path f)) (fold (query options))
  else true.

(** The path-only predicate left when name matching is switched off. *)
Definition pathPredicate (options : SearchOptions) (f : GitHubFile) : bool :=
  let fold := fun s => if caseSensitive options then s else toLowerCase s in
  includes (fold (file_path f)) (fold (query options)).

(** [setFilterScope] of the hook: [{ ...prev, filterScope: scope }]. *)
Definition setFilterScope (scope : FileFilterScope) (prev : SearchOptions)
  : SearchOptions :=
  {| query := query prev; searchNames := searchNames prev;
     searchContent := searchContent prev; caseSensitive := caseSensitive prev;
     difficulty := difficulty prev; tags := tags prev;
     subjects := subjects prev; filterScope := scope;
     hideEmptyFolders := hideEmptyFolders prev; rootScope := rootScope prev |}.

(** The state [useState] starts the hook with. *)
Definition initialOptions : SearchOptions :=
  {| query := ""; searchNames := true; searchContent := false;
     caseSensitive := false; difficulty := None; tags := None;
     subjects := None; filterScope := ScopeAll; hideEmptyFolders := false;
     rootScope := RootFabric |}.

(** [setQuery] and [toggleSearchNames] of the hook. *)
Definition setQuery (q : string) (prev : SearchOptions) : SearchOptions :=
  {| query := q; searchNames := searchNames prev;
     searchContent := searchContent prev; caseSensitive := caseSensitive prev;
     difficulty := difficulty prev; tags := tags prev;
     subjects := subjects prev; filterScope := filterScope prev;
     hideEmptyFolders := hideEmptyFolders prev; rootScope := rootScope prev |}.

Definition toggleSearchNames (prev : SearchOptions) : SearchOptions :=
  {| query := query prev; searchNames := negb (searchNames prev);
     searchContent := searchContent prev; caseSensitive := caseSensitive prev;
     difficulty := difficulty prev; tags := tags prev;
     subjects := subjects prev; filterScope := filterScope prev;
     hideEmptyFolders := hideEmptyFolders prev; rootScope := rootScope prev |}.

(** A file entry as the contents listing returns it. *)
Definition plainFile (name path : string) : GitHubFile :=
  {| file_name := name; file_path := path; file_type := TypeFile;
     file_sha := ""; file_size := None; file_url := ""; file_html_url := "";
     file_download_url := None |}.

(** ** lib/remark/remarkStripControlFlags.ts *)

(** [\w] without the unicode flag: a letter, a digit or the underscore. *)
Definition isWordChar (c : ascii) : bool :=
  let n := nat_of_ascii c in
  ((48 <=? n) && (n <=? 57)) || ((65 <=? n) && (n <=? 90))
  || ((97 <=? n) && (n <=? 122)) || (n =? 95).

(** The character class [[\w-]]. *)
Definition isFlagChar (c : ascii) : bool := isWordChar c || Ascii.eqb c "-".

(** [s.substring(n)] *)
Fixpoint dropString (n : nat) (s : string) : string :=
  match n, s with
  | 0, _ => s
  | S _, EmptyString => EmptyString
  | S k, String _ rest => dropString k rest
  end.

(** The length of the longest prefix of [s] made of [[\w-]] characters. *)
Fixpoint flagRun (s : string) : nat :=
  match s with
  | EmptyString => 0
  | String c rest => if isFlagChar c then S (flagRun rest) else 0
  end.

(** [CONTROL_FLAG_REGEX = /::[\w-]+::/g] tried at the start of [s]: the
    length of the match, if there is one.  The class excludes the colon, so
    the greedy run is the only run that can be followed by [::]. *)
Definition matchLength (s : string) : option nat :=
  if startsWith s "::" then
    let n := flagRun (dropString 2 s) in
    if (0 <? n) && startsWith (dropString (2 + n) s) "::"
    then Some (n + 4) else None
  else None.

(** The leftmost match in [s], whose first character has index [pos] in the
    subject string: its index and its length. *)
Fixpoint searchFlag (pos : nat) (s : string) : option (nat * nat) :=
  match matchLength s with
  | Some len => Some (pos, len)
  | None =>
      match s with
      | EmptyString => None
      | String _ rest => searchFlag (S pos) rest
      end
  end.

(** A regular expression with the global flag carries [lastIndex] from one
    call to the next.  [regexTest] is [CONTROL_FLAG_REGEX.test(value)]: the
    search starts at [lastIndex], which is then moved to the end of the
    match, or back to 0 when there is none. *)
Definition regexTest (lastIndex : nat) (value : string) : bool * nat :=
  if String.length value <? lastIndex then (false, 0)
  else
    match searchFlag lastIndex (dropString lastIndex value) with
    | Some (i, len) => (true, i + len)
    | None => (false, 0)
    end.

(** One left-to-right scan that drops every match; [skip] counts the
    characters of the current match still to be dropped. *)
Fixpoint replaceFrom (skip : nat) (s : string) : string :=
  match s with
  | EmptyString => EmptyString
  | String c rest =>
      match skip with
      | S k => replaceFrom k rest
      | 0 =>
          match matchLength s with
          | Some (S k) => replaceFrom k rest
          | _ => String c (replaceFrom 0 rest)
          end
      end
  end.

(** [value.replace(CONTROL_FLAG_REGEX, '')]: a global replace scans from
    index 0 whatever [lastIndex] was, and leaves [lastIndex] at 0. *)
Definition regexReplace (lastIndex : nat) (value : string) : string * nat :=
  (replaceFrom 0 value, 0).

(** The markdown syntax tree: text nodes, other literal nodes (inline code,
    code blocks, html, ...) and nodes with children. *)
Inductive MdNode :=
| MdText (value : string)
| MdLiteral (kind : string) (value : string)
| MdParent (kind : string) (children : list MdNode).

Record MdRoot := mkMdRoot { root_children : list MdNode }.

(** The visitor passed to [visit(tree, 'text', ...)], on a text node that has
    a parent. *)
Definition stripVisitor (value : string) (lastIndex : nat) : string * nat :=
  let '(found, lastIndex) := regexTest lastIndex value in
  if found then regexReplace lastIndex value else (value, lastIndex).

(** [visit] walks the tree in document order and calls the visitor on the
    nodes of type [text]; every node below the root has a parent and an
    index. *)
Fixpoint visitNode (node : MdNode) (lastIndex : nat) : MdNode * nat :=
  match node with
  | MdText value =>
      let '(value', lastIndex') := stripVisitor value lastIndex in
      (MdText value', lastIndex')
  | MdLiteral kind value => (MdLiteral kind value, lastIndex)
  | MdParent kind children =>
      let visitChildren :=
        fix visitChildren (nodes : list MdNode) (lastIndex : nat)
          : list MdNode * nat :=
          match nodes with
          | [] => ([], lastIndex)
          | n :: rest =>
              let '(n', lastIndex') := visitNode n lastIndex in
              let '(rest', lastIndex'') := visitChildren rest lastIndex' in
              (n' :: rest', lastIndex'')
          end in
      let '(children', lastIndex') := visitChildren children lastIndex in
      (MdParent kind children', lastIndex')
  end.

Fixpoint visitNodes (nodes : list MdNode) (lastIndex : nat)
  : list MdNode * nat :=
  match nodes with
  | [] => ([], lastIndex)
  | n :: rest =>
      let '(n', lastIndex') := visitNode n lastIndex in
      let '(rest', lastIndex'') := visitNodes rest lastIndex' in
      (n' :: rest', lastIndex'')
  end.

(** The transformer returned by [remarkStripControlFlags()]. *)
Definition transformer (tree : MdRoot) (lastIndex : nat) : MdRoot * nat :=
  let '(children', lastIndex') := visitNodes (root_children tree) lastIndex in
  ({| root_children := children' |}, lastIndex').

(** *** Reading the result *)

(** Some substring of [s] matches the pattern. *)
Fixpoint containsFlag (s : string) : bool :=
  match matchLength s with
  | Some _ => true
  | None =>
      match s with
      | EmptyString => false
      | String _ rest => containsFlag rest
      end
  end.

(** The values of the text nodes of a tree, in document order. *)
Fixpoint textValues (node : MdNode) : list string :=
  match node with
  | MdText value => [value]
  | MdLiteral _ _ => []
  | MdParent _ children => flat_map textValues children
  end.

Definition rootTextValues (tree : MdRoot) : list string :=
  flat_map textValues (root_children tree).

(** The tree in which every text value went through [f]. *)
Fixpoint mapText (f : string → string) (node : MdNode) : MdNode :=
  match node with
  | MdText value => MdText (f value)
  | MdLiteral kind value => MdLiteral kind value
  | MdParent kind children => MdParent kind (List.map (mapText f) children)
  end.

(** [s] has three colons in a row somewhere. *)
Fixpoint hasTripleColon (s : string) : bool :=
  startsWith s ":::"
  || match s with
     | EmptyString => false
     | String _ rest => hasTripleColon rest
     end.

(** ** Exceptions *)

(** What a [throw] carries: an [Error] object with its message, [null] or
    [undefined], or any other value. *)
Inductive Thrown :=
| ErrorObject (message : string)
| OtherValue (description : string)
| NullOrUndefined.

(** The outcome of a call that can throw (or of a promise that can reject). *)
Inductive Result (A : Type) :=
| Ok (value : A)
| Throw (e : Thrown).
Arguments Ok {A} value.
Arguments Throw {A} e.

(** [err instanceof Error ? err.message : fallback] *)
Definition errorMessage (err : Thrown) (fallback : string) : string :=
  match err with
  | ErrorObject message => message
  | OtherValue _ => fallback
  | NullOrUndefined => fallback
  end.

(** ** codex/hooks/useGithubTree.ts: the branch-candidate loop of [fetchTree] *)

Record RawEntry := mkRawEntry {
  entry_name : string;
  entry_type : string;
  entry_path : string;
  entry_size : option nat
}.

(** The module state the loop reads and writes: [REPO_CONFIG.BRANCH] and the
    two warn-once flags. *)
Record TreeFetchState := mkTreeFetchState {
  BRANCH : string;
  graphQlWarningLogged : bool;
  restWarningLogged : bool
}.

Inductive TreeFetchEvent :=
| CallGraphQL (branch : string)
| CallREST (branch : string)
| WarnGraphQL
| WarnREST.

(** [Array.from(new Set(array))]: the first occurrence of every element, in
    the order of the array. *)
Fixpoint arrayFromSet (seen array : list string) : list string :=
  match array with
  | [] => []
  | x :: rest =>
      if hasString seen x then arrayFromSet seen rest
      else x :: arrayFromSet (x :: seen) rest
  end.

Definition branchCandidates (configured : string) : list string :=
  arrayFromSet [] (List.filter truthy ["master"; "main"; configured]).

Record LoopOutcome := mkLoopOutcome {
  fetchSucceeded : bool;
  rawEntries : list RawEntry;
  lastError : option Thrown;
  loopState : TreeFetchState;
  loopEvents : list TreeFetchEvent
}.

Section tree_fetch.
(** The two network calls, for the configured owner and repository: what
    each answers for a branch. *)
Variable fetchGithubTree : string → Result (list RawEntry).
Variable fetchGithubTreeREST : string → Result (list RawEntry).

Definition setBranch (branch : string) (st : TreeFetchState) : TreeFetchState :=
  {| BRANCH := branch;
     graphQlWarningLogged := graphQlWarningLogged st;
     restWarningLogged := restWarningLogged st |}.

(** The [for (const branch of branchCandidates)] loop. *)
Fixpoint branchLoop (candidates : list string) (lastError0 : option Thrown)
    (st : TreeFetchState) : LoopOutcome :=
  match candidates with
  | [] =>
      {| fetchSucceeded := false; rawEntries := []; lastError := lastError0;
         loopState := st; loopEvents := [] |}
  | branch :: rest =>
      match fetchGithubTree branch with
      | Ok entries =>
          {| fetchSucceeded := true; rawEntries := entries;
             lastError := lastError0; loopState := setBranch branch st;
             loopEvents := [CallGraphQL branch] |}
      | Throw graphqlError =>
          let warn1 := if graphQlWarningLogged st then [] else [WarnGraphQL] in
          let st1 :=
            {| BRANCH := BRANCH st; graphQlWarningLogged := true;
               restWarningLogged := restWarningLogged st |} in
          match fetchGithubTreeREST branch with
          | Ok entries =>
              {| fetchSucceeded := true; rawEntries := entries;
                 lastError := lastError0; loopState := setBranch branch st1;
                 loopEvents :=
                   [CallGraphQL branch] ++ warn1 ++ [CallREST branch] |}
          | Throw restError =>
              let warn2 := if restWarningLogged st1 then [] else [WarnREST] in
              let st2 :=
                {| BRANCH := BRANCH st1;
                   graphQlWarningLogged := graphQlWarningLogged st1;
                   restWarningLogged := true |} in
              let out := branchLoop rest (Some restError) st2 in
              {| fetchSucceeded := fetchSucceeded out;
                 rawEntries := rawEntries out;
                 lastError := lastError out;
                 loopState := loopState out;
                 loopEvents :=
                   [CallGraphQL branch] ++ warn1 ++ [CallREST branch]
                   ++ warn2 ++ loopEvents out |}
          end
      end
  end.

(** The first part of [fetchTree]: the candidates are computed from the
    configured branch, and the loop starts with no error recorded. *)
Definition fetchTreeLoop (st : TreeFetchState) : LoopOutcome :=
  branchLoop (branchCandidates (BRANCH st)) None st.

(** [lastError ?? fallback]: [lastError] starts as [null] and holds the last
    value a REST call rejected with, which can itself be [null] or
    [undefined]. *)
Definition orFallback (lastError : option Thrown) (fallback : Thrown)
  : Thrown :=
  match lastError with
  | None | Some NullOrUndefined => fallback
  | Some e => e
  end.

(** The error thrown after the loop when no candidate succeeded. *)
Definition fetchTreeError (out : LoopOutcome) : option Thrown :=
  if fetchSucceeded out then None
  else Some (orFallback (lastError out)
               (ErrorObject "Unable to fetch Git tree from GitHub.")).
End tree_fetch.

(** The network calls among the events, in the order they were made. *)
Definition isCall (e : TreeFetchEvent) : bool :=
  match e with
  | CallGraphQL _ | CallREST _ => true
  | WarnGraphQL | WarnREST => false
  end.

Definition networkCalls (events : list TreeFetchEvent) : list TreeFetchEvent :=
  List.filter isCall events.

(** Both calls of a candidate on which GraphQL and REST fail. *)
Definition bothCalls (branch : string) : list TreeFetchEvent :=
  [CallGraphQL branch; CallREST branch].

Definition isThrow {A} (r : Result A) : bool :=
  match r with Ok _ => false | Throw _ => true end.

(** What "try the candidates in order, GraphQL then REST once each, and stop
    at the first success" means for a run of the loop over [candidates]
    with outcome [out]. *)
Definition StopsAtFirstSuccess
    (fetchGithubTree fetchGithubTreeREST : string → Result (list RawEntry))
    (candidates : list string) (out : LoopOutcome) : Prop :=
  (fetchSucceeded out = false
   ∧ (∀ b, In b candidates →
           isThrow (fetchGithubTree b) = true
           ∧ isThrow (fetchGithubTreeREST b) = true)
   ∧ networkCalls (loopEvents out) = flat_map bothCalls candidates)
  ∨ (∃ failed b untried,
       candidates = failed ++ b :: untried
       ∧ fetchSucceeded out = true
       ∧ BRANCH (loopState out) = b
       ∧ (∀ b', In b' failed →
                isThrow (fetchGithubTree b') = true
                ∧ isThrow (fetchGithubTreeREST b') = true)
       ∧ ((isThrow (fetchGithubTree b) = false
           ∧ networkCalls (loopEvents out)
             = flat_map bothCalls failed ++ [CallGraphQL b])
          ∨ (isThrow (fetchGithubTree b) = true
             ∧ isThrow (fetchGithubTreeREST b) = false
             ∧ networkCalls (loopEvents out)
               = flat_map bothCalls failed ++ [CallGraphQL b; CallREST b]))
       ∧ (∀ b', In b' untried →
                ¬ In (CallGraphQL b') (loopEvents out)
                ∧ ¬ In (CallREST b') (loopEvents out))).

(** ** codex/CodexViewer.tsx: [fetchFileContent] *)

(** The answer of [fetch(url)]: the [ok] flag, the status text and the
    outcome of reading the body with [response.text()]. *)
Record Response := mkResponse {
  ok : bool;
  statusText : string;
  text : Result string
}.

(** What the function does to the component, the console, the cache and the
    network, in order. *)
Inductive ViewerEvent :=
| SetLoading (loading : bool)
| SetError (error : option string)
| CacheLookup (cacheKey : string)
| NetworkFetch (url : string)
| CacheStore (cacheKey c : string)
| SetFileContent (c : string)
| SetSelectedFile (file : GitHubFile)
| SetFileMetadata (c : string)
| RecordView (path name : string)
| UpdateURL (currentPath path : string)
| ConsoleError (err : Thrown)
| ConsoleWarn (err : Thrown).

Section fetch_file_content.
(** The cache adapter as the viewer sees it: a lookup and a store, either of
    which can reject; and the network. *)
Variable cacheGet : string → Result (option string).
Variable cacheSet : string → string → Result unit.
Variable fetch : string → Result Response.
Variable currentPath : string.

(** The body of the [try] block: the events it produces and whether it ran
    to its end or threw. *)
Definition fetchFileContentTry (file : GitHubFile) (url : string)
  : list ViewerEvent * option Thrown :=
  let cacheKey := file_path file in
  let finish (events : list ViewerEvent) (c : string) :=
    (events
     ++ [SetFileContent c; SetSelectedFile file]
     ++ (if isMarkdownFile (file_name file) then [SetFileMetadata c] else [])
     ++ [RecordView (file_path file) (file_name file);
         UpdateURL currentPath (file_path file)],
     None) in
  match cacheGet cacheKey with
  | Throw e => ([CacheLookup cacheKey], Some e)
  | Ok cached =>
      let c := match cached with Some c => if truthy c then c else "" | None => "" end in
      let hit := match cached with Some c => truthy c | None => false end in
      if hit then finish [CacheLookup cacheKey] c
      else
        match fetch url with
        | Throw e => ([CacheLookup cacheKey; NetworkFetch url], Some e)
        | Ok response =>
            if negb (ok response) then
              ([CacheLookup cacheKey; NetworkFetch url],
               Some (ErrorObject
                       ("Failed to fetch file: " +:+ statusText response)))
            else
              match text response with
              | Throw e => ([CacheLookup cacheKey; NetworkFetch url], Some e)
              | Ok c =>
                  match cacheSet cacheKey c with
                  | Throw e =>
                      ([CacheLookup cacheKey; NetworkFetch url;
                        CacheStore cacheKey c], Some e)
                  | Ok _ =>
                      finish [CacheLookup cacheKey; NetworkFetch url;
                              CacheStore cacheKey c] c
                  end
              end
        end
  end.

Definition fetchFileContent (file : GitHubFile) : list ViewerEvent :=
  match file_type file, file_download_url file with
  | TypeFile, Some url =>
      if truthy url then
        let '(events, thrown) := fetchFileContentTry file url in
        [SetLoading true; SetError None]
        ++ events
        ++ match thrown with
           | Some err =>
               [ConsoleError err;
                SetError (Some (errorMessage err "Failed to fetch file content"))]
           | None => []
           end
        ++ [SetLoading false]
      else []
  | _, _ => []
  end.
End fetch_file_content.

(** The lookup and the store of the in-memory cache module, seen as an
    adapter over the current map; the store's effect on the map is
    [setCachedStrand]. *)
Definition memoryCacheGet (memoryCache : MemoryCache) (path : string)
  : Result (option string) :=
  Ok (getCachedStrand memoryCache path).

Definition memoryCacheSet (path c : string) : Result unit := Ok ().

Definition isNetworkFetch (e : ViewerEvent) : bool :=
  match e with NetworkFetch _ => true | _ => false end.

Definition isErrorState (e : ViewerEvent) : bool :=
  match e with SetError (Some _) => true | _ => false end.

(** A network that answers, and a file to fetch. *)
Definition workingFetch (url : string) : Result Response :=
  Ok {| ok := true; statusText := "OK"; text := Ok "# Title" |}.

Definition downloadableFile : GitHubFile :=
  {| file_name := "intro.md"; file_path := "weaves/a/intro.md";
     file_type := TypeFile; file_sha := ""; file_size := None; file_url := "";
     file_html_url := "";
     file_download_url := Some "https://raw.example/weaves/a/intro.md" |}.

(** ** codex/types.ts: the knowledge tree *)

Inductive GitItemType := Blob | Tree.

Record GitTreeItem := mkGitTreeItem {
  item_path : string;
  item_type : GitItemType;
  item_sha : string;
  item_size : option nat
}.

Inductive NodeLevel := Fabric | Weave | Loom | Strand | Folder.

(** [children] is optional in the interface: absent on a file node, an
    array, possibly empty, on a directory node. *)
Inductive KnowledgeTreeNode :=
| mkNode (name path : string) (type : FileType)
         (children : option (list KnowledgeTreeNode))
         (strandCount : nat) (level : NodeLevel).

Definition node_name (n : KnowledgeTreeNode) : string :=
  match n with mkNode name _ _ _ _ _ => name end.
Definition node_path (n : KnowledgeTreeNode) : string :=
  match n with mkNode _ path _ _ _ _ => path end.
Definition node_type (n : KnowledgeTreeNode) : FileType :=
  match n with mkNode _ _ type _ _ _ => type end.
Definition node_children (n : KnowledgeTreeNode)
  : option (list KnowledgeTreeNode) :=
  match n with mkNode _ _ _ children _ _ => children end.
Definition strandCount (n : KnowledgeTreeNode) : nat :=
  match n with mkNode _ _ _ _ strandCount _ => strandCount end.
Definition node_level (n : KnowledgeTreeNode) : NodeLevel :=
  match n with mkNode _ _ _ _ _ level => level end.

(** [node.children || []] *)
Definition childrenOf (n : KnowledgeTreeNode) : list KnowledgeTreeNode :=
  match node_children n with Some nodes => nodes | None => [] end.

(** ** The tree builder *)

(** [s.split(sep)] *)
Fixpoint splitOn (sep : ascii) (s : string) : list string :=
  match s with
  | EmptyString => [EmptyString]
  | String c rest =>
      if Ascii.eqb c sep then EmptyString :: splitOn sep rest
      else match splitOn sep rest with
           | segment :: segments => String c segment :: segments
           | [] => [String c EmptyString]
           end
  end.

(** Modelled from the spec: the segments of a path, separated by [/]; empty
    segments (leading, trailing or doubled slashes) are stripped.  This and
    the definitions below stand for [buildKnowledgeTree], which the tree hook
    imports from codex/utils and whose definition is missing from the
    sources. *)
Definition pathSegments (path : string) : list string :=
  List.filter truthy (splitOn "/" path).

(** What a node is, for the level rule: a directory, a markdown file or
    another file. *)
Inductive NodeKind := KindDir | KindMarkdown | KindOtherFile.

Definition nodeKind (type : FileType) (name : string) : NodeKind :=
  match type with
  | TypeDir => KindDir
  | TypeFile => if isMarkdownFile name then KindMarkdown else KindOtherFile
  end.

(** Modelled from the spec: the level of a node is a function of its depth
    under the synthetic root and of what it is.  Directories at depth 1 are
    weaves and directories nested inside a weave are looms; a markdown file
    is a strand, and any other file a folder; the implicit top (depth 0) is
    the fabric.  The edge case of the tree builder is the exception to the
    rule for markdown files: a file directly under the root (depth 1) is a
    folder, markdown or not. *)
Definition levelOf (depth : nat) (kind : NodeKind) : NodeLevel :=
  match kind with
  | KindDir =>
      match depth with
      | 0 => Fabric
      | 1 => Weave
      | _ => Loom
      end
  | KindMarkdown =>
      match depth with
      | 0 | 1 => Folder
      | _ => Strand
      end
  | KindOtherFile => Folder
  end.

Definition nodeTypeOf (type : GitItemType) : FileType :=
  match type with Blob => TypeFile | Tree => TypeDir end.

(** Modelled from the spec: the path of a child is the parent's path, a
    slash and the child's name; a top-level node's path is its name. *)
Definition childPath (parentPath name : string) : string :=
  if truthy parentPath then parentPath +:+ "/" +:+ name else name.

(** Modelled from the spec: a missing intermediate directory is created
    with type [dir], no children yet, a strand count of 0 and the level of
    its depth. *)
Definition newDirectory (depth : nat) (name path : string)
  : KnowledgeTreeNode :=
  mkNode name path TypeDir (Some []) 0 (levelOf depth KindDir).

(** Modelled from the spec: the node of the last segment takes the item's
    type; a markdown file contributes 1 and anything else 0; inserting a
    path that is already there overwrites the node without incrementing,
    and what was attached below it stays. *)
Definition leafNode (depth : nat) (name path : string) (type : FileType)
    (existing : option KnowledgeTreeNode) : KnowledgeTreeNode :=
  let fresh := match type with TypeDir => Some [] | TypeFile => None end in
  let children :=
    match existing with
    | Some n => match node_children n with
                | Some nodes => Some nodes
                | None => fresh
                end
    | None => fresh
    end in
  let count :=
    match nodeKind type name with KindMarkdown => 1 | _ => 0 end in
  mkNode name path type children count (levelOf depth (nodeKind type name)).

Definition withChildren (n : KnowledgeTreeNode)
    (nodes : list KnowledgeTreeNode) : KnowledgeTreeNode :=
  match n with
  | mkNode name path type _ count level =>
      mkNode name path type (Some nodes) count level
  end.

(** The child called [name] is replaced by [f] of it; when there is none,
    [f None] is appended, so that children stay in first-seen order. *)
Fixpoint upsertChild (name : string)
    (f : option KnowledgeTreeNode → KnowledgeTreeNode)
    (nodes : list KnowledgeTreeNode) : list KnowledgeTreeNode :=
  match nodes with
  | [] => [f None]
  | n :: rest =>
      if String.eqb (node_name n) name then f (Some n) :: rest
      else n :: upsertChild name f rest
  end.

(** Modelled from the spec: one item is inserted by walking its segments
    from the synthetic root, creating the directories that are missing on
    the way and descending into [children]; [depth] is the depth of the
    nodes of [nodes]' parent and [parentPath] its path. *)
Fixpoint insertSegments (depth : nat) (parentPath : string)
    (segments : list string) (type : FileType)
    (nodes : list KnowledgeTreeNode) : list KnowledgeTreeNode :=
  match segments with
  | [] => nodes
  | name :: rest =>
      let path := childPath parentPath name in
      match rest with
      | [] => upsertChild name (leafNode (S depth) name path type) nodes
      | _ :: _ =>
          upsertChild name
            (fun existing =>
               let dir :=
                 match existing with
                 | Some n => n
                 | None => newDirectory (S depth) name path
                 end in
               withChildren dir
                 (insertSegments (S depth) path rest type (childrenOf dir)))
            nodes
      end
  end.

Definition insertItem (nodes : list KnowledgeTreeNode) (item : GitTreeItem)
  : list KnowledgeTreeNode :=
  insertSegments 0 "" (pathSegments (item_path item))
                 (nodeTypeOf (item_type item)) nodes.

(** [nodes.reduce((sum, node) => sum + node.strandCount, 0)] *)
Definition sumStrandCounts (nodes : list KnowledgeTreeNode) : nat :=
  foldl (fun sum node => sum + strandCount node) 0 nodes.

(** Modelled from the spec: the post-order pass after the insertions, which
    makes the strand count of every directory the sum of the counts of its
    children. *)
Fixpoint countStrands (n : KnowledgeTreeNode) : KnowledgeTreeNode :=
  match n with
  | mkNode name path type children count level =>
      let children' :=
        match children with
        | Some nodes => Some (List.map countStrands nodes)
        | None => None
        end in
      let count' :=
        match type with
        | TypeDir =>
            sumStrandCounts
              (match children' with Some nodes => nodes | None => [] end)
        | TypeFile => count
        end in
      mkNode name path type children' count' level
  end.

(** Modelled from the spec: [buildKnowledgeTree(items)] inserts the items
    one by one into an empty forest under the synthetic root, then runs the
    counting pass, and returns the top-level nodes.  The optional sorting of
    the children is left out. *)
Definition buildKnowledgeTree (items : list GitTreeItem)
  : list KnowledgeTreeNode :=
  List.map countStrands (foldl insertItem [] items).

(** Modelled from the spec: the caller can filter the listing to a scope
    root, typically [weaves]; the builder then returns the children of that
    directory as the top-level nodes.  The synthetic root stands for the
    scope root: an item below it is inserted by the segments that follow the
    scope root, so that depths count from there, while the path of a node
    stays its full path from the repository root; the scope root itself and
    the items outside it are left out.  [stripScope] gives the segments that
    follow the scope root. *)
Fixpoint stripScope (scopeRoot segments : list string)
  : option (list string) :=
  match scopeRoot with
  | [] => Some segments
  | root :: scopeRoot' =>
      match segments with
      | [] => None
      | segment :: segments' =>
          if String.eqb root segment then stripScope scopeRoot' segments'
          else None
      end
  end.

Definition insertScopedItem (scopeRoot : list string)
    (nodes : list KnowledgeTreeNode) (item : GitTreeItem)
  : list KnowledgeTreeNode :=
  match stripScope scopeRoot (pathSegments (item_path item)) with
  | Some segments =>
      insertSegments 0 (foldl childPath "" scopeRoot) segments
                     (nodeTypeOf (item_type item)) nodes
  | None => nodes
  end.

(** Modelled from the spec: the builder under a scope root; with the empty
    scope root, when the caller does not filter, it is
    [buildKnowledgeTree]. *)
Definition buildKnowledgeTreeUnder (scopeRoot : list string)
    (items : list GitTreeItem) : list KnowledgeTreeNode :=
  List.map countStrands (foldl (insertScopedItem scopeRoot) [] items).

(** *** Reading a tree *)

(** The nodes of a tree together with their depth under the synthetic
    root: a node, then its descendants. *)
Fixpoint nodesAt (depth : nat) (n : KnowledgeTreeNode)
  : list (nat * KnowledgeTreeNode) :=
  (depth, n)
  :: match node_children n with
     | Some nodes => flat_map (nodesAt (S depth)) nodes
     | None => []
     end.

Definition forestNodes (nodes : list KnowledgeTreeNode)
  : list (nat * KnowledgeTreeNode) :=
  flat_map (nodesAt 1) nodes.



Definition blob (path : string) : GitTreeItem :=
  {| item_path := path; item_type := Blob; item_sha := ""; item_size := None |}.

Definition tree (path : string) : GitTreeItem :=
  {| item_path := path; item_type := Tree; item_sha := ""; item_size := None |}.

(** The segments and the node type of an input item. *)
Definition itemSegments (item : GitTreeItem) : list string :=
  pathSegments (item_path item).

Definition itemType (item : GitTreeItem) : FileType :=
  nodeTypeOf (item_type item).

(** A repository whose GraphQL endpoint refuses every request and whose
    REST endpoint knows the branch [main] only. *)
Definition graphqlRefused (branch : string) : Result (list RawEntry) :=
  Throw (ErrorObject "Bad credentials").

Definition restOnMain (branch : string) : Result (list RawEntry) :=
  if String.eqb branch "main"
  then Ok [{| entry_name := "weaves"; entry_type := "tree";
              entry_path := "weaves"; entry_size := None |}]
  else Throw (ErrorObject "Not Found").

(** ** Induction over the two trees, and the invariant of the builder *)

(** Both trees nest through [list]; their induction principles give the
    hypothesis for every child. *)
Section MdNode_induction.
Variable P : MdNode → Prop.
Hypothesis Htext : ∀ value, P (MdText value).
Hypothesis Hliteral : ∀ kind value, P (MdLiteral kind value).
Hypothesis Hparent :
  ∀ kind children, Forall P children → P (MdParent kind children).

Fixpoint MdNode_nested_ind (node : MdNode) : P node :=
  match node with
  | MdText value => Htext value
  | MdLiteral kind value => Hliteral kind value
  | MdParent kind children =>
      Hparent kind children
        ((fix all (nodes : list MdNode) : Forall P nodes :=
            match nodes with
            | [] => List.Forall_nil P
            | n :: rest =>
                List.Forall_cons P n rest (MdNode_nested_ind n) (all rest)
            end) children)
  end.
End MdNode_induction.

Section KnowledgeTreeNode_induction.
Variable P : KnowledgeTreeNode → Prop.
Hypothesis Hnode :
  ∀ name path type children count level,
    Forall P (match children with Some nodes => nodes | None => [] end) →
    P (mkNode name path type children count level).

Fixpoint KnowledgeTreeNode_nested_ind (n : KnowledgeTreeNode) : P n :=
  match n with
  | mkNode name path type children count level =>
      Hnode name path type children count level
        (let all :=
           fix all (nodes : list KnowledgeTreeNode) : Forall P nodes :=
             match nodes with
             | [] => List.Forall_nil P
             | m :: rest =>
                 List.Forall_cons P m rest
                   (KnowledgeTreeNode_nested_ind m) (all rest)
             end in
         match children
           return Forall P (match children with
                            | Some nodes => nodes | None => [] end)
         with
         | Some nodes => all nodes
         | None => List.Forall_nil P
         end)
  end.
End KnowledgeTreeNode_induction.

(** What the insertions maintain at every node, [depth] being the depth of
    the node: a file counts 1 or 0 according to its extension, and the level
    is the one of the depth and kind. *)
Definition NodeInv (depth : nat) (n : KnowledgeTreeNode) : Prop :=
  (node_type n = TypeFile →
   strandCount n = if isMarkdownFile (node_name n) then 1 else 0)
  ∧ node_level n = levelOf depth (nodeKind (node_type n) (node_name n)).

(** [P] holds of every node of the forest [nodes], whose roots are at depth
    [depth]. *)
Definition ForestAll (P : nat → KnowledgeTreeNode → Prop) (depth : nat)
    (nodes : list KnowledgeTreeNode) : Prop :=
  ∀ d n, In (d, n) (flat_map (nodesAt depth) nodes) → P d n.

(** * Further code of the viewer *)

(** ** The file fetcher on top of the in-memory cache *)

(** The [setCachedStrand] calls among the events, applied to the map. *)
Definition applyCacheStores (now : string) (events : list ViewerEvent)
    (memoryCache : MemoryCache) : MemoryCache :=
  foldl (fun mc e =>
           match e with
           | CacheStore cacheKey c => setCachedStrand now cacheKey c mc
           | _ => mc
           end) memoryCache events.

(** [fetchFileContent] as the viewer runs it, with [getCachedStrand] and
    [setCachedStrand] of lib/codexCache behind the two cache calls: the
    events and the cache afterwards. *)
Definition viewFile (fetch : string → Result Response)
    (currentPath now : string) (memoryCache : MemoryCache) (file : GitHubFile)
  : list ViewerEvent * MemoryCache :=
  let events :=
    fetchFileContent (memoryCacheGet memoryCache) memoryCacheSet fetch
                     currentPath file in
  (events, applyCacheStores now events memoryCache).

(** The closing events of the [try] block when nothing was thrown. *)
Definition shownEvents (currentPath : string) (file : GitHubFile) (c : string)
  : list ViewerEvent :=
  [SetFileContent c; SetSelectedFile file]
  ++ (if isMarkdownFile (file_name file) then [SetFileMetadata c] else [])
  ++ [RecordView (file_path file) (file_name file);
      UpdateURL currentPath (file_path file)].

(** The events of the [catch] block. *)
Definition caughtEvents (err : Thrown) : list ViewerEvent :=
  [ConsoleError err;
   SetError (Some (errorMessage err "Failed to fetch file content"))].

Definition isSetFileContent (e : ViewerEvent) : bool :=
  match e with SetFileContent _ => true | _ => false end.

Definition isCacheStore (e : ViewerEvent) : bool :=
  match e with CacheStore _ _ => true | _ => false end.

(** ** Reading a run of the branch loop *)

(** A candidate works when GraphQL or, failing that, REST answers. *)
Definition branchWorks
    (fetchGithubTree fetchGithubTreeREST : string → Result (list RawEntry))
    (branch : string) : bool :=
  negb (isThrow (fetchGithubTree branch))
  || negb (isThrow (fetchGithubTreeREST branch)).

(** What a working candidate yields: the GraphQL answer, else the REST one. *)
Definition branchEntries
    (fetchGithubTree fetchGithubTreeREST : string → Result (list RawEntry))
    (branch : string) : list RawEntry :=
  match fetchGithubTree branch with
  | Ok entries => entries
  | Throw _ =>
      match fetchGithubTreeREST branch with
      | Ok entries => entries
      | Throw _ => []
      end
  end.

Definition isWarnGraphQL (e : TreeFetchEvent) : bool :=
  match e with WarnGraphQL => true | _ => false end.

Definition isWarnREST (e : TreeFetchEvent) : bool :=
  match e with WarnREST => true | _ => false end.

(** ** The other setters of the search/filter hook *)

Definition toggleSearchContent (prev : SearchOptions) : SearchOptions :=
  {| query := query prev; searchNames := searchNames prev;
     searchContent := negb (searchContent prev);
     caseSensitive := caseSensitive prev;
     difficulty := difficulty prev; tags := tags prev;
     subjects := subjects prev; filterScope := filterScope prev;
     hideEmptyFolders := hideEmptyFolders prev; rootScope := rootScope prev |}.

Definition toggleCaseSensitive (prev : SearchOptions) : SearchOptions :=
  {| query := query prev; searchNames := searchNames prev;
     searchContent := searchContent prev;
     caseSensitive := negb (caseSensitive prev);
     difficulty := difficulty prev; tags := tags prev;
     subjects := subjects prev; filterScope := filterScope prev;
     hideEmptyFolders := hideEmptyFolders prev; rootScope := rootScope prev |}.

Definition toggleHideEmptyFolders (prev : SearchOptions) : SearchOptions :=
  {| query := query prev; searchNames := searchNames prev;
     searchContent := searchContent prev; caseSensitive := caseSensitive prev;
     difficulty := difficulty prev; tags := tags prev;
     subjects := subjects prev; filterScope := filterScope prev;
     hideEmptyFolders := negb (hideEmptyFolders prev);
     rootScope := rootScope prev |}.

Definition setRootScope (scope : NavigationRootScope) (prev : SearchOptions)
  : SearchOptions :=
  {| query := query prev; searchNames := searchNames prev;
     searchContent := searchContent prev; caseSensitive := caseSensitive prev;
     difficulty := difficulty prev; tags := tags prev;
     subjects := subjects prev; filterScope := filterScope prev;
     hideEmptyFolders := hideEmptyFolders prev; rootScope := scope |}.

(** [resetFilters] sets the options it was started with, whatever they
    are now. *)
Definition resetFilters (prev : SearchOptions) : SearchOptions :=
  {| query := ""; searchNames := true; searchContent := false;
     caseSensitive := false; difficulty := None; tags := None;
     subjects := None; filterScope := ScopeAll; hideEmptyFolders := false;
     rootScope := RootFabric |}.

(** ** codex/constants.ts: the repository configuration and the endpoints *)

Record RepoConfig := mkRepoConfig {
  OWNER : string;
  NAME : string;
  CONFIG_BRANCH : string
}.

(** [path.replace(/^\/+/, '')] *)
Fixpoint stripLeadingSlashes (path : string) : string :=
  match path with
  | EmptyString => EmptyString
  | String c rest =>
      if Ascii.eqb c "/" then stripLeadingSlashes rest else path
  end.

Definition joinPath (base path : string) : string :=
  if negb (truthy path) then base
  else
    let sanitized := stripLeadingSlashes path in
    base +:+ "/" +:+ sanitized.

(** [API_ENDPOINTS.raw(path)] *)
Definition rawEndpoint (config : RepoConfig) (path : string) : string :=
  joinPath ("https://raw.githubusercontent.com/" +:+ OWNER config +:+ "/"
            +:+ NAME config +:+ "/" +:+ CONFIG_BRANCH config) path.

(** ** codex/ui/MediaViewer.tsx: the kind of a media file *)

Definition IMAGE_EXTENSIONS : list string :=
  toLowerCase <$> MEDIA_EXTENSIONS_images.
Definition AUDIO_EXTENSIONS : list string :=
  toLowerCase <$> MEDIA_EXTENSIONS_audio.
Definition VIDEO_EXTENSIONS : list string :=
  toLowerCase <$> MEDIA_EXTENSIONS_video.
Definition DOC_EXTENSIONS : list string :=
  toLowerCase <$> MEDIA_EXTENSIONS_documents.

(** The component has its own copy of [getExtension]. *)
Definition viewerExtension (name : string) : string :=
  match fromLast "." name with
  | None => ""
  | Some suffix => toLowerCase suffix
  end.

Definition isImage (name : string) : bool :=
  hasString IMAGE_EXTENSIONS (viewerExtension name).
Definition isAudio (name : string) : bool :=
  hasString AUDIO_EXTENSIONS (viewerExtension name).
Definition isVideo (name : string) : bool :=
  hasString VIDEO_EXTENSIONS (viewerExtension name).
Definition isDocument (name : string) : bool :=
  hasString DOC_EXTENSIONS (viewerExtension name).

(** The "not previewable" notice is shown when [isMediaFile] says no. *)
Definition showsFallbackNotice (name : string) : bool :=
  negb (isMediaFile name).

(** ** codex/CodexViewer.tsx: [openFileFromTree] *)

(** [array.join(sep)] *)
Fixpoint joinWith (sep : string) (segments : list string) : string :=
  match segments with
  | [] => ""
  | [segment] => segment
  | segment :: rest => segment +:+ sep +:+ joinWith sep rest
  end.

(** The file payload [openFileFromTree] builds from a path of the knowledge
    tree, and the directory it lists first when that is not the current
    one. *)
Definition treeFileName (fullPath : string) : string :=
  let normalizedPath := stripLeadingSlashes fullPath in
  let segments := splitOn "/" normalizedPath in
  match last segments with
  | Some popped => if truthy popped then popped else normalizedPath
  | None => normalizedPath
  end.

Definition treeParentDir (fullPath : string) : string :=
  let normalizedPath := stripLeadingSlashes fullPath in
  let segments := splitOn "/" normalizedPath in
  joinWith "/" (removelast segments).

Definition treeFilePayload (config : RepoConfig) (fullPath : string)
  : GitHubFile :=
  let normalizedPath := stripLeadingSlashes fullPath in
  {| file_name := treeFileName fullPath;
     file_path := normalizedPath;
     file_type := TypeFile;
     file_sha := "";
     file_size := None;
     file_url := "";
     file_html_url :=
       "https://github.com/" +:+ OWNER config +:+ "/" +:+ NAME config
       +:+ "/blob/" +:+ CONFIG_BRANCH config +:+ "/" +:+ normalizedPath;
     file_download_url := Some (rawEndpoint config normalizedPath) |}.

(** A string has no slash. *)
Definition noSlash (s : string) : bool := negb (includes s "/").

(** A string made of slashes only. *)
Fixpoint onlySlashes (s : string) : bool :=
  match s with
  | EmptyString => true
  | String c rest => Ascii.eqb c "/" && onlySlashes rest
  end.

(** ** codex/ui/ImageLightbox.tsx: the index of the image shown *)

(** JavaScript's [%] is the remainder of the truncated division, [Z.rem]. *)

(** The index set when the lightbox opens:
    [Math.min(initialIndex, Math.max(initialIndex, 0))]. *)
Definition lightboxOpenIndex (initialIndex : Z) : Z :=
  Z.min initialIndex (Z.max initialIndex 0).

(** The arrow keys; [len] is [images.length]. *)
Definition arrowRight (len prev : Z) : Z :=
  Z.rem (prev + 1) (Z.max len 1).

Definition arrowLeft (len prev : Z) : Z :=
  Z.rem (prev - 1 + Z.max len 1) (Z.max len 1).

(** The two buttons, rendered when there is more than one image. *)
Definition nextButton (len prev : Z) : Z := Z.rem (prev + 1) len.

Definition previousButton (len prev : Z) : Z := Z.rem (prev - 1 + len) len.

(** ** codex/CodexSidebar.tsx: the paged file list *)

Definition INITIAL_LIMIT : nat := 50.
Definition LOAD_MORE_INCREMENT : nat := 50.

(** [filteredFiles.slice(0, displayLimit)] *)
Definition displayedFiles (filteredFiles : list GitHubFile)
    (displayLimit : nat) : list GitHubFile :=
  take displayLimit filteredFiles.

Definition hasMore (filteredFiles : list GitHubFile) (displayLimit : nat)
  : bool :=
  displayLimit <? length filteredFiles.

(** The click on "Load more". *)
Definition loadMore (prev : nat) : nat := prev + LOAD_MORE_INCREMENT.

(** The number shown on the button: [filteredFiles.length - displayLimit]. *)
Definition remainingCount (filteredFiles : list GitHubFile)
    (displayLimit : nat) : Z :=
  Z.of_nat (length filteredFiles) - Z.of_nat displayLimit.

(** The limit after [clicks] clicks since the list last changed. *)
Definition limitAfter (clicks : nat) : nat :=
  Nat.iter clicks loadMore INITIAL_LIMIT.

(** ** codex/CodexViewer.tsx: [toggleTreePath] *)

Definition toggleTreePath (path : string) (prev : gset string) : gset string :=
  let next := prev in
  if decide (path ∈ next) then next ∖ {[path]} else next ∪ {[path]}.

(** ** codex/hooks/useTextToSpeech.ts *)

Record TTSState := mkTTSState {
  isSupported : bool;
  isPlaying : bool;
  isPaused : bool
}.

(** What happens to the hook: the four controls, and the three callbacks of
    the utterance handed to the speech synthesiser. *)
Inductive TTSAction :=
| Speak (spoken : string)
| Pause
| Resume
| Stop
| OnStart
| OnEnd
| OnError.

Definition ttsStep (st : TTSState) (action : TTSAction) : TTSState :=
  let set playing paused :=
    {| isSupported := isSupported st; isPlaying := playing;
       isPaused := paused |} in
  match action with
  | Speak _ => st
  | Pause => if negb (isSupported st) then st else set false true
  | Resume => if negb (isSupported st) then st else set true false
  | Stop => if negb (isSupported st) then st else set false false
  | OnStart => set true false
  | OnEnd => set false false
  | OnError => set false false
  end.

Definition ttsRun (actions : list TTSAction) (st : TTSState) : TTSState :=
  foldl ttsStep st actions.

Definition isControl (action : TTSAction) : bool :=
  match action with
  | Speak _ | Pause | Resume | Stop => true
  | OnStart | OnEnd | OnError => false
  end.

(** ** codex/CodexSidebar.tsx: the filtered knowledge tree *)

(** [filterNode] of [filteredTree]; [null] is [None].  The file handed to
    [shouldShowFile] has the name and the path of the node and type
    ['file']; [xs.map(filterNode).filter(c => c !== null)] is [omap]. *)
Fixpoint filterNode (scope : FileFilterScope) (hideEmpty : bool)
    (node : KnowledgeTreeNode) : option KnowledgeTreeNode :=
  match node with
  | mkNode name path type children count level =>
      match type with
      | TypeFile =>
          if shouldShowFile (plainFile name path) scope false []
          then Some node else None
      | TypeDir =>
          match children with
          | None => None
          | Some nodes =>
              let keptChildren := omap (filterNode scope hideEmpty) nodes in
              if length keptChildren =? 0
              then if hideEmpty then None
                   else Some (mkNode name path type (Some []) count level)
              else Some (mkNode name path type (Some keptChildren) count level)
          end
      end
  end.

Definition filteredTree (knowledgeTree : list KnowledgeTreeNode)
    (searchOptions : SearchOptions) : list KnowledgeTreeNode :=
  let treeToFilter :=
    match rootScope searchOptions with
    | RootFabric =>
        match List.find (fun n => String.eqb (node_path n) "weaves")
                knowledgeTree with
        | Some weavesNode => childrenOf weavesNode
        | None => []
        end
    | RootWeaves => knowledgeTree
    end in
  omap (filterNode (filterScope searchOptions)
          (hideEmptyFolders searchOptions)) treeToFilter.

(** The nodes [renderTreeNode] draws, each with its depth: the node itself,
    and the children of an expanded directory. *)
Fixpoint renderTreeNode (expandedTreePaths : gset string) (depth : nat)
    (node : KnowledgeTreeNode) : list (nat * KnowledgeTreeNode) :=
  (depth, node)
  :: match node_type node, node_children node with
     | TypeDir, Some nodes =>
         if bool_decide (node_path node ∈ expandedTreePaths)
            && (0 <? length nodes)
         then flat_map (renderTreeNode expandedTreePaths (S depth)) nodes
         else []
     | _, _ => []
     end.

(** The tree nodes of [renderKnowledgeTree]. *)
Definition renderKnowledgeTree (expandedTreePaths : gset string)
    (knowledgeTree : list KnowledgeTreeNode) (searchOptions : SearchOptions)
  : list (nat * KnowledgeTreeNode) :=
  flat_map (renderTreeNode expandedTreePaths 0)
    (filteredTree knowledgeTree searchOptions).

(** The fields of a node other than its children. *)
Definition sameFields (n m : KnowledgeTreeNode) : Prop :=
  node_name n = node_name m ∧ node_path n = node_path m
  ∧ node_type n = node_type m ∧ node_level n = node_level m
  ∧ strandCount n = strandCount m.

(** A small tree and options to run the filter on. *)
Definition sampleTree : list KnowledgeTreeNode :=
  [ mkNode "weaves" "weaves" TypeDir
      (Some [ mkNode "intro.md" "weaves/intro.md" TypeFile None 1 Strand;
              mkNode "logo.png" "weaves/logo.png" TypeFile None 0 Strand ])
      1 Fabric;
    mkNode "README.md" "README.md" TypeFile None 1 Strand ].

Definition strandsOfWholeTree : SearchOptions :=
  setRootScope RootWeaves (setFilterScope ScopeStrands initialOptions).

(** ** KnowledgeGraphView: [buildGraph] *)

Inductive GraphLevel := GraphWeave | GraphLoom | GraphStrand.

(** A graph node without its position: [x] and [y] are drawn at random and
    [vx], [vy] start at 0. *)
Record GraphNode := mkGraphNode {
  graph_id : string;
  graph_label : string;
  graph_level : GraphLevel;
  graph_radius : nat;
  graph_path : string
}.

(** Every edge has type ['reference']. *)
Record GraphEdge := mkGraphEdge {
  edge_source : string;
  edge_target : string
}.

(** [node.path || node.name] *)
Definition nodeId (node : KnowledgeTreeNode) : string :=
  if truthy (node_path node) then node_path node else node_name node.

Definition graphNodeOf (node : KnowledgeTreeNode) : GraphNode :=
  {| graph_id := nodeId node;
     graph_label := node_name node;
     graph_level :=
       match node_level node with
       | Fabric | Folder => GraphWeave
       | Weave => GraphWeave
       | Loom => GraphLoom
       | Strand => GraphStrand
       end;
     graph_radius :=
       match node_level node with
       | Weave => 40
       | Loom => 25
       | Strand => 15
       | _ => 20
       end;
     graph_path := node_path node |}.

(** [traverse] pushes on the two arrays [graphNodes] and [graphEdges], the
    state threaded here; [parentId] is absent at a root. *)
Fixpoint traverse (node : KnowledgeTreeNode) (parentId : option string)
    (st : list GraphNode * list GraphEdge)
  : list GraphNode * list GraphEdge :=
  if existsb (λ n, String.eqb (graph_id n) (nodeId node)) st.1 then st
  else
    let graphNodes := st.1 ++ [graphNodeOf node] in
    let graphEdges :=
      match parentId with
      | Some parent =>
          if truthy parent
          then st.2 ++ [{| edge_source := parent;
                           edge_target := nodeId node |}]
          else st.2
      | None => st.2
      end in
    match node_children node with
    | Some nodes =>
        fold_left (λ st child, traverse child (Some (nodeId node)) st)
          nodes (graphNodes, graphEdges)
    | None => (graphNodes, graphEdges)
    end.

(** [tree] is absent in the initial state of the page. *)
Definition buildGraph (tree : option (list KnowledgeTreeNode))
  : list GraphNode * list GraphEdge :=
  match tree with
  | Some roots => fold_left (λ st root, traverse root None st) roots ([], [])
  | None => ([], [])
  end.

(** What [traverse] maintains: no identifier twice, no node the target of
    two edges, and every edge from a node to one pushed after it. *)
Definition graphIds (st : list GraphNode * list GraphEdge) : list string :=
  List.map graph_id st.1.

Definition GraphInv (st : list GraphNode * list GraphEdge) : Prop :=
  NoDup (graphIds st)
  ∧ NoDup (List.map edge_target st.2)
  ∧ ∀ e, In e st.2 →
         ∃ i j, i < j ∧ graphIds st !! i = Some (edge_source e)
                ∧ graphIds st !! j = Some (edge_target e).

(** ** CodexContent: the links between strands *)

(** [s.replace(re, replacement)] for a global [re] that matches no empty
    string: one scan from the left; where [re] matches, the replacement is
    written and the scan goes on after the match.  [matchAt s] is the length
    of the match of [re] at the start of [s]; [skip] counts the characters
    of the current match still to be passed. *)
Fixpoint replaceAll (matchAt : string → option nat) (replacement : string)
    (skip : nat) (s : string) : string :=
  match s with
  | EmptyString => EmptyString
  | String c rest =>
      match skip with
      | S k => replaceAll matchAt replacement k rest
      | 0 =>
          match matchAt s with
          | Some (S k) =>
              replacement +:+ replaceAll matchAt replacement k rest
          | _ => String c (replaceAll matchAt replacement 0 rest)
          end
      end
  end.

(** [/\/\.\//] at the start of [s]. *)
Definition matchDotSegment (s : string) : option nat :=
  if startsWith s "/./" then Some 3 else None.

(** The length of the longest prefix of [s] without a slash. *)
Fixpoint segmentRun (s : string) : nat :=
  match s with
  | EmptyString => 0
  | String c rest => if Ascii.eqb c "/" then 0 else S (segmentRun rest)
  end.

(** [/\/[^/]+\/\.\.\//] at the start of [s]: the run of [[^/]] is followed
    by the end of [s] or by a slash, so the greedy run is the only one that
    the rest of the pattern can follow. *)
Definition matchParentSegment (s : string) : option nat :=
  match s with
  | EmptyString => None
  | String c rest =>
      if Ascii.eqb c "/" then
        let n := segmentRun rest in
        if (0 <? n) && startsWith (dropString n rest) "/../"
        then Some (n + 5) else None
      else None
  end.

(** The links handled as links between strands. *)
Definition isWikiLink (href : option string) : bool :=
  match href with
  | Some h => startsWith h "./" || startsWith h "../"
  | None => false
  end.

Definition linkedPath (currentPath href : string) : string :=
  currentPath +:+ "/" +:+ href.

Definition normalizedPath (linked : string) : string :=
  replaceAll matchParentSegment "/" 0
    (replaceAll matchDotSegment "/" 0 linked).

(** ** Well-formed paths of the repository listing *)


(** * Properties *)

Section cache_facts.
Implicit Types (mc : MemoryCache) (path c now : string).

Lemma truthy_nonempty path : truthy path = true ↔ path ≠ "".
Proof. destruct path; simpl; split; intros; congruence. Qed.

Lemma getCachedStrand_set mc now path c :
  path ≠ "" → getCachedStrand (setCachedStrand now path c mc) path = Some c.
Proof.
  intros Hp. apply truthy_nonempty in Hp.
  unfold getCachedStrand, setCachedStrand. rewrite Hp. simpl.
  by rewrite lookup_insert_eq.
Qed.

Lemma cacheRun_snoc calls call mc :
  cacheRun (calls ++ [call]) mc = cacheStep (cacheRun calls mc) call.
Proof. unfold cacheRun. by rewrite foldl_app. Qed.

Lemma cacheRun_lookup_None calls path :
  (∀ now c, CallSet now path c ∉ calls) →
  cacheRun calls ∅ !! path = None.
Proof.
  induction calls as [|call calls IH] using rev_ind; intros Hnot.
  - apply lookup_empty.
  - rewrite cacheRun_snoc.
    assert (IH' : cacheRun calls ∅ !! path = None).
    { apply IH. intros now c Hin. apply (Hnot now c). set_solver. }
    destruct call as [now p c|]; simpl.
    + unfold setCachedStrand. destruct (truthy p); simpl; [|done].
      rewrite lookup_insert_ne; [done|].
      intros ->. apply (Hnot now c). set_solver.
    + apply lookup_empty.
Qed.
End cache_facts.

(** C7. For a non-empty path, reading the cache right after storing a content
    under that path returns the content; reading a path that no call has
    stored since the module was loaded returns null. *)
Theorem cache_roundtrip (mc : MemoryCache) (now p c : string)
    (calls : list CacheCall) (q : string) :
  p ≠ "" →
  (∀ now' c', CallSet now' q c' ∉ calls) →
  getCachedStrand (setCachedStrand now p c mc) p = Some c
  ∧ getCachedStrand (cacheRun calls ∅) q = None.
Proof.
  intros Hp Hq. split.
  - by apply getCachedStrand_set.
  - unfold getCachedStrand. destruct (truthy q); simpl; [|done].
    by rewrite cacheRun_lookup_None.
Qed.

Section cache_stats.
Implicit Types (mc : MemoryCache) (ws : list (string * string)).

Lemma sinceLastClear_snoc_clear calls :
  sinceLastClear (calls ++ [CallClear]) = [].
Proof.
  induction calls as [|call calls IH]; [done|].
  change ((call :: calls) ++ [CallClear]) with (call :: (calls ++ [CallClear])).
  cbn [sinceLastClear]. rewrite IH.
  replace (existsb isClear (call :: calls ++ [CallClear])) with true; [done|].
  symmetry. apply existsb_exists. exists CallClear. split; [|done].
  apply list_elem_of_In. set_solver.
Qed.

Lemma sinceLastClear_snoc_set calls now path c :
  sinceLastClear (calls ++ [CallSet now path c])
  = sinceLastClear calls ++ [CallSet now path c].
Proof.
  induction calls as [|call calls IH]; [done|].
  change ((call :: calls) ++ [CallSet now path c])
    with (call :: (calls ++ [CallSet now path c])).
  cbn [sinceLastClear]. rewrite IH.
  assert (Hex : existsb isClear (call :: calls ++ [CallSet now path c])
                = existsb isClear (call :: calls)).
  { cbn [existsb]. rewrite existsb_app. simpl. by rewrite !orb_false_r. }
  rewrite Hex. by destruct (existsb isClear (call :: calls)).
Qed.

Lemma writes_app calls1 calls2 :
  writes (calls1 ++ calls2) = writes calls1 ++ writes calls2.
Proof.
  induction calls1 as [|[now p c|] calls1 IH]; simpl; [done| |done].
  destruct (truthy p); simpl; by rewrite IH.
Qed.

Lemma latest_snoc path ws p c :
  latest path (ws ++ [(p, c)])
  = if String.eqb p path then Some c else latest path ws.
Proof.
  induction ws as [|[p' c'] ws IH]; simpl.
  - by destruct (String.eqb p path).
  - rewrite IH. by destruct (String.eqb p path).
Qed.

Lemma latest_is_Some path ws : is_Some (latest path ws) ↔ path ∈ ws.*1.
Proof.
  induction ws as [|[p c] ws IH]; simpl.
  - split; [by intros [? ?]|by intros ?%elem_of_nil].
  - rewrite elem_of_cons, <-IH. destruct (latest path ws) as [c'|]; simpl.
    + split; [right|]; eauto.
    + destruct (String.eqb_spec p path) as [->|Hne].
      * split; [by left|eauto].
      * split; [by intros [? ?]|]. intros [->|[? ?]]; done.
Qed.

(** The cache holds, under each path, the content most recently written. *)
Lemma cacheRun_latest calls path :
  content <$> cacheRun calls ∅ !! path
  = latest path (writes (sinceLastClear calls)).
Proof.
  induction calls as [|call calls IH] using rev_ind.
  - unfold cacheRun; simpl. by rewrite lookup_empty.
  - rewrite cacheRun_snoc. destruct call as [now p c|]; simpl.
    + rewrite sinceLastClear_snoc_set, writes_app. simpl.
      unfold setCachedStrand. destruct (truthy p); simpl.
      * rewrite latest_snoc. destruct (String.eqb_spec p path) as [->|Hne].
        -- by rewrite lookup_insert_eq.
        -- by rewrite lookup_insert_ne.
      * by rewrite app_nil_r.
    + rewrite sinceLastClear_snoc_clear. unfold clearCodexCache.
      by rewrite lookup_empty.
Qed.

Lemma forEach_totalBytes (l : list (string * CachedRow)) :
  foldr (uncurry (fun (_ : string) row totalBytes =>
                    totalBytes + String.length (content row))) 0 l
  = sum_list_with (fun kv => String.length (content kv.2)) l.
Proof.
  induction l as [|[k row] l IH]; simpl; [done|]. rewrite IH. lia.
Qed.

Lemma sum_list_fmap {A} (g : A → nat) (l : list A) :
  sum_list (g <$> l) = sum_list_with g l.
Proof. induction l as [|x l IH]; simpl; [done|]. by f_equal. Qed.

Lemma cache_stats_by_paths mc ws :
  (∀ p, content <$> mc !! p = latest p ws) →
  getCodexCacheStats mc
  = {| totalItems := length (distinctPaths ws);
       totalBytes := sum_list (latestLength ws <$> distinctPaths ws) |}.
Proof.
  intros Hinv.
  assert (Hperm : distinctPaths ws ≡ₚ (map_to_list mc).*1).
  { apply NoDup_Permutation.
    - apply NoDup_remove_dups.
    - apply NoDup_fst_map_to_list.
    - intros p. unfold distinctPaths.
      rewrite elem_of_remove_dups, <-latest_is_Some, <-Hinv.
      rewrite fmap_is_Some, list_elem_of_fmap. split.
      + intros [row Hrow]. exists (p, row). split; [done|].
        by apply elem_of_map_to_list.
      + intros [[p' row] [-> Hin]]. exists row.
        by apply elem_of_map_to_list. }
  unfold getCodexCacheStats. f_equal.
  - rewrite Hperm, length_fmap. symmetry. apply length_map_to_list.
  - rewrite map_fold_foldr, forEach_totalBytes.
    rewrite sum_list_fmap, Hperm.
    assert (Hall : Forall (fun kv : string * CachedRow =>
                             mc !! kv.1 = Some kv.2) (map_to_list mc)).
    { apply Forall_forall. intros [k row] Hin. by apply elem_of_map_to_list. }
    clear Hperm. induction Hall as [|[k row] l Hk _ IH]; simpl; [done|].
    f_equal; [|done]. unfold latestLength.
    simpl in Hk. by rewrite <-Hinv, Hk.
Qed.
End cache_stats.

(** C10. After any sequence of [setCachedStrand] and [clearCodexCache] calls
    the statistics count each distinct non-empty path written since the last
    clear once, and total the lengths of the content most recently stored
    under each of them; writing a path again replaces its entry, and a call
    with an empty path changes nothing. *)
Theorem cache_stats_after_calls (calls : list CacheCall) :
  getCodexCacheStats (cacheRun calls ∅) = expectedStats calls
  ∧ (∀ mc now1 now2 p c1 c2,
       setCachedStrand now2 p c2 (setCachedStrand now1 p c1 mc)
       = setCachedStrand now2 p c2 mc)
  ∧ (∀ mc now c, setCachedStrand now "" c mc = mc).
Proof.
  split; [|split].
  - apply cache_stats_by_paths. intros p. apply cacheRun_latest.
  - intros mc now1 now2 p c1 c2. unfold setCachedStrand.
    destruct (truthy p); simpl; [|done]. apply insert_insert_eq.
  - done.
Qed.

(** ** The placeholder search engine *)

(** C6. Whatever the query and the options, [search] returns the empty list,
    at once for the empty query and also after any file set was indexed, and
    [canUseSemantic] answers false. *)
Theorem search_engine_placeholder {any number : Type}
    (engine : SimpleSearchEngine.t any) (fs : list any) (q : string)
    (options : option (EngineSearchOptions number)) :
  SimpleSearchEngine.search engine "" options = []
  ∧ SimpleSearchEngine.search (SimpleSearchEngine.index engine fs) q options = []
  ∧ SimpleSearchEngine.canUseSemantic engine = false
  ∧ SimpleSearchEngine.canUseSemantic (SimpleSearchEngine.index engine fs)
    = false.
Proof.
  repeat split. unfold SimpleSearchEngine.search.
  by destruct (negb (truthy q)).
Qed.

(** ** The search/filter hook *)

Section search_filter.
Implicit Types (files : list GitHubFile) (options : SearchOptions).

Lemma queryCallback_queryPredicate options f :
  truthy (query options) = true →
  queryCallback options
    (if caseSensitive options then query options
     else toLowerCase (query options)) f
  = queryPredicate options f.
Proof.
  intros Hq. unfold queryCallback, queryPredicate. rewrite Hq.
  destruct (caseSensitive options), (searchNames options); simpl;
    repeat match goal with |- context [includes ?a ?b] =>
             destruct (includes a b); simpl end; done.
Qed.

Lemma filter_true {A} (l : list A) : List.filter (fun _ => true) l = l.
Proof. induction l as [|x l IH]; simpl; [done|]. by rewrite IH. Qed.

Lemma filteredFiles_query files options :
  filteredFiles files options = List.filter (queryPredicate options) files.
Proof.
  unfold filteredFiles. destruct files as [|f files]; [done|].
  cbn [length Nat.eqb].
  assert (Hscope : match filterScope options with
                   | ScopeStrands => f :: files | _ => f :: files end
                   = f :: files) by (by destruct (filterScope options)).
  rewrite Hscope.
  destruct (truthy (query options)) eqn:Hq.
  - destruct (hideEmptyFolders options);
      apply filter_ext; intros g; by apply queryCallback_queryPredicate.
  - assert (Hall : ∀ g, queryPredicate options g = true).
    { intros g. unfold queryPredicate. by rewrite Hq. }
    rewrite (filter_ext _ (fun _ => true) Hall), filter_true.
    by destruct (hideEmptyFolders options).
Qed.
End search_filter.

(** C3, refuted as stated: with the scope set to strands and no query, an
    image file stays in the filtered list although the scope predicate
    rejects it. *)
Lemma filter_composition_counterexample :
  let files := [plainFile "logo.png" "assets/logo.png"] in
  let options := setFilterScope ScopeStrands initialOptions in
  filteredFiles files options = files
  ∧ List.filter (fun f => scopePredicate options f && queryPredicate options f)
                files = [].
Proof. by vm_compute. Qed.

(** C3, amended. The filtered list of the hook is exactly the files that
    satisfy the query predicate (all of them when the query is empty); the
    filter scope plays no part in it. *)
Theorem filteredFiles_is_query_filter (files : list GitHubFile)
    (options : SearchOptions) (scope : FileFilterScope) :
  filteredFiles files options = List.filter (queryPredicate options) files
  ∧ filteredFiles files (setFilterScope scope options)
    = filteredFiles files options.
Proof.
  split; [apply filteredFiles_query|].
  rewrite !filteredFiles_query. by apply filter_ext.
Qed.

(** C9. With a non-empty query, a file whose path contains the query is kept
    whatever [searchNames] says, and with [searchNames] off the result is
    exactly the files whose path (lower-cased unless [caseSensitive])
    contains the query. *)
Theorem path_match_cannot_be_disabled (files : list GitHubFile)
    (options : SearchOptions) :
  query options ≠ "" →
  (∀ f, In f files → pathPredicate options f = true →
        In f (filteredFiles files options))
  ∧ (searchNames options = false →
     filteredFiles files options = List.filter (pathPredicate options) files).
Proof.
  intros Hq%truthy_nonempty. rewrite filteredFiles_query. split.
  - intros f Hin Hpath. apply filter_In. split; [done|].
    unfold queryPredicate. rewrite Hq.
    unfold pathPredicate in Hpath. rewrite Hpath. apply orb_true_r.
  - intros Hnames. apply filter_ext. intros f.
    unfold queryPredicate, pathPredicate. by rewrite Hq, Hnames.
Qed.

Lemma path_match_cannot_be_disabled_witness :
  let options := toggleSearchNames (setQuery "DOCS" initialOptions) in
  let files := [plainFile "intro.md" "docs/intro.md";
                plainFile "docs.txt" "notes/Docs.txt";
                plainFile "readme.md" "readme.md"] in
  query options ≠ ""
  ∧ filteredFiles files options
    = [plainFile "intro.md" "docs/intro.md";
       plainFile "docs.txt" "notes/Docs.txt"].
Proof.
  intros options files.
  assert (Hq : query options ≠ "") by done.
  split; [exact Hq|].
  destruct (path_match_cannot_be_disabled files options Hq) as [_ Hexact].
  rewrite Hexact; reflexivity.
Defined.

Lemma cache_roundtrip_witness :
  "weaves/a.md" ≠ ""
  ∧ (∀ now' c', CallSet now' "weaves/b.md" c'
                ∉ [CallSet "t0" "weaves/a.md" "alpha"; CallClear])
  ∧ getCachedStrand (setCachedStrand "t1" "weaves/a.md" "# A" ∅) "weaves/a.md"
    = Some "# A"
  ∧ getCachedStrand
      (cacheRun [CallSet "t0" "weaves/a.md" "alpha"; CallClear] ∅)
      "weaves/b.md" = None.
Proof.
  assert (H1 : "weaves/a.md" ≠ "") by done.
  assert (H2 : ∀ now' c', CallSet now' "weaves/b.md" c'
                 ∉ [CallSet "t0" "weaves/a.md" "alpha"; CallClear]).
  { intros now' c' Hin. apply elem_of_cons in Hin as [Heq|Hin]; [done|].
    apply elem_of_cons in Hin as [Heq|Hin]; [done|]. by apply elem_of_nil in Hin. }
  split; [exact H1|]. split; [exact H2|].
  exact (cache_roundtrip ∅ "t1" "weaves/a.md" "# A"
           [CallSet "t0" "weaves/a.md" "alpha"; CallClear] "weaves/b.md" H1 H2).
Defined.

(** ** The control-flag strip pass *)

Example strip_single_flag :
  replaceFrom 0 "Intro ::cl-naive:: text ::x_1::" = "Intro  text ".
Proof. reflexivity. Qed.

Example strip_adjacent_flags : replaceFrom 0 "::a::::b::" = "".
Proof. reflexivity. Qed.

Example strip_joins_text : replaceFrom 0 ":::a:::b::" = "::b::".
Proof. reflexivity. Qed.

Example test_moves_lastIndex :
  regexTest 0 "a ::x:: b" = (true, 7)
  ∧ regexTest 7 "a ::x:: b" = (false, 0)
  ∧ stripVisitor "a ::x:: b" 0 = ("a  b", 0).
Proof. by vm_compute. Qed.

Section strip_scan.
Implicit Types (s t : string) (c : ascii).

Lemma startsWith_colon s :
  startsWith s ":" = true → ∃ rest, s = String ":" rest.
Proof.
  destruct s as [|c rest]; simpl; [done|].
  destruct (Ascii.eqb_spec c ":") as [->|]; [eauto|done].
Qed.

Lemma startsWith_colon2 s :
  startsWith s "::" = true → ∃ rest, s = String ":" (String ":" rest).
Proof.
  destruct s as [|c [|d rest]]; simpl; [done| |].
  - by rewrite andb_false_r.
  - destruct (Ascii.eqb_spec c ":") as [->|]; [|done].
    destruct (Ascii.eqb_spec d ":") as [->|]; [eauto|done].
Qed.

Lemma matchLength_colon2 t :
  matchLength (String ":" (String ":" t))
  = if (0 <? flagRun t) && startsWith (dropString (flagRun t) t) "::"
    then Some (flagRun t + 4) else None.
Proof. reflexivity. Qed.

Lemma matchLength_Some s len :
  matchLength s = Some len →
  ∃ t, s = String ":" (String ":" t) ∧ 0 < flagRun t
       ∧ startsWith (dropString (flagRun t) t) "::" = true
       ∧ len = flagRun t + 4.
Proof.
  unfold matchLength. destruct (startsWith s "::") eqn:Hs; [|done].
  apply startsWith_colon2 in Hs as [t ->].
  change (dropString 2 (String ":" (String ":" t))) with t.
  change (dropString (2 + flagRun t) (String ":" (String ":" t)))
    with (dropString (flagRun t) t).
  destruct (0 <? flagRun t) eqn:Hn; cbn [andb]; [|done].
  destruct (startsWith (dropString (flagRun t) t) "::") eqn:Ht; [|done].
  intros [= <-]. exists t. apply Nat.ltb_lt in Hn. repeat split; auto.
Qed.

Lemma matchLength_head c rest len :
  matchLength (String c rest) = Some len → c = ":"%char.
Proof. intros (t & [= -> _] & _)%matchLength_Some. done. Qed.

Lemma replaceFrom_skip k s : replaceFrom k s = replaceFrom 0 (dropString k s).
Proof.
  revert k. induction s as [|c rest IH]; intros [|k]; try done.
  simpl. apply IH.
Qed.

Lemma replaceFrom_unfold c rest :
  replaceFrom 0 (String c rest)
  = match matchLength (String c rest) with
    | Some (S k) => replaceFrom k rest
    | _ => String c (replaceFrom 0 rest)
    end.
Proof. reflexivity. Qed.

(** The three unfolding equations of the scan. *)
Lemma replaceFrom_no_match c rest :
  matchLength (String c rest) = None →
  replaceFrom 0 (String c rest) = String c (replaceFrom 0 rest).
Proof. intros H. by rewrite replaceFrom_unfold, H. Qed.

Lemma replaceFrom_match s len :
  matchLength s = Some len →
  replaceFrom 0 s = replaceFrom 0 (dropString len s).
Proof.
  intros H. destruct (matchLength_Some _ _ H) as (t & -> & _ & _ & ->).
  rewrite replaceFrom_unfold, H.
  replace (flagRun t + 4) with (S (flagRun t + 3)) by lia.
  cbn [dropString]. apply replaceFrom_skip.
Qed.

Lemma replaceFrom_other c rest :
  c ≠ ":"%char → replaceFrom 0 (String c rest) = String c (replaceFrom 0 rest).
Proof.
  intros Hc. apply replaceFrom_no_match.
  destruct (matchLength (String c rest)) eqn:H; [|done].
  by apply matchLength_head in H.
Qed.

(** A value without a match is left as it is. *)
Lemma replaceFrom_unchanged s : containsFlag s = false → replaceFrom 0 s = s.
Proof.
  induction s as [|c rest IH]; [done|]. cbn [containsFlag].
  destruct (matchLength (String c rest)) eqn:H; [done|].
  intros Hrest. rewrite replaceFrom_no_match by done. by rewrite IH.
Qed.

Lemma searchFlag_None pos s : searchFlag pos s = None → containsFlag s = false.
Proof.
  revert pos. induction s as [|c rest IH]; intros pos; cbn [searchFlag containsFlag].
  - by destruct (matchLength EmptyString).
  - destruct (matchLength (String c rest)); [done|]. apply IH.
Qed.

Lemma stripVisitor_scan value :
  stripVisitor value 0 = (replaceFrom 0 value, 0).
Proof.
  unfold stripVisitor, regexTest, regexReplace.
  change (String.length value <? 0) with false. cbn [dropString].
  replace (dropString 0 value) with value by (by destruct value).
  destruct (searchFlag 0 value) as [[i len]|] eqn:H; [done|].
  apply searchFlag_None in H. by rewrite replaceFrom_unchanged.
Qed.
End strip_scan.

Section strip_without_triple_colon.
Implicit Types (s t : string) (c : ascii).

Lemma hasTripleColon_cons c rest :
  hasTripleColon (String c rest) = false →
  startsWith (String c rest) ":::" = false ∧ hasTripleColon rest = false.
Proof. cbn [hasTripleColon]. by intros [? ?]%orb_false_elim. Qed.

Lemma hasTripleColon_drop k s :
  hasTripleColon s = false → hasTripleColon (dropString k s) = false.
Proof.
  revert s. induction k as [|k IH]; intros [|c rest] H; try done.
  cbn [dropString]. apply IH. by apply hasTripleColon_cons in H as [_ ?].
Qed.

Lemma dropString_add a b s :
  dropString (a + b) s = dropString b (dropString a s).
Proof.
  revert s. induction a as [|a IH]; intros s; [done|].
  destruct s as [|c rest]; cbn [Nat.add dropString]; [by destruct b|apply IH].
Qed.

Lemma flagRun_colon rest : flagRun (String ":" rest) = 0.
Proof. reflexivity. Qed.

Lemma flagRun_pos_head c rest :
  0 < flagRun (String c rest) →
  isFlagChar c = true ∧ c ≠ ":"%char
  ∧ flagRun (String c rest) = S (flagRun rest).
Proof.
  cbn [flagRun]. destruct (isFlagChar c) eqn:Hc; [|lia].
  intros _. repeat split. by intros ->.
Qed.

(** What follows a match does not begin with a colon. *)
Lemma after_match_no_colon s len :
  hasTripleColon s = false → matchLength s = Some len →
  startsWith (dropString len s) ":" = false.
Proof.
  intros Htri (t & -> & _ & Hend & ->)%matchLength_Some.
  apply (hasTripleColon_drop (2 + flagRun t)) in Htri.
  replace (flagRun t + 4) with ((2 + flagRun t) + 2) by lia.
  rewrite dropString_add.
  change (dropString (2 + flagRun t) (String ":" (String ":" t)))
    with (dropString (flagRun t) t) in *.
  apply startsWith_colon2 in Hend as [u Hu]. rewrite Hu in *.
  cbn [dropString]. apply hasTripleColon_cons in Htri as [Htri _].
  destruct u as [|d u]; [done|]. cbn in Htri |- *.
  by rewrite andb_true_r in *.
Qed.

(** The result begins with a colon only if the input does, with that colon
    kept by the scan. *)
Lemma replaceFrom_head_colon s :
  hasTripleColon s = false → startsWith (replaceFrom 0 s) ":" = true →
  ∃ rest, s = String ":" rest ∧ matchLength s = None
          ∧ replaceFrom 0 s = String ":" (replaceFrom 0 rest).
Proof.
  intros Htri Hout. destruct s as [|c rest]; [done|].
  destruct (matchLength (String c rest)) as [len|] eqn:Hm.
  - exfalso. pose proof (after_match_no_colon _ _ Htri Hm) as Hnext.
    rewrite (replaceFrom_match _ _ Hm) in Hout.
    destruct (dropString len (String c rest)) as [|d u]; [done|].
    assert (Hd : d ≠ ":"%char).
    { intros ->. done. }
    rewrite (replaceFrom_other _ _ Hd) in Hout.
    apply startsWith_colon in Hout as [? [= ? _]]. done.
  - rewrite (replaceFrom_no_match _ _ Hm) in Hout |- *.
    apply startsWith_colon in Hout as [? [= -> _]]. eauto.
Qed.

Lemma replaceFrom_head_colon2 s :
  hasTripleColon s = false → startsWith (replaceFrom 0 s) "::" = true →
  ∃ t, s = String ":" (String ":" t) ∧ matchLength s = None
       ∧ replaceFrom 0 s = String ":" (String ":" (replaceFrom 0 t)).
Proof.
  intros Htri Hout.
  destruct (startsWith_colon2 _ Hout) as [r Hr].
  destruct (replaceFrom_head_colon s Htri) as (s1 & -> & Hm & Hs).
  { by rewrite Hr. }
  rewrite Hs in Hr. injection Hr as Hr.
  apply hasTripleColon_cons in Htri as [_ Htri1].
  destruct (replaceFrom_head_colon s1 Htri1) as (t & -> & _ & Hs1).
  { by rewrite Hr. }
  exists t. by rewrite Hs, Hs1.
Qed.

(** If the result of a text that does not begin with a colon begins with a
    run of flag characters closed by two colons, so does the text. *)
Lemma replaceFrom_flag_run t :
  hasTripleColon t = false → startsWith t ":" = false →
  0 < flagRun (replaceFrom 0 t) →
  startsWith (dropString (flagRun (replaceFrom 0 t)) (replaceFrom 0 t)) "::"
  = true →
  0 < flagRun t ∧ startsWith (dropString (flagRun t) t) "::" = true.
Proof.
  induction t as [|c t' IH]; intros Htri Hhead Hrun Hend; [simpl in Hrun; lia|].
  assert (Hc : c ≠ ":"%char) by (by intros ->).
  rewrite (replaceFrom_other _ _ Hc) in Hrun, Hend.
  destruct (flagRun_pos_head _ _ Hrun) as (Hflag & _ & Hlen).
  rewrite Hlen in Hend. cbn [dropString] in Hend.
  apply hasTripleColon_cons in Htri as [_ Htri'].
  assert (Ht : flagRun (String c t') = S (flagRun t')).
  { cbn [flagRun]. by rewrite Hflag. }
  rewrite Ht. cbn [dropString]. split; [lia|].
  destruct (startsWith t' ":") eqn:Hhead'.
  - apply startsWith_colon in Hhead' as [t'' ->]. rewrite flagRun_colon.
    cbn [dropString].
    destruct (matchLength (String ":" t'')) as [len|] eqn:Hm.
    + destruct (matchLength_Some _ _ Hm) as (u & [= ->] & _). done.
    + rewrite (replaceFrom_no_match _ _ Hm) in Hend.
      rewrite flagRun_colon in Hend. cbn [dropString] in Hend.
      destruct (replaceFrom_head_colon2 (String ":" t'') Htri') as (u & [= ->] & _).
      { by rewrite (replaceFrom_no_match _ _ Hm). }
      done.
  - destruct (flagRun (replaceFrom 0 t')) as [|m] eqn:Hrun'.
    + cbn [dropString] in Hend.
      destruct (replaceFrom_head_colon2 t' Htri' Hend) as (u & -> & _). done.
    + apply IH; [done|done|lia|done].
Qed.

(** The result does not begin with a match. *)
Lemma replaceFrom_no_match_at_head s :
  hasTripleColon s = false → matchLength (replaceFrom 0 s) = None.
Proof.
  intros Htri. destruct (matchLength (replaceFrom 0 s)) as [len|] eqn:Hm; [|done].
  exfalso. destruct (matchLength_Some _ _ Hm) as (r & Hr & Hpos & Hend & _).
  destruct (replaceFrom_head_colon2 s Htri) as (t & -> & Hnone & Hs).
  { by rewrite Hr. }
  rewrite Hs in Hr. injection Hr as <-.
  apply hasTripleColon_cons in Htri as [Hstart [_ Htri]%hasTripleColon_cons].
  assert (Hhead : startsWith t ":" = false).
  { destruct t as [|d t]; [done|]. cbn in Hstart |- *.
    by rewrite andb_true_r in *. }
  destruct (replaceFrom_flag_run t Htri Hhead Hpos Hend) as [Hpos' Hend'].
  rewrite matchLength_colon2, Hend' in Hnone.
  apply Nat.ltb_lt in Hpos'. by rewrite Hpos' in Hnone.
Qed.

Lemma replaceFrom_flag_free s k :
  hasTripleColon s = false → containsFlag (replaceFrom k s) = false.
Proof.
  revert k. induction s as [|c rest IH]; intros k Htri.
  - by destruct k.
  - pose proof (hasTripleColon_cons _ _ Htri) as [_ Hrest].
    destruct k as [|k]; [|by apply IH].
    pose proof (replaceFrom_no_match_at_head _ Htri) as Hhead.
    rewrite replaceFrom_unfold in Hhead |- *.
    destruct (matchLength (String c rest)) as [[|len]|].
    + cbn [containsFlag]. rewrite Hhead. by apply IH.
    + by apply IH.
    + cbn [containsFlag]. rewrite Hhead. by apply IH.
Qed.
End strip_without_triple_colon.


Section strip_tree.

Lemma visitNode_parent kind children lastIndex :
  visitNode (MdParent kind children) lastIndex
  = (MdParent kind (visitNodes children lastIndex).1,
     (visitNodes children lastIndex).2).
Proof.
  change (visitNode (MdParent kind children) lastIndex)
    with (let '(children', lastIndex') := visitNodes children lastIndex in
          (MdParent kind children', lastIndex')).
  by destruct (visitNodes children lastIndex).
Qed.

Lemma visitNodes_scan (nodes : list MdNode) :
  Forall (fun n => visitNode n 0 = (mapText (replaceFrom 0) n, 0)) nodes →
  visitNodes nodes 0 = (List.map (mapText (replaceFrom 0)) nodes, 0).
Proof.
  induction 1 as [|n rest Hn _ IH]; [done|].
  cbn [visitNodes List.map]. by rewrite Hn, IH.
Qed.

(** With [lastIndex] at 0 on entry, a node comes out with every text value
    scanned once, and [lastIndex] is back at 0. *)
Lemma visitNode_scan (node : MdNode) :
  visitNode node 0 = (mapText (replaceFrom 0) node, 0).
Proof.
  induction node as [value|kind value|kind children IH]
    using MdNode_nested_ind.
  - cbn [visitNode mapText]. by rewrite stripVisitor_scan.
  - done.
  - rewrite visitNode_parent, (visitNodes_scan _ IH). done.
Qed.

Lemma textValues_mapText f (node : MdNode) :
  textValues (mapText f node) = List.map f (textValues node).
Proof.
  induction node as [value|kind value|kind children IH]
    using MdNode_nested_ind; [done|done|].
  cbn [mapText textValues].
  induction IH as [|n rest Hn _ IHrest]; [done|].
  cbn [List.map flat_map]. by rewrite Hn, IHrest, List.map_app.
Qed.

Lemma transformer_scan (tree : MdRoot) :
  transformer tree 0
  = ({| root_children :=
          List.map (mapText (replaceFrom 0)) (root_children tree) |}, 0).
Proof.
  unfold transformer. rewrite visitNodes_scan; [done|].
  apply Forall_forall. intros n _. apply visitNode_scan.
Qed.

Lemma rootTextValues_transformer (tree : MdRoot) :
  rootTextValues (transformer tree 0).1
  = List.map (replaceFrom 0) (rootTextValues tree).
Proof.
  rewrite transformer_scan. unfold rootTextValues. cbn [fst root_children].
  induction (root_children tree) as [|n rest IH]; [done|].
  cbn [List.map flat_map]. by rewrite textValues_mapText, IH, List.map_app.
Qed.
End strip_tree.

(** C8, refuted as stated: deleting the first flag of [:::a:::b::] joins the
    colon before it with the text after it, and the text node of the
    resulting tree holds the flag [::b::]. *)
Lemma strip_pass_counterexample :
  rootTextValues
    (transformer
       {| root_children := [MdParent "paragraph" [MdText ":::a:::b::"]] |} 0).1
  = ["::b::"]
  ∧ containsFlag "::b::" = true.
Proof. by vm_compute. Qed.

(** C8, amended. Started with [lastIndex] at 0, the pass keeps the shape of
    the tree, leaves [lastIndex] at 0 and replaces the value of every text
    node by the result of one left-to-right scan that deletes each match it
    meets and goes on after it; a value without a match is unchanged; and
    when a value has no three colons in a row, the result of the scan
    contains no match at all. *)
Theorem strip_pass_single_scan (tree : MdRoot) :
  transformer tree 0
  = ({| root_children :=
          List.map (mapText (replaceFrom 0)) (root_children tree) |}, 0)
  ∧ rootTextValues (transformer tree 0).1
    = List.map (replaceFrom 0) (rootTextValues tree)
  ∧ (∀ s len, matchLength s = Some len →
              replaceFrom 0 s = replaceFrom 0 (dropString len s))
  ∧ (∀ c rest, matchLength (String c rest) = None →
               replaceFrom 0 (String c rest) = String c (replaceFrom 0 rest))
  ∧ (∀ s, containsFlag s = false → replaceFrom 0 s = s)
  ∧ ((∀ v, In v (rootTextValues tree) → hasTripleColon v = false) →
     ∀ v', In v' (rootTextValues (transformer tree 0).1) →
           containsFlag v' = false).
Proof.
  split; [apply transformer_scan|].
  split; [apply rootTextValues_transformer|].
  split; [apply replaceFrom_match|].
  split; [apply replaceFrom_no_match|].
  split; [apply replaceFrom_unchanged|].
  intros Htri v'. rewrite rootTextValues_transformer.
  intros (v & <- & Hv)%in_map_iff. apply replaceFrom_flag_free. by apply Htri.
Qed.

Lemma strip_pass_single_scan_witness :
  (∀ v, In v (rootTextValues
                {| root_children :=
                     [MdParent "paragraph"
                        [MdText "See ::cl-naive:: and ";
                         MdLiteral "inlineCode" "::keep::";
                         MdText "::a:: ::b_2:: end"]] |}) →
        hasTripleColon v = false)
  ∧ (∀ v', In v' (rootTextValues
                    (transformer
                       {| root_children :=
                            [MdParent "paragraph"
                               [MdText "See ::cl-naive:: and ";
                                MdLiteral "inlineCode" "::keep::";
                                MdText "::a:: ::b_2:: end"]] |} 0).1) →
           containsFlag v' = false).
Proof.
  assert (Htri : ∀ v, In v (rootTextValues
                {| root_children :=
                     [MdParent "paragraph"
                        [MdText "See ::cl-naive:: and ";
                         MdLiteral "inlineCode" "::keep::";
                         MdText "::a:: ::b_2:: end"]] |}) →
        hasTripleColon v = false).
  { intros v [<-|[<-|[]]]; reflexivity. }
  split; [exact Htri|].
  exact (proj2 (proj2 (proj2 (proj2 (proj2
           (strip_pass_single_scan _))))) Htri).
Defined.

(** ** The branch-candidate loop of the tree fetcher *)

Section tree_fetch_facts.
Variable gql rest : string → Result (list RawEntry).

Lemma branchCandidates_cases configured :
  (configured = "" ∨ configured = "master" ∨ configured = "main")
  ∧ branchCandidates configured = ["master"; "main"]
  ∨ (configured ≠ "" ∧ configured ≠ "master" ∧ configured ≠ "main")
    ∧ branchCandidates configured = ["master"; "main"; configured].
Proof.
  unfold branchCandidates.
  destruct configured as [|c cs]; [left; split; [by left|done]|].
  cbn [List.filter truthy arrayFromSet hasString existsb].
  change (String.eqb "main" "master") with false.
  change (false || false) with false. cbn [orb].
  destruct (String.eqb_spec (String c cs) "main") as [->|Hmain].
  - left. split; [by right; right|done].
  - destruct (String.eqb_spec (String c cs) "master") as [->|Hmaster].
    + left. split; [by right; left|done].
    + right. split; [done|]. cbn [orb]. done.
Qed.

Lemma branchCandidates_NoDup configured : NoDup (branchCandidates configured).
Proof.
  destruct (branchCandidates_cases configured)
    as [[_ ->]|[(_ & Hmaster & Hmain) ->]].
  - apply NoDup_cons. split; [|apply NoDup_singleton].
    by intros ?%list_elem_of_singleton.
  - apply NoDup_cons. split.
    + intros [?|[?|?%elem_of_nil]%elem_of_cons]%elem_of_cons; done.
    + apply NoDup_cons. split; [|apply NoDup_singleton].
      intros ?%list_elem_of_singleton. done.
Qed.

Lemma networkCalls_app l k :
  networkCalls (l ++ k) = networkCalls l ++ networkCalls k.
Proof. apply List.filter_app. Qed.

Lemma networkCalls_warn1 (logged : bool) :
  networkCalls (if logged then [] else [WarnGraphQL]) = [].
Proof. by destruct logged. Qed.

Lemma networkCalls_warn2 (logged : bool) :
  networkCalls (if logged then [] else [WarnREST]) = [].
Proof. by destruct logged. Qed.

Lemma In_networkCalls e events :
  In e events → isCall e = true → In e (networkCalls events).
Proof. intros. apply filter_In. done. Qed.

Lemma In_bothCalls_graphql b l :
  In (CallGraphQL b) (flat_map bothCalls l) → In b l.
Proof.
  rewrite in_flat_map. intros (b' & Hin & [[= ->]|[[=]|[]]]). done.
Qed.

Lemma In_bothCalls_rest b l :
  In (CallREST b) (flat_map bothCalls l) → In b l.
Proof.
  rewrite in_flat_map. intros (b' & Hin & [[=]|[[= ->]|[]]]). done.
Qed.

Lemma branchLoop_stops candidates lastError0 st :
  NoDup candidates →
  StopsAtFirstSuccess gql rest candidates
    (branchLoop gql rest candidates lastError0 st).
Proof.
  revert lastError0 st.
  induction candidates as [|branch cands IH]; intros lastError0 st Hnd.
  - left. split; [done|]. split; [|done]. intros b [].
  - apply NoDup_cons in Hnd as [Hfresh Hnd].
    assert (Huntried : ∀ b', In b' cands → b' ≠ branch).
    { intros b' Hin ->. apply Hfresh. by apply list_elem_of_In. }
    cbn [branchLoop].
    destruct (gql branch) as [entries|graphqlError] eqn:Hgql.
    { right. exists [], branch, cands. cbn [fetchSucceeded loopState loopEvents].
      split; [done|]. split; [done|]. split; [done|].
      split; [intros ? []|]. split.
      - left. by rewrite Hgql.
      - intros b' Hin. pose proof (Huntried b' Hin).
        split; intros [[= ?]|[]]; done. }
    destruct (rest branch) as [entries|restError] eqn:Hrest.
    { right. exists [], branch, cands. cbn [fetchSucceeded loopState loopEvents].
      split; [done|]. split; [done|]. split; [done|].
      split; [intros ? []|]. split.
      - right. rewrite Hgql, Hrest. split; [done|]. split; [done|].
        rewrite !networkCalls_app, networkCalls_warn1. done.
      - intros b' Hin. pose proof (Huntried b' Hin).
        split; intros Hev%In_networkCalls; try done;
          rewrite !networkCalls_app, networkCalls_warn1 in Hev;
          destruct Hev as [[= ?]|[[= ?]|[]]]; done. }
    cbn [fetchSucceeded loopState loopEvents].
    match goal with
    | |- context [branchLoop gql rest cands ?e ?s] =>
        specialize (IH e s Hnd); set (out := branchLoop gql rest cands e s) in *
    end.
    clearbody out.
    assert (Hcalls : networkCalls
              ([CallGraphQL branch]
               ++ (if graphQlWarningLogged st then [] else [WarnGraphQL])
               ++ [CallREST branch]
               ++ (if restWarningLogged st then [] else [WarnREST])
               ++ loopEvents out)
            = bothCalls branch ++ networkCalls (loopEvents out)).
    { rewrite !networkCalls_app, networkCalls_warn1, networkCalls_warn2. done. }
    unfold StopsAtFirstSuccess in IH |- *.
    cbn [fetchSucceeded loopState loopEvents restWarningLogged].
    destruct IH as [(Hfail & Hall & Hev)
                   |(failed & b & untried & -> & Hok & Hb & Hall & Hev & Hun)].
    + left. split; [done|]. split.
      * intros b [<-|Hin]; [by rewrite Hgql, Hrest|by apply Hall].
      * rewrite Hcalls, Hev. done.
    + right. exists (branch :: failed), b, untried.
      split; [done|]. split; [done|]. split; [done|]. split.
      { intros b' [<-|Hin]; [by rewrite Hgql, Hrest|by apply Hall]. }
      split.
      { rewrite Hcalls. destruct Hev as [[? ->]|(? & ? & ->)]; [left|right]; done. }
      intros b' Hin. destruct (Hun b' Hin) as [Hg Hr].
      assert (b' ≠ branch).
      { apply Huntried. apply in_or_app. right. by right. }
      split; intros Hev'%In_networkCalls; try done; rewrite Hcalls in Hev';
        (destruct Hev' as [[= ?]|[[= ?]|Hev']]; [done..|]);
        apply filter_In in Hev' as [? _]; done.
Qed.
End tree_fetch_facts.

Example tree_fetch_rest_on_main :
  let out := fetchTreeLoop graphqlRefused restOnMain
               {| BRANCH := "develop"; graphQlWarningLogged := false;
                  restWarningLogged := false |} in
  loopEvents out
  = [CallGraphQL "master"; WarnGraphQL; CallREST "master"; WarnREST;
     CallGraphQL "main"; CallREST "main"]
  ∧ fetchSucceeded out = true
  ∧ BRANCH (loopState out) = "main".
Proof. by vm_compute. Qed.

(** C5. The candidates are [master], [main] and the configured branch, each
    once and in that order; every candidate is tried with GraphQL and, when
    that fails, once with REST; the loop stops at the first candidate for
    which either call succeeds, and the candidates after it are not tried. *)
Theorem tree_fetch_stops_at_first_success
    (fetchGithubTree fetchGithubTreeREST : string → Result (list RawEntry))
    (st : TreeFetchState) :
  ((BRANCH st = "" ∨ BRANCH st = "master" ∨ BRANCH st = "main")
   ∧ branchCandidates (BRANCH st) = ["master"; "main"]
   ∨ (BRANCH st ≠ "" ∧ BRANCH st ≠ "master" ∧ BRANCH st ≠ "main")
     ∧ branchCandidates (BRANCH st) = ["master"; "main"; BRANCH st])
  ∧ StopsAtFirstSuccess fetchGithubTree fetchGithubTreeREST
      (branchCandidates (BRANCH st))
      (fetchTreeLoop fetchGithubTree fetchGithubTreeREST st).
Proof.
  split; [apply branchCandidates_cases|].
  apply branchLoop_stops, branchCandidates_NoDup.
Qed.

(** ** The knowledge tree *)

(** The scenario of the specification: the listing of [weaves], with
    [weaves] as the scope root. *)
Example build_scenario :
  buildKnowledgeTreeUnder ["weaves"]
    [blob "weaves/a/one.md"; blob "weaves/a/sub/two.md";
     blob "weaves/b/readme.txt"]
  = [mkNode "a" "weaves/a" TypeDir
       (Some [mkNode "one.md" "weaves/a/one.md" TypeFile None 1 Strand;
              mkNode "sub" "weaves/a/sub" TypeDir
                (Some [mkNode "two.md" "weaves/a/sub/two.md" TypeFile None 1
                         Strand])
                1 Loom])
       2 Weave;
     mkNode "b" "weaves/b" TypeDir
       (Some [mkNode "readme.txt" "weaves/b/readme.txt" TypeFile None 0
                Folder])
       0 Weave].
Proof. reflexivity. Qed.

(** Without a scope root: a file directly under the root is a folder, and
    empty segments are dropped. *)
Example build_unscoped :
  buildKnowledgeTree [blob "README.md"; tree "docs"; blob "/docs//x.MDX"]
  = [mkNode "README.md" "README.md" TypeFile None 1 Folder;
     mkNode "docs" "docs" TypeDir
       (Some [mkNode "x.MDX" "docs/x.MDX" TypeFile None 1 Strand]) 1 Weave].
Proof. reflexivity. Qed.

Example build_unscoped_is_empty_scope (items : list GitTreeItem) :
  buildKnowledgeTreeUnder [] items = buildKnowledgeTree items.
Proof. reflexivity. Qed.



Section forest_facts.
Variable P : nat → KnowledgeTreeNode → Prop.
Implicit Types (n : KnowledgeTreeNode) (nodes : list KnowledgeTreeNode).

Lemma nodesAt_unfold depth n :
  nodesAt depth n = (depth, n) :: flat_map (nodesAt (S depth)) (childrenOf n).
Proof. destruct n as [? ? ? [cs|] ? ?]; reflexivity. Qed.

Lemma ForestAll_nil depth : ForestAll P depth [].
Proof. intros d n []. Qed.

Lemma ForestAll_cons depth n nodes :
  ForestAll P depth (n :: nodes)
  ↔ P depth n ∧ ForestAll P (S depth) (childrenOf n) ∧ ForestAll P depth nodes.
Proof.
  unfold ForestAll. cbn [flat_map]. rewrite nodesAt_unfold. split.
  - intros H. split; [|split].
    + apply H. by left.
    + intros d m Hin. apply H. right. apply in_or_app. by left.
    + intros d m Hin. apply H. right. apply in_or_app. by right.
  - intros (Hn & Hch & Hrest) d m [[= <- <-]|[Hin|Hin]%in_app_or]; auto.
Qed.

Lemma ForestAll_upsertChild depth name f nodes :
  ForestAll P depth nodes →
  (P depth (f None) ∧ ForestAll P (S depth) (childrenOf (f None))) →
  (∀ n, P depth n → ForestAll P (S depth) (childrenOf n) →
        P depth (f (Some n)) ∧ ForestAll P (S depth) (childrenOf (f (Some n)))) →
  ForestAll P depth (upsertChild name f nodes).
Proof.
  intros Hall [Hnew Hnew'] Hupd. induction nodes as [|n rest IH].
  - cbn [upsertChild]. apply ForestAll_cons. auto using ForestAll_nil.
  - apply ForestAll_cons in Hall as (Hn & Hch & Hrest). cbn [upsertChild].
    destruct (String.eqb (node_name n) name).
    + apply ForestAll_cons. destruct (Hupd n Hn Hch). auto.
    + apply ForestAll_cons. auto.
Qed.
End forest_facts.

Section insertion_invariant.
Implicit Types (n : KnowledgeTreeNode) (nodes : list KnowledgeTreeNode).

Lemma childrenOf_leafNode depth name path type n :
  childrenOf (leafNode depth name path type (Some n)) = childrenOf n.
Proof.
  unfold leafNode, childrenOf. cbn [node_children].
  destruct (node_children n); [done|]. by destruct type.
Qed.

Lemma childrenOf_leafNode_None depth name path type :
  childrenOf (leafNode depth name path type None) = [].
Proof. by destruct type. Qed.

Lemma NodeInv_leafNode depth name path type existing :
  NodeInv depth (leafNode depth name path type existing).
Proof.
  unfold NodeInv, leafNode.
  cbn [node_type strandCount node_name node_level]. split; [|done].
  intros ->. unfold nodeKind. by destruct (isMarkdownFile name).
Qed.

Lemma NodeInv_withChildren depth n nodes :
  NodeInv depth n → NodeInv depth (withChildren n nodes).
Proof. by destruct n. Qed.

Lemma childrenOf_withChildren n nodes : childrenOf (withChildren n nodes) = nodes.
Proof. by destruct n. Qed.

Lemma NodeInv_newDirectory depth name path :
  NodeInv depth (newDirectory depth name path).
Proof. split; [done|]. done. Qed.

Lemma insertSegments_inv segments depth parentPath type nodes :
  ForestAll NodeInv (S depth) nodes →
  ForestAll NodeInv (S depth)
    (insertSegments depth parentPath segments type nodes).
Proof.
  revert depth parentPath nodes.
  induction segments as [|name rest IH]; intros depth parentPath nodes Hall;
    [done|].
  cbn [insertSegments]. destruct rest as [|next rest].
  - apply ForestAll_upsertChild; [done| |].
    + split; [apply NodeInv_leafNode|].
      rewrite childrenOf_leafNode_None. apply ForestAll_nil.
    + intros n _ Hch. split; [apply NodeInv_leafNode|].
      by rewrite childrenOf_leafNode.
  - apply ForestAll_upsertChild; [done| |].
    + split; [apply NodeInv_withChildren, NodeInv_newDirectory|].
      rewrite childrenOf_withChildren. apply IH. apply ForestAll_nil.
    + intros n Hn Hch. split; [by apply NodeInv_withChildren|].
      rewrite childrenOf_withChildren. by apply IH.
Qed.

Lemma insertItems_inv (items : list GitTreeItem) :
  ForestAll NodeInv 1 (foldl insertItem [] items).
Proof.
  induction items as [|item items IH] using rev_ind.
  - apply ForestAll_nil.
  - rewrite foldl_app. cbn [foldl]. by apply insertSegments_inv.
Qed.

(** The counting pass visits every node and changes nothing but counts. *)
Lemma nodesAt_countStrands depth n :
  nodesAt depth (countStrands n)
  = List.map (fun dn => (dn.1, countStrands dn.2)) (nodesAt depth n).
Proof.
  revert depth.
  induction n as [name path type children count level IH]
    using KnowledgeTreeNode_nested_ind.
  intros depth. cbn [countStrands nodesAt node_children List.map fst snd].
  f_equal. destruct children as [nodes|]; [|done].
  induction IH as [|m rest Hm _ IHrest]; [done|].
  cbn [List.map flat_map]. by rewrite Hm, IHrest, List.map_app.
Qed.

Lemma forestNodes_countStrands depth nodes d n :
  In (d, n) (flat_map (nodesAt depth) (List.map countStrands nodes)) →
  ∃ m, n = countStrands m ∧ In (d, m) (flat_map (nodesAt depth) nodes).
Proof.
  rewrite !in_flat_map. intros (r & (r0 & <- & Hr0)%in_map_iff & Hin).
  rewrite nodesAt_countStrands in Hin.
  apply in_map_iff in Hin as ([d' m] & [= <- <-] & Hm).
  exists m. split; [done|]. apply in_flat_map. exists r0. done.
Qed.

Lemma countStrands_attributes n :
  node_name (countStrands n) = node_name n
  ∧ node_path (countStrands n) = node_path n
  ∧ node_type (countStrands n) = node_type n
  ∧ node_level (countStrands n) = node_level n.
Proof. by destruct n. Qed.

Lemma countStrands_file n :
  node_type n = TypeFile → strandCount (countStrands n) = strandCount n.
Proof. destruct n as [? ? [] ? ? ?]; by cbn. Qed.

Lemma sumStrandCounts_sum_list nodes :
  sumStrandCounts nodes = sum_list (strandCount <$> nodes).
Proof.
  unfold sumStrandCounts.
  assert (Hacc : ∀ acc,
            foldl (fun sum node => sum + strandCount node) acc nodes
            = acc + sum_list (strandCount <$> nodes)).
  { induction nodes as [|n rest IH]; intros acc; cbn [foldl].
    - cbn. lia.
    - rewrite IH. cbn. lia. }
  apply Hacc.
Qed.

Lemma countStrands_dir n :
  node_type n = TypeDir →
  strandCount (countStrands n)
  = sum_list (strandCount <$> childrenOf (countStrands n)).
Proof.
  rewrite <-sumStrandCounts_sum_list.
  destruct n as [? ? [] [cs|] ? ?]; by cbn.
Qed.
End insertion_invariant.

(** C1. In every tree the builder returns, the strand count of a directory
    node is the sum of the strand counts of its children, and the strand
    count of a file node is 0 or 1, being 1 exactly when the name of the file
    has a markdown extension. *)
Theorem strand_counts_consistent (items : list GitTreeItem) (depth : nat)
    (n : KnowledgeTreeNode) :
  In (depth, n) (forestNodes (buildKnowledgeTree items)) →
  (node_type n = TypeDir →
   strandCount n = sum_list (strandCount <$> childrenOf n))
  ∧ (node_type n = TypeFile →
     (strandCount n = 0 ∨ strandCount n = 1)
     ∧ (strandCount n = 1 ↔ isMarkdownFile (node_name n) = true)).
Proof.
  intros (m & -> & Hm)%forestNodes_countStrands.
  destruct (insertItems_inv items _ _ Hm) as [Hfile _].
  destruct (countStrands_attributes m) as (Hname & _ & Htype & _).
  rewrite Hname, Htype. split.
  - apply countStrands_dir.
  - intros Hty. rewrite (countStrands_file _ Hty), (Hfile Hty).
    destruct (isMarkdownFile (node_name m)); split; auto; split; done.
Qed.

Lemma strand_counts_consistent_witness :
  In (1, mkNode "a" "a" TypeDir
           (Some [mkNode "one.md" "a/one.md" TypeFile None 1 Strand;
                  mkNode "notes.txt" "a/notes.txt" TypeFile None 0 Folder])
           1 Weave)
     (forestNodes (buildKnowledgeTree [blob "a/one.md"; blob "a/notes.txt"]))
  ∧ strandCount
      (mkNode "a" "a" TypeDir
         (Some [mkNode "one.md" "a/one.md" TypeFile None 1 Strand;
                mkNode "notes.txt" "a/notes.txt" TypeFile None 0 Folder])
         1 Weave)
    = sum_list
        (strandCount
           <$> [mkNode "one.md" "a/one.md" TypeFile None 1 Strand;
                mkNode "notes.txt" "a/notes.txt" TypeFile None 0 Folder]).
Proof.
  assert (Hin : In (1, mkNode "a" "a" TypeDir
           (Some [mkNode "one.md" "a/one.md" TypeFile None 1 Strand;
                  mkNode "notes.txt" "a/notes.txt" TypeFile None 0 Folder])
           1 Weave)
     (forestNodes (buildKnowledgeTree [blob "a/one.md"; blob "a/notes.txt"]))).
  { left. reflexivity. }
  split; [exact Hin|].
  exact (proj1 (strand_counts_consistent _ _ _ Hin) eq_refl).
Defined.

Section node_lookup.
Implicit Types (n : KnowledgeTreeNode) (nodes : list KnowledgeTreeNode).












End node_lookup.

(** * Further properties *)

(** ** The cache module *)

(** X1. Storing under one path leaves every other path as it was, and
    clearing the cache makes every lookup answer null and the statistics
    zero. *)
Theorem cache_set_frame_and_clear (mc : MemoryCache) (now p c q : string) :
  q ≠ p →
  getCachedStrand (setCachedStrand now p c mc) q = getCachedStrand mc q
  ∧ getCachedStrand (clearCodexCache mc) q = None
  ∧ getCodexCacheStats (clearCodexCache mc)
    = {| totalItems := 0; totalBytes := 0 |}.
Proof.
  intros Hne. split; [|split].
  - unfold getCachedStrand, setCachedStrand.
    destruct (truthy q); simpl; [|done].
    destruct (truthy p); simpl; [|done]. by rewrite lookup_insert_ne.
  - unfold getCachedStrand, clearCodexCache.
    destruct (truthy q); simpl; [|done]. by rewrite lookup_empty.
  - unfold getCodexCacheStats, clearCodexCache.
    by rewrite map_fold_empty, map_size_empty.
Qed.

Lemma cache_set_frame_and_clear_witness :
  "weaves/b.md" ≠ "weaves/a.md"
  ∧ getCachedStrand
      (setCachedStrand "t1" "weaves/a.md" "# A"
         (setCachedStrand "t0" "weaves/b.md" "# B" ∅)) "weaves/b.md"
    = Some "# B".
Proof.
  assert (Hne : "weaves/b.md" ≠ "weaves/a.md") by done.
  split; [exact Hne|].
  rewrite (proj1 (cache_set_frame_and_clear
                    (setCachedStrand "t0" "weaves/b.md" "# B" ∅)
                    "t1" "weaves/a.md" "# A" "weaves/b.md" Hne)).
  reflexivity.
Defined.

(** ** The file fetcher *)

Section fetch_file_facts.
Variable cacheGet : string → Result (option string).
Variable cacheSet : string → string → Result unit.
Variable fetch : string → Result Response.
Variable currentPath : string.

(** Every way through the [try] block. *)
Lemma fetchFileContentTry_cases (file : GitHubFile) (url : string) :
  (∃ e, cacheGet (file_path file) = Throw e
        ∧ fetchFileContentTry cacheGet cacheSet fetch currentPath file url
          = ([CacheLookup (file_path file)], Some e))
  ∨ (∃ c, cacheGet (file_path file) = Ok (Some c) ∧ c ≠ ""
          ∧ fetchFileContentTry cacheGet cacheSet fetch currentPath file url
            = ([CacheLookup (file_path file)] ++ shownEvents currentPath file c, None))
  ∨ ((cacheGet (file_path file) = Ok None
      ∨ cacheGet (file_path file) = Ok (Some ""))
     ∧ ((∃ e, (fetch url = Throw e
               ∨ (∃ r, fetch url = Ok r ∧ ok r = false
                       ∧ e = ErrorObject
                               ("Failed to fetch file: " +:+ statusText r))
               ∨ (∃ r, fetch url = Ok r ∧ ok r = true ∧ text r = Throw e))
              ∧ fetchFileContentTry cacheGet cacheSet fetch currentPath file url
                = ([CacheLookup (file_path file); NetworkFetch url], Some e))
        ∨ (∃ r c, fetch url = Ok r ∧ ok r = true ∧ text r = Ok c
                  ∧ ((∃ e, cacheSet (file_path file) c = Throw e
                           ∧ fetchFileContentTry cacheGet cacheSet fetch
                               currentPath file url
                             = ([CacheLookup (file_path file);
                                 NetworkFetch url;
                                 CacheStore (file_path file) c], Some e))
                     ∨ (∃ u, cacheSet (file_path file) c = Ok u
                             ∧ fetchFileContentTry cacheGet cacheSet fetch
                                 currentPath file url
                               = ([CacheLookup (file_path file);
                                   NetworkFetch url;
                                   CacheStore (file_path file) c]
                                  ++ shownEvents currentPath file c, None)))))).
Proof.
  unfold fetchFileContentTry, shownEvents.
  destruct (cacheGet (file_path file)) as [[c|]|e]; [| |left; eauto].
  - destruct c as [|a c]; cbn [truthy].
    + right. right. split; [by right|].
      destruct (fetch url) as [r|e]; [|left; eauto].
      destruct (ok r) eqn:Hok; cbn [negb]; [|left; eauto 10].
      destruct (text r) as [c|e] eqn:Htext; [|left; eauto 10].
      right. exists r, c. split; [done|]. split; [done|]. split; [done|].
      destruct (cacheSet (file_path file) c) as [u|e]; [right|left]; eauto.
    + right. left. exists (String a c). done.
  - right. right. split; [by left|].
    destruct (fetch url) as [r|e]; [|left; eauto].
    destruct (ok r) eqn:Hok; cbn [negb]; [|left; eauto 10].
    destruct (text r) as [c|e] eqn:Htext; [|left; eauto 10].
    right. exists r, c. split; [done|]. split; [done|]. split; [done|].
    destruct (cacheSet (file_path file) c) as [u|e]; [right|left]; eauto.
Qed.
End fetch_file_facts.

Section fetch_file_outcomes.
Variable cacheGet : string → Result (option string).
Variable cacheSet : string → string → Result unit.
Variable fetch : string → Result Response.
Variable currentPath : string.

(** A call either does nothing, or brackets the [try] block between the
    loading flag going up and coming down. *)
Lemma fetchFileContent_shape (file : GitHubFile) :
  (fetchFileContent cacheGet cacheSet fetch currentPath file = []
   ∧ (file_type file = TypeDir ∨ file_download_url file = None
      ∨ file_download_url file = Some ""))
  ∨ (∃ url, file_type file = TypeFile ∧ file_download_url file = Some url
            ∧ url ≠ ""
            ∧ fetchFileContent cacheGet cacheSet fetch currentPath file
              = [SetLoading true; SetError None]
                ++ (fetchFileContentTry cacheGet cacheSet fetch currentPath
                      file url).1
                ++ match (fetchFileContentTry cacheGet cacheSet fetch
                            currentPath file url).2 with
                   | Some err => caughtEvents err
                   | None => []
                   end
                ++ [SetLoading false]).
Proof.
  unfold fetchFileContent.
  destruct (file_type file); [|left; split; [done|by left]].
  destruct (file_download_url file) as [url|];
    [|left; split; [done|by right; left]].
  destruct url as [|a url]; [left; split; [done|by right; right]|].
  right. exists (String a url). cbn [truthy].
  by destruct (fetchFileContentTry cacheGet cacheSet fetch currentPath file
                 (String a url)) as [events [err|]].
Qed.

Lemma shownEvents_content file c :
  In (SetFileContent c) (shownEvents currentPath file c)
  ∧ existsb isErrorState (shownEvents currentPath file c) = false
  ∧ existsb isCacheStore (shownEvents currentPath file c) = false
  ∧ existsb isNetworkFetch (shownEvents currentPath file c) = false.
Proof.
  unfold shownEvents. split; [by left|].
  by destruct (isMarkdownFile (file_name file)).
Qed.
End fetch_file_outcomes.

(** X2. A call of the file fetcher either does nothing (a directory, or no
    download URL) or raises the loading flag, clears the error, and ends by
    lowering the loading flag; in between it either shows a content and sets
    no error, or sets an error and shows no content. *)
Theorem fetch_shows_content_or_error
    (cacheGet : string → Result (option string))
    (cacheSet : string → string → Result unit)
    (fetch : string → Result Response) (currentPath : string)
    (file : GitHubFile) :
  (fetchFileContent cacheGet cacheSet fetch currentPath file = []
   ∧ (file_type file = TypeDir ∨ file_download_url file = None
      ∨ file_download_url file = Some ""))
  ∨ (∃ middle,
       fetchFileContent cacheGet cacheSet fetch currentPath file
       = [SetLoading true; SetError None] ++ middle ++ [SetLoading false]
       ∧ ((∃ c, In (SetFileContent c) middle
                ∧ existsb isErrorState middle = false)
          ∨ (∃ message, In (SetError (Some message)) middle
                        ∧ existsb isSetFileContent middle = false))).
Proof.
  destruct (fetchFileContent_shape cacheGet cacheSet fetch currentPath file)
    as [?|(url & _ & _ & _ & ->)]; [by left|right].
  exists ((fetchFileContentTry cacheGet cacheSet fetch currentPath file url).1
          ++ match (fetchFileContentTry cacheGet cacheSet fetch currentPath
                      file url).2 with
             | Some err => caughtEvents err
             | None => []
             end).
  split; [cbn [app]; do 2 f_equal; by rewrite app_assoc|].
  destruct (fetchFileContentTry_cases cacheGet cacheSet fetch currentPath
              file url)
    as [(e & _ & ->)
       |[(c & _ & _ & ->)
        |(_ & [(e & _ & ->)
              |(r & c & _ & _ & _ & [(e & _ & ->)|(u & _ & ->)])])]];
    cbn [fst snd].
  - right. eexists. split; [cbn; auto|done].
  - left. exists c.
    destruct (shownEvents_content currentPath file c) as (Hin & Herr & _).
    split; [apply in_or_app; left; right; exact Hin|].
    rewrite app_nil_r. cbn [app existsb isErrorState orb]. exact Herr.
  - right. eexists. split; [cbn; auto|done].
  - right. eexists. split; [cbn; auto 6|done].
  - left. exists c.
    destruct (shownEvents_content currentPath file c) as (Hin & Herr & _).
    split; [apply in_or_app; left; do 3 right; exact Hin|].
    rewrite app_nil_r. cbn [app existsb isErrorState orb]. exact Herr.
Qed.

(** X3. The fetcher stores in the cache only under the file's own path and
    only the body of a response that arrived with [ok] set: a network
    failure, a non-OK status or an unreadable body is never cached. *)
Theorem fetch_caches_only_ok_bodies
    (cacheGet : string → Result (option string))
    (cacheSet : string → string → Result unit)
    (fetch : string → Result Response) (currentPath : string)
    (file : GitHubFile) (cacheKey c : string) :
  In (CacheStore cacheKey c)
     (fetchFileContent cacheGet cacheSet fetch currentPath file) →
  cacheKey = file_path file
  ∧ ∃ url r, file_download_url file = Some url ∧ fetch url = Ok r
             ∧ ok r = true ∧ text r = Ok c.
Proof.
  destruct (fetchFileContent_shape cacheGet cacheSet fetch currentPath file)
    as [[-> _]|(url & _ & Hurl & _ & ->)]; [done|].
  assert (Hshown : ∀ c', ¬ In (CacheStore cacheKey c)
                             (shownEvents currentPath file c')).
  { intros c' Hin. destruct (shownEvents_content currentPath file c')
      as (_ & _ & Hstore & _).
    apply not_true_iff_false in Hstore. apply Hstore.
    apply existsb_exists. by exists (CacheStore cacheKey c). }
  destruct (fetchFileContentTry_cases cacheGet cacheSet fetch currentPath
              file url)
    as [(e & _ & ->)
       |[(c' & _ & _ & ->)
        |(_ & [(e & _ & ->)
              |(r & c' & Hr & Hok & Htext
                & [(e & _ & ->)|(u & _ & ->)])])]];
    cbn [fst snd app caughtEvents]; intros Hin.
  - repeat (destruct Hin as [Hin|Hin]; [done|]). done.
  - do 3 (destruct Hin as [Hin|Hin]; [done|]).
    apply in_app_or in Hin as [Hin|[Hin|[]]]; [by apply Hshown in Hin|done].
  - repeat (destruct Hin as [Hin|Hin]; [done|]). done.
  - do 4 (destruct Hin as [Hin|Hin]; [done|]).
    destruct Hin as [[= <- <-]|Hin]; [by eauto 10|].
    repeat (destruct Hin as [Hin|Hin]; [done|]). done.
  - do 4 (destruct Hin as [Hin|Hin]; [done|]).
    destruct Hin as [[= <- <-]|Hin]; [by eauto 10|].
    apply in_app_or in Hin as [Hin|[Hin|[]]]; [by apply Hshown in Hin|done].
Qed.

Lemma fetch_caches_only_ok_bodies_witness :
  In (CacheStore "weaves/a/intro.md" "# Title")
     (fetchFileContent (memoryCacheGet ∅) memoryCacheSet workingFetch
        "weaves/a" downloadableFile)
  ∧ "weaves/a/intro.md" = file_path downloadableFile.
Proof.
  assert (Hin : In (CacheStore "weaves/a/intro.md" "# Title")
     (fetchFileContent (memoryCacheGet ∅) memoryCacheSet workingFetch
        "weaves/a" downloadableFile)).
  { vm_compute. auto 10. }
  split; [exact Hin|].
  exact (proj1 (fetch_caches_only_ok_bodies _ _ _ _ _ _ _ Hin)).
Defined.

(** X4. Viewing a file whose path is not cached fetches it from the network
    and stores the body; viewing it again is then served from the cache: no
    network request, the same content shown, and the cache left as it is.
    This needs a non-empty body and a non-empty path, since the cache
    ignores the empty path and an empty cached content counts as a miss. *)
Theorem view_again_is_served_from_cache
    (fetch : string → Result Response) (currentPath now1 now2 : string)
    (mc : MemoryCache) (file : GitHubFile) (url : string) (r : Response)
    (c : string) :
  file_type file = TypeFile →
  file_download_url file = Some url →
  url ≠ "" →
  file_path file ≠ "" →
  fetch url = Ok r → ok r = true → text r = Ok c → c ≠ "" →
  getCachedStrand mc (file_path file) = None →
  (viewFile fetch currentPath now1 mc file).1
  = [SetLoading true; SetError None; CacheLookup (file_path file);
     NetworkFetch url; CacheStore (file_path file) c]
    ++ shownEvents currentPath file c ++ [SetLoading false]
  ∧ getCachedStrand (viewFile fetch currentPath now1 mc file).2
                    (file_path file) = Some c
  ∧ (viewFile fetch currentPath now2
       (viewFile fetch currentPath now1 mc file).2 file).1
    = [SetLoading true; SetError None; CacheLookup (file_path file)]
      ++ shownEvents currentPath file c ++ [SetLoading false]
  ∧ (viewFile fetch currentPath now2
       (viewFile fetch currentPath now1 mc file).2 file).2
    = (viewFile fetch currentPath now1 mc file).2.
Proof.
  intros Hty Hurl Hne%truthy_nonempty Hpath Hfetch Hok Htext Hc Hmiss.
  assert (Hstores : ∀ now mc',
            applyCacheStores now (shownEvents currentPath file c
                                  ++ [SetLoading false]) mc' = mc').
  { intros now mc'. unfold shownEvents.
    by destruct (isMarkdownFile (file_name file)). }
  assert (Hfirst : (viewFile fetch currentPath now1 mc file).1
            = [SetLoading true; SetError None; CacheLookup (file_path file);
               NetworkFetch url; CacheStore (file_path file) c]
              ++ shownEvents currentPath file c ++ [SetLoading false]).
  { unfold viewFile, fetchFileContent, fetchFileContentTry, memoryCacheGet,
      memoryCacheSet. cbn [fst]. rewrite Hty, Hurl, Hne, Hmiss, Hfetch, Hok.
    cbn [negb]. rewrite Htext. unfold shownEvents. cbn [app].
    by rewrite <-!app_assoc. }
  assert (Hmc1 : (viewFile fetch currentPath now1 mc file).2
            = setCachedStrand now1 (file_path file) c mc).
  { unfold viewFile in Hfirst |- *. cbn [fst snd] in Hfirst |- *.
    rewrite Hfirst. unfold applyCacheStores. cbn [app foldl].
    apply (Hstores now1). }
  assert (Hhit : getCachedStrand
                   (setCachedStrand now1 (file_path file) c mc)
                   (file_path file) = Some c)
    by (by apply getCachedStrand_set).
  assert (Htruthy : truthy c = true) by (by apply truthy_nonempty).
  assert (Hsecond : (viewFile fetch currentPath now2
                       (setCachedStrand now1 (file_path file) c mc) file).1
            = [SetLoading true; SetError None; CacheLookup (file_path file)]
              ++ shownEvents currentPath file c ++ [SetLoading false]).
  { unfold viewFile, fetchFileContent, fetchFileContentTry, memoryCacheGet.
    cbn [fst]. rewrite Hty, Hurl, Hne, Hhit, Htruthy. unfold shownEvents.
    cbn [app]. by rewrite <-!app_assoc. }
  rewrite Hmc1. split; [done|]. split; [done|]. split; [done|].
  unfold viewFile in Hsecond |- *. cbn [fst snd] in Hsecond |- *.
  rewrite Hsecond. unfold applyCacheStores. cbn [app foldl].
  apply (Hstores now2).
Qed.

Lemma view_again_is_served_from_cache_witness :
  file_type downloadableFile = TypeFile
  ∧ file_download_url downloadableFile
    = Some "https://raw.example/weaves/a/intro.md"
  ∧ getCachedStrand ∅ (file_path downloadableFile) = None
  ∧ (viewFile workingFetch "weaves/a" "t2"
       (viewFile workingFetch "weaves/a" "t1" ∅ downloadableFile).2
       downloadableFile).1
    = [SetLoading true; SetError None; CacheLookup "weaves/a/intro.md"]
      ++ shownEvents "weaves/a" downloadableFile "# Title"
      ++ [SetLoading false].
Proof.
  assert (H1 : file_type downloadableFile = TypeFile) by reflexivity.
  assert (H2 : file_download_url downloadableFile
               = Some "https://raw.example/weaves/a/intro.md") by reflexivity.
  assert (H3 : "https://raw.example/weaves/a/intro.md" ≠ "") by done.
  assert (H4 : file_path downloadableFile ≠ "") by done.
  assert (H5 : workingFetch "https://raw.example/weaves/a/intro.md"
               = Ok {| ok := true; statusText := "OK"; text := Ok "# Title" |})
    by reflexivity.
  assert (H6 : "# Title" ≠ "") by done.
  assert (H7 : getCachedStrand ∅ (file_path downloadableFile) = None)
    by reflexivity.
  split; [exact H1|]. split; [exact H2|]. split; [exact H7|].
  exact (proj1 (proj2 (proj2
    (view_again_is_served_from_cache workingFetch "weaves/a" "t1" "t2" ∅
       downloadableFile _ _ "# Title" H1 H2 H3 H4 H5 eq_refl eq_refl H6 H7)))).
Defined.

(** ** The tree fetcher *)

Section tree_fetch_more.
Variable gql rest : string → Result (list RawEntry).

(** The loop succeeds exactly on the first candidate that works, with its
    entries, and records it as the configured branch. *)
Lemma branchLoop_first_working candidates lastError0 st :
  match List.find (branchWorks gql rest) candidates with
  | Some b =>
      fetchSucceeded (branchLoop gql rest candidates lastError0 st) = true
      ∧ BRANCH (loopState (branchLoop gql rest candidates lastError0 st)) = b
      ∧ rawEntries (branchLoop gql rest candidates lastError0 st)
        = branchEntries gql rest b
  | None =>
      fetchSucceeded (branchLoop gql rest candidates lastError0 st) = false
      ∧ BRANCH (loopState (branchLoop gql rest candidates lastError0 st))
        = BRANCH st
      ∧ lastError (branchLoop gql rest candidates lastError0 st)
        = match last candidates with
          | Some b =>
              match rest b with Throw e => Some e | Ok _ => None end
          | None => lastError0
          end
  end.
Proof.
  revert lastError0 st.
  induction candidates as [|branch cands IH]; intros lastError0 st; [done|].
  cbn [List.find branchLoop]. unfold branchWorks at 1, branchEntries.
  destruct (gql branch) as [entries|graphqlError] eqn:Hgql; cbn [isThrow negb orb].
  { by rewrite Hgql. }
  destruct (rest branch) as [entries|restError] eqn:Hrest; cbn [isThrow negb].
  { by rewrite Hgql, Hrest. }
  cbn [fetchSucceeded loopState rawEntries lastError].
  match goal with
  | |- context [branchLoop gql rest cands ?e ?s] => specialize (IH e s)
  end.
  destruct (List.find (branchWorks gql rest) cands) as [b|]; [done|].
  destruct IH as (-> & -> & ->). split; [done|]. split; [done|].
  destruct cands as [|next cands]; [by cbn; rewrite Hrest|].
  rewrite last_cons_cons.
  destruct (last (next :: cands)) eqn:Hlast; [done|].
  by apply last_None in Hlast.
Qed.

Lemma find_branchCandidates configured b :
  List.find (branchWorks gql rest) (branchCandidates configured) = Some b →
  List.find (branchWorks gql rest) (branchCandidates b) = Some b.
Proof.
  intros Hfind.
  assert (Hmaster : branchCandidates "master" = ["master"; "main"])
    by reflexivity.
  assert (Hmain : branchCandidates "main" = ["master"; "main"])
    by reflexivity.
  destruct (branchCandidates_cases configured) as [[_ Hc]|[_ Hc]];
    rewrite Hc in Hfind; cbn [List.find] in Hfind;
    destruct (branchWorks gql rest "master") eqn:Hw1;
    try (injection Hfind as <-; rewrite Hmaster; cbn [List.find];
         by rewrite Hw1);
    destruct (branchWorks gql rest "main") eqn:Hw2;
    try (injection Hfind as <-; rewrite Hmain; cbn [List.find];
         by rewrite Hw1, Hw2);
    try done.
  destruct (branchWorks gql rest configured) eqn:Hw3; [|done].
  injection Hfind as <-. rewrite Hc. cbn [List.find].
  by rewrite Hw1, Hw2, Hw3.
Qed.

Lemma warnings_once candidates lastError0 st :
  length (List.filter isWarnGraphQL
            (loopEvents (branchLoop gql rest candidates lastError0 st)))
  ≤ (if graphQlWarningLogged st then 0 else 1)
  ∧ length (List.filter isWarnREST
              (loopEvents (branchLoop gql rest candidates lastError0 st)))
    ≤ (if restWarningLogged st then 0 else 1)
  ∧ (graphQlWarningLogged st = true →
     graphQlWarningLogged
       (loopState (branchLoop gql rest candidates lastError0 st)) = true)
  ∧ (restWarningLogged st = true →
     restWarningLogged
       (loopState (branchLoop gql rest candidates lastError0 st)) = true).
Proof.
  revert lastError0 st.
  induction candidates as [|branch cands IH]; intros lastError0 st.
  - cbn. destruct (graphQlWarningLogged st), (restWarningLogged st);
      repeat split; auto.
  - cbn [branchLoop]. destruct (gql branch) as [entries|graphqlError].
    { cbn. destruct (graphQlWarningLogged st), (restWarningLogged st);
        repeat split; auto. }
    destruct (rest branch) as [entries|restError].
    { cbn [loopEvents loopState setBranch graphQlWarningLogged
             restWarningLogged].
      rewrite !List.filter_app, !length_app.
      destruct (graphQlWarningLogged st), (restWarningLogged st); cbn;
        repeat split; auto. }
    cbn [loopEvents loopState].
    match goal with
    | |- context [branchLoop gql rest cands ?e ?s] =>
        specialize (IH e s); set (out := branchLoop gql rest cands e s) in *;
        clearbody out
    end.
    cbn [graphQlWarningLogged restWarningLogged] in IH.
    destruct IH as (Hg & Hr & Hgm & Hrm).
    rewrite !List.filter_app, !length_app.
    split; [|split; [|split]]; [| |by auto|by auto].
    + destruct (graphQlWarningLogged st), (restWarningLogged st);
        cbn in *; lia.
    + destruct (graphQlWarningLogged st), (restWarningLogged st);
        cbn in *; lia.
Qed.
End tree_fetch_more.

(** X5. [fetchTree] throws after the loop exactly when no candidate works.
    What it throws is then the value the REST call of the last candidate
    rejected with, or the fallback error when that value is [null] or
    [undefined]; the fallback is never thrown for lack of a recorded
    rejection, because the candidate list is never empty. *)
Theorem tree_fetch_error_is_last_rest_error
    (fetchGithubTree fetchGithubTreeREST : string → Result (list RawEntry))
    (st : TreeFetchState) :
  (fetchTreeError (fetchTreeLoop fetchGithubTree fetchGithubTreeREST st) = None
   ↔ ∃ b, In b (branchCandidates (BRANCH st))
          ∧ branchWorks fetchGithubTree fetchGithubTreeREST b = true)
  ∧ (∀ err,
       fetchTreeError (fetchTreeLoop fetchGithubTree fetchGithubTreeREST st)
       = Some err →
       ∃ b rejected,
         last (branchCandidates (BRANCH st)) = Some b
         ∧ fetchGithubTreeREST b = Throw rejected
         ∧ err = match rejected with
                 | NullOrUndefined =>
                     ErrorObject "Unable to fetch Git tree from GitHub."
                 | _ => rejected
                 end).
Proof.
  unfold fetchTreeError, fetchTreeLoop.
  pose proof (branchLoop_first_working fetchGithubTree fetchGithubTreeREST
                (branchCandidates (BRANCH st)) None st) as Hloop.
  destruct (List.find (branchWorks fetchGithubTree fetchGithubTreeREST)
              (branchCandidates (BRANCH st))) as [b|] eqn:Hfind.
  - destruct Hloop as (-> & _ & _). split.
    + split; [|done]. intros _. apply find_some in Hfind. by exists b.
    + intros err [=].
  - destruct Hloop as (-> & _ & ->). split.
    + split; [done|]. intros (b & Hin & Hb).
      by rewrite (find_none _ _ Hfind b Hin) in Hb.
    + intros err.
      assert (Hlast : ∃ b, last (branchCandidates (BRANCH st)) = Some b
                           ∧ In b (branchCandidates (BRANCH st))).
      { destruct (branchCandidates_cases (BRANCH st)) as [[_ ->]|[_ ->]];
          eexists; (split; [reflexivity|cbn; auto]). }
      destruct Hlast as (b & -> & Hin).
      pose proof (find_none _ _ Hfind b Hin) as Hb. unfold branchWorks in Hb.
      destruct (fetchGithubTreeREST b) as [entries|e] eqn:Hrest;
        [by rewrite orb_true_r in Hb|].
      intros [= <-]. exists b, e. split; [done|]. split; [done|].
      by destruct e.
Qed.

(** X6. When a run of the loop succeeds, running it again from the state it
    left, against the same answers, succeeds on the same branch with the
    same entries. *)
Theorem tree_fetch_rerun_is_stable
    (fetchGithubTree fetchGithubTreeREST : string → Result (list RawEntry))
    (st : TreeFetchState) :
  fetchSucceeded (fetchTreeLoop fetchGithubTree fetchGithubTreeREST st) = true →
  fetchSucceeded
    (fetchTreeLoop fetchGithubTree fetchGithubTreeREST
       (loopState (fetchTreeLoop fetchGithubTree fetchGithubTreeREST st)))
  = true
  ∧ BRANCH (loopState
      (fetchTreeLoop fetchGithubTree fetchGithubTreeREST
         (loopState (fetchTreeLoop fetchGithubTree fetchGithubTreeREST st))))
    = BRANCH (loopState (fetchTreeLoop fetchGithubTree fetchGithubTreeREST st))
  ∧ rawEntries
      (fetchTreeLoop fetchGithubTree fetchGithubTreeREST
         (loopState (fetchTreeLoop fetchGithubTree fetchGithubTreeREST st)))
    = rawEntries (fetchTreeLoop fetchGithubTree fetchGithubTreeREST st).
Proof.
  pose proof (branchLoop_first_working fetchGithubTree fetchGithubTreeREST
                (branchCandidates (BRANCH st)) None st) as Hloop.
  fold (fetchTreeLoop fetchGithubTree fetchGithubTreeREST st) in Hloop.
  set (out := fetchTreeLoop fetchGithubTree fetchGithubTreeREST st) in *.
  pose proof (branchLoop_first_working fetchGithubTree fetchGithubTreeREST
                (branchCandidates (BRANCH (loopState out))) None
                (loopState out)) as Hloop'.
  fold (fetchTreeLoop fetchGithubTree fetchGithubTreeREST (loopState out))
    in Hloop'.
  set (out' := fetchTreeLoop fetchGithubTree fetchGithubTreeREST
                 (loopState out)) in *.
  clearbody out out'.
  destruct (List.find (branchWorks fetchGithubTree fetchGithubTreeREST)
              (branchCandidates (BRANCH st))) as [b|] eqn:Hfind.
  - destruct Hloop as (_ & Hb & Hentries). intros _.
    rewrite Hb in Hloop' |- *.
    rewrite (find_branchCandidates _ _ _ _ Hfind) in Hloop'.
    destruct Hloop' as (-> & -> & ->). by rewrite Hentries.
  - destruct Hloop as (-> & _). done.
Qed.

Lemma tree_fetch_rerun_is_stable_witness :
  fetchSucceeded
    (fetchTreeLoop graphqlRefused restOnMain
       {| BRANCH := "develop"; graphQlWarningLogged := false;
          restWarningLogged := false |}) = true
  ∧ BRANCH (loopState
      (fetchTreeLoop graphqlRefused restOnMain
         (loopState
            (fetchTreeLoop graphqlRefused restOnMain
               {| BRANCH := "develop"; graphQlWarningLogged := false;
                  restWarningLogged := false |}))))
    = "main".
Proof.
  assert (H : fetchSucceeded
    (fetchTreeLoop graphqlRefused restOnMain
       {| BRANCH := "develop"; graphQlWarningLogged := false;
          restWarningLogged := false |}) = true) by reflexivity.
  split; [exact H|].
  rewrite (proj1 (proj2 (tree_fetch_rerun_is_stable _ _ _ H))).
  reflexivity.
Defined.

(** X7. Each of the two warnings is printed at most once by a run of the
    loop, and not at all when its flag was already set; a set flag stays
    set. *)
Theorem tree_fetch_warns_once
    (fetchGithubTree fetchGithubTreeREST : string → Result (list RawEntry))
    (st : TreeFetchState) :
  length (List.filter isWarnGraphQL
            (loopEvents (fetchTreeLoop fetchGithubTree fetchGithubTreeREST st)))
  ≤ (if graphQlWarningLogged st then 0 else 1)
  ∧ length (List.filter isWarnREST
              (loopEvents
                 (fetchTreeLoop fetchGithubTree fetchGithubTreeREST st)))
    ≤ (if restWarningLogged st then 0 else 1)
  ∧ (graphQlWarningLogged st = true →
     graphQlWarningLogged
       (loopState (fetchTreeLoop fetchGithubTree fetchGithubTreeREST st))
     = true)
  ∧ (restWarningLogged st = true →
     restWarningLogged
       (loopState (fetchTreeLoop fetchGithubTree fetchGithubTreeREST st))
     = true).
Proof. apply warnings_once. Qed.

(** ** Substrings *)

Section substring_facts.
Implicit Types (s q a b : string).

Lemma append_cons c a b : String c a +:+ b = String c (a +:+ b).
Proof. reflexivity. Qed.

Lemma append_assoc a b q : (a +:+ b) +:+ q = a +:+ (b +:+ q).
Proof.
  induction a as [|c a IH]; [done|]. rewrite !append_cons. by f_equal.
Qed.

Lemma append_nil_r a : a +:+ "" = a.
Proof.
  induction a as [|c a IH]; [done|]. rewrite append_cons. by f_equal.
Qed.

Lemma startsWith_append s q :
  startsWith s q = true ↔ ∃ b, s = q +:+ b.
Proof.
  revert s. induction q as [|c q IH]; intros s; cbn [startsWith].
  - split; [by exists s|done].
  - destruct s as [|d s].
    + split; [done|]. by intros (b & [=]).
    + rewrite andb_true_iff, IH. split.
      * intros [->%Ascii.eqb_eq [b ->]]. by exists b.
      * intros (b & Heq). rewrite append_cons in Heq.
        injection Heq as -> ->. split; [apply Ascii.eqb_refl|by exists b].
Qed.

Lemma includes_append s q :
  includes s q = true ↔ ∃ a b, s = a +:+ q +:+ b.
Proof.
  induction s as [|c s IH]; cbn [includes]; rewrite orb_true_iff.
  - rewrite startsWith_append. split.
    + intros [[b ->]|[=]]. by exists "", b.
    + intros ([|d a] & b & Heq); [left; by exists b|done].
  - rewrite startsWith_append, IH. split.
    + intros [[b ->]|(a & b & ->)]; [by exists "", b|by exists (String c a), b].
    + intros ([|d a] & b & Heq); [left; by exists b|].
      rewrite append_cons in Heq. injection Heq as -> ->.
      right. by exists a, b.
Qed.

Lemma includes_append_r a s q :
  includes s q = true → includes (a +:+ s) q = true.
Proof.
  rewrite !includes_append. intros (a' & b & ->).
  exists (a +:+ a'), b. by rewrite append_assoc.
Qed.

Lemma includes_trans s q q' :
  includes s q = true → includes q q' = true → includes s q' = true.
Proof.
  rewrite !includes_append. intros (a & b & ->) (a' & b' & ->).
  exists (a +:+ a'), (b' +:+ b). by rewrite !append_assoc.
Qed.

(** Lower-casing a string of ASCII characters is the fold of A-Z,
    character by character. *)
Lemma toLowerCase_ascii s : isAscii s = true → toLowerCase s = foldCase s.
Proof. unfold toLowerCase. by intros ->. Qed.

Lemma isAscii_append a b : isAscii (a +:+ b) = isAscii a && isAscii b.
Proof.
  induction a as [|c a IH]; [done|].
  rewrite append_cons. cbn [isAscii]. by rewrite IH, andb_assoc.
Qed.

Lemma foldCase_append a b : foldCase (a +:+ b) = foldCase a +:+ foldCase b.
Proof.
  induction a as [|c a IH]; [done|].
  rewrite append_cons. cbn [foldCase]. rewrite append_cons. by f_equal.
Qed.

Lemma toLowerCase_append a b :
  isAscii (a +:+ b) = true →
  toLowerCase (a +:+ b) = toLowerCase a +:+ toLowerCase b.
Proof.
  intros Hab. rewrite (toLowerCase_ascii _ Hab).
  rewrite isAscii_append in Hab. apply andb_true_iff in Hab as [Ha Hb].
  by rewrite (toLowerCase_ascii _ Ha), (toLowerCase_ascii _ Hb),
    foldCase_append.
Qed.

Lemma includes_toLowerCase s q :
  isAscii s = true →
  includes s q = true → includes (toLowerCase s) (toLowerCase q) = true.
Proof.
  intros Hs. rewrite !includes_append. intros (a & b & ->).
  exists (toLowerCase a), (toLowerCase b).
  rewrite toLowerCase_append by done.
  rewrite isAscii_append in Hs. apply andb_true_iff in Hs as [_ Hs].
  by rewrite toLowerCase_append.
Qed.

Lemma includes_empty s : includes s "" = true.
Proof. apply includes_append. by exists "", s. Qed.

Lemma includes_in_empty q : includes "" q = true → q = "".
Proof.
  rewrite includes_append. intros ([|c a] & b & Heq); [|done].
  by destruct q.
Qed.
End substring_facts.

(** ** The search/filter hook, continued *)

Section search_filter_more.
Implicit Types (files : list GitHubFile) (options : SearchOptions).

Lemma filter_In_impl {A} (f g : A → bool) (l : list A) x :
  (f x = true → g x = true) → In x (List.filter f l) → In x (List.filter g l).
Proof. rewrite !filter_In. intros Himpl [? ?]. auto. Qed.

Lemma filter_filter_same {A} (f : A → bool) (l : list A) :
  List.filter f (List.filter f l) = List.filter f l.
Proof.
  induction l as [|x l IH]; cbn; [done|].
  destruct (f x) eqn:Hx; cbn; [by rewrite Hx, IH|done].
Qed.

Lemma filter_sublist {A} (f : A → bool) (l : list A) :
  sublist (List.filter f l) l.
Proof.
  induction l as [|x l IH]; cbn; [constructor|].
  destruct (f x); by constructor.
Qed.
End search_filter_more.

(** X8. The filtered list keeps the files in the order of the input and
    holds no file that is not in the input; without a query it is the input
    itself; and filtering the result again with the same options changes
    nothing. *)
Theorem filteredFiles_sublist_idempotent (files : list GitHubFile)
    (options : SearchOptions) :
  sublist (filteredFiles files options) files
  ∧ (query options = "" → filteredFiles files options = files)
  ∧ filteredFiles (filteredFiles files options) options
    = filteredFiles files options.
Proof.
  rewrite !filteredFiles_query. split; [apply filter_sublist|]. split.
  - intros Hq. rewrite <-(filter_true files) at 2. apply filter_ext.
    intros f. unfold queryPredicate. by rewrite Hq.
  - apply filter_filter_same.
Qed.

(** X9. When the path of every file ends with its name, as in a directory
    listing, and (where case is ignored) is made of ASCII characters,
    switching name matching on or off does not change the filtered list: a
    query found in the name is found in the path as well. *)
Theorem searchNames_is_redundant (files : list GitHubFile)
    (options : SearchOptions) :
  (∀ f, In f files → ∃ dir, file_path f = dir +:+ file_name f) →
  (caseSensitive options = false →
   ∀ f, In f files → isAscii (file_path f) = true) →
  filteredFiles files (toggleSearchNames options)
  = filteredFiles files options.
Proof.
  intros Hpaths Hascii. rewrite !filteredFiles_query.
  assert (Hpath : ∀ f, In f files →
            queryPredicate options f
            = (if truthy (query options) then pathPredicate options f
               else true)).
  { intros f Hin. destruct (Hpaths f Hin) as [dir Hdir].
    unfold queryPredicate, pathPredicate.
    destruct (truthy (query options)); [|done].
    destruct (searchNames options); [|done]. cbn [andb].
    match goal with
    | |- ?n || ?p = ?p => destruct n eqn:Hn; [|done]; cbn [orb]
    end.
    symmetry. pose proof (Hascii) as Hf. rewrite Hdir.
    destruct (caseSensitive options).
    - by apply includes_append_r.
    - specialize (Hf eq_refl f Hin). rewrite Hdir in Hf.
      rewrite toLowerCase_append by done. by apply includes_append_r. }
  assert (Hpath' : ∀ f, In f files →
            queryPredicate (toggleSearchNames options) f
            = (if truthy (query options) then pathPredicate options f
               else true)).
  { intros f Hin. destruct (Hpaths f Hin) as [dir Hdir].
    unfold queryPredicate, pathPredicate, toggleSearchNames.
    cbn [query searchNames caseSensitive file_path file_name].
    destruct (truthy (query options)); [|done].
    destruct (searchNames options); [done|]. cbn [negb andb].
    match goal with
    | |- ?n || ?p = ?p => destruct n eqn:Hn; [|done]; cbn [orb]
    end.
    symmetry. pose proof (Hascii) as Hf. rewrite Hdir.
    destruct (caseSensitive options).
    - by apply includes_append_r.
    - specialize (Hf eq_refl f Hin). rewrite Hdir in Hf.
      rewrite toLowerCase_append by done. by apply includes_append_r. }
  clear Hpaths Hascii.
  induction files as [|f files IH]; [done|]. cbn [List.filter].
  rewrite Hpath, Hpath' by (by left).
  rewrite IH; [done| |]; intros g Hg; [apply Hpath|apply Hpath']; by right.
Qed.

Lemma searchNames_is_redundant_witness :
  (∀ f, In f [plainFile "intro.md" "docs/intro.md";
              plainFile "Docs.txt" "notes/Docs.txt"] →
        ∃ dir, file_path f = dir +:+ file_name f)
  ∧ (∀ f, In f [plainFile "intro.md" "docs/intro.md";
                plainFile "Docs.txt" "notes/Docs.txt"] →
          isAscii (file_path f) = true)
  ∧ filteredFiles [plainFile "intro.md" "docs/intro.md";
                   plainFile "Docs.txt" "notes/Docs.txt"]
      (toggleSearchNames (setQuery "docs" initialOptions))
    = filteredFiles [plainFile "intro.md" "docs/intro.md";
                     plainFile "Docs.txt" "notes/Docs.txt"]
        (setQuery "docs" initialOptions).
Proof.
  assert (H : ∀ f, In f [plainFile "intro.md" "docs/intro.md";
                         plainFile "Docs.txt" "notes/Docs.txt"] →
                   ∃ dir, file_path f = dir +:+ file_name f).
  { intros f [<-|[<-|[]]]; [by exists "docs/"|by exists "notes/"]. }
  assert (H' : ∀ f, In f [plainFile "intro.md" "docs/intro.md";
                          plainFile "Docs.txt" "notes/Docs.txt"] →
                    isAscii (file_path f) = true).
  { intros f [<-|[<-|[]]]; reflexivity. }
  split; [exact H|]. split; [exact H'|].
  exact (searchNames_is_redundant _ (setQuery "docs" initialOptions) H
           (λ _, H')).
Defined.

(** X10. Switching case sensitivity off never loses a file whose name and
    path are made of ASCII characters: such a file, when kept by a
    case-sensitive search, is kept by the same search with case ignored. *)
Theorem ignoring_case_keeps_matches (files : list GitHubFile)
    (options : SearchOptions) (f : GitHubFile) :
  caseSensitive options = true →
  isAscii (file_name f) = true →
  isAscii (file_path f) = true →
  In f (filteredFiles files options) →
  In f (filteredFiles files (toggleCaseSensitive options)).
Proof.
  intros Hcase Hname Hpath. rewrite !filteredFiles_query.
  apply filter_In_impl.
  unfold queryPredicate, toggleCaseSensitive.
  cbn [query searchNames caseSensitive]. rewrite Hcase. cbn [negb].
  destruct (truthy (query options)); [|done].
  rewrite !orb_true_iff, !andb_true_iff.
  intros [[? ?]|?]; [left; split; [done|]|right];
    by apply includes_toLowerCase.
Qed.

Lemma ignoring_case_keeps_matches_witness :
  caseSensitive (toggleCaseSensitive (setQuery "Intro" initialOptions)) = true
  ∧ In (plainFile "Intro.md" "docs/Intro.md")
       (filteredFiles [plainFile "Intro.md" "docs/Intro.md"]
          (toggleCaseSensitive (setQuery "Intro" initialOptions)))
  ∧ In (plainFile "Intro.md" "docs/Intro.md")
       (filteredFiles [plainFile "Intro.md" "docs/Intro.md"]
          (toggleCaseSensitive
             (toggleCaseSensitive (setQuery "Intro" initialOptions)))).
Proof.
  assert (H1 : caseSensitive
                 (toggleCaseSensitive (setQuery "Intro" initialOptions))
               = true) by reflexivity.
  assert (H2 : In (plainFile "Intro.md" "docs/Intro.md")
       (filteredFiles [plainFile "Intro.md" "docs/Intro.md"]
          (toggleCaseSensitive (setQuery "Intro" initialOptions))))
    by (by left).
  split; [exact H1|]. split; [exact H2|].
  exact (ignoring_case_keeps_matches _ _ (plainFile "Intro.md" "docs/Intro.md")
           H1 eq_refl eq_refl H2).
Defined.

(** X11. Extending the query narrows the result: when the old query occurs
    in the new one, every file kept for the new query was kept for the old
    one; where case is ignored, this is for a new query made of ASCII
    characters. *)
Theorem longer_query_narrows (files : list GitHubFile)
    (options : SearchOptions) (q q' : string) (f : GitHubFile) :
  includes q' q = true →
  (caseSensitive options = false → isAscii q' = true) →
  In f (filteredFiles files (setQuery q' options)) →
  In f (filteredFiles files (setQuery q options)).
Proof.
  intros Hsub Hascii. rewrite !filteredFiles_query. apply filter_In_impl.
  unfold queryPredicate, setQuery. cbn [query searchNames caseSensitive].
  destruct (truthy q) eqn:Hq; [|done].
  assert (Hq' : truthy q' = true).
  { destruct q' as [|c q']; [|done]. apply includes_in_empty in Hsub.
    by rewrite Hsub in Hq. }
  rewrite Hq'.
  assert (Hfold : includes (if caseSensitive options then q'
                            else toLowerCase q')
                           (if caseSensitive options then q
                            else toLowerCase q) = true).
  { destruct (caseSensitive options); [done|].
    by apply includes_toLowerCase; [apply Hascii|]. }
  rewrite !orb_true_iff, !andb_true_iff.
  intros [[? ?]|?]; [left; split; [done|]|right];
    eapply includes_trans; eauto.
Qed.

Lemma longer_query_narrows_witness :
  includes "intro" "in" = true
  ∧ In (plainFile "intro.md" "docs/intro.md")
       (filteredFiles [plainFile "intro.md" "docs/intro.md"]
          (setQuery "intro" initialOptions))
  ∧ In (plainFile "intro.md" "docs/intro.md")
       (filteredFiles [plainFile "intro.md" "docs/intro.md"]
          (setQuery "in" initialOptions)).
Proof.
  assert (H1 : includes "intro" "in" = true) by reflexivity.
  assert (H2 : In (plainFile "intro.md" "docs/intro.md")
       (filteredFiles [plainFile "intro.md" "docs/intro.md"]
          (setQuery "intro" initialOptions))) by (by left).
  split; [exact H1|]. split; [exact H2|].
  exact (longer_query_narrows _ initialOptions _ _ _ H1 (λ _, eq_refl) H2).
Defined.

(** ** File extensions and scopes *)

Section extension_facts.
Implicit Types (name s : string) (c : ascii).

Lemma lowerChar_idempotent c : lowerChar (lowerChar c) = lowerChar c.
Proof. destruct c as [[] [] [] [] [] [] [] []]; reflexivity. Qed.

Lemma lowerChar_dot c : Ascii.eqb (lowerChar c) "." = Ascii.eqb c ".".
Proof. destruct c as [[] [] [] [] [] [] [] []]; reflexivity. Qed.

Lemma lowerChar_ascii c : isAsciiChar (lowerChar c) = isAsciiChar c.
Proof. destruct c as [[] [] [] [] [] [] [] []]; reflexivity. Qed.

Lemma isAscii_foldCase s : isAscii (foldCase s) = isAscii s.
Proof.
  induction s as [|c s IH]; [done|]. cbn [foldCase isAscii].
  by rewrite lowerChar_ascii, IH.
Qed.

Lemma foldCase_idempotent s : foldCase (foldCase s) = foldCase s.
Proof.
  induction s as [|c s IH]; [done|]. cbn [foldCase].
  by rewrite lowerChar_idempotent, IH.
Qed.

Lemma toLowerCase_idempotent s :
  isAscii s = true → toLowerCase (toLowerCase s) = toLowerCase s.
Proof.
  intros Hs. rewrite (toLowerCase_ascii s Hs).
  rewrite toLowerCase_ascii by (by rewrite isAscii_foldCase).
  apply foldCase_idempotent.
Qed.

Lemma fromLast_foldCase s :
  fromLast "." (foldCase s) = foldCase <$> fromLast "." s.
Proof.
  induction s as [|c s IH]; [done|]. cbn [foldCase fromLast].
  rewrite IH, lowerChar_dot. destruct (fromLast "." s); [done|].
  by destruct (Ascii.eqb c ".").
Qed.

Lemma fromLast_ascii c s suffix :
  isAscii s = true → fromLast c s = Some suffix → isAscii suffix = true.
Proof.
  revert suffix. induction s as [|d s IH]; intros suffix; [done|].
  cbn [isAscii fromLast]. intros [Hd Hs]%andb_true_iff.
  destruct (fromLast c s) as [found|].
  - intros [= <-]. by apply IH.
  - destruct (Ascii.eqb d c); [|done]. intros [= <-].
    cbn [isAscii]. by rewrite Hd, Hs.
Qed.

(** On a name of ASCII characters the extension is the fold of the end of
    the name. *)
Lemma getExtension_ascii name :
  isAscii name = true →
  getExtension name
  = match fromLast "." name with
    | Some suffix => foldCase suffix
    | None => ""
    end.
Proof.
  intros Hname. unfold getExtension.
  destruct (fromLast "." name) as [suffix|] eqn:Hlast; [|done].
  apply toLowerCase_ascii. by apply (fromLast_ascii "." name).
Qed.

Lemma getExtension_toLowerCase name :
  isAscii name = true → getExtension (toLowerCase name) = getExtension name.
Proof.
  intros Hname. rewrite (toLowerCase_ascii name Hname).
  rewrite !getExtension_ascii by (by rewrite ?isAscii_foldCase).
  rewrite fromLast_foldCase.
  destruct (fromLast "." name) as [suffix|]; [|done].
  cbn. apply foldCase_idempotent.
Qed.

(** The suffix found by [fromLast] starts at a dot, has no other dot, and
    ends the string. *)
Lemma fromLast_Some s suffix :
  fromLast "." s = Some suffix →
  ∃ base rest, s = base +:+ suffix ∧ suffix = String "." rest
               ∧ fromLast "." rest = None.
Proof.
  revert suffix. induction s as [|c s IH]; intros suffix; [done|].
  cbn [fromLast]. destruct (fromLast "." s) as [suffix'|] eqn:Hs.
  - intros [= <-]. destruct (IH suffix' eq_refl) as (base & rest & -> & ? & ?).
    exists (String c base), rest. done.
  - destruct (Ascii.eqb_spec c ".") as [->|]; [|done].
    intros [= <-]. exists "", s. done.
Qed.

Lemma fromLast_None_includes s :
  fromLast "." s = None → includes s "." = false.
Proof.
  induction s as [|c s IH]; [done|]. cbn [fromLast includes startsWith].
  destruct (fromLast "." s); [done|].
  destruct (Ascii.eqb c "."); [done|]. intros _. by rewrite IH.
Qed.

Lemma media_not_text ext :
  hasString MEDIA_EXTENSION_SET ext = true →
  hasString TEXT_EXTENSION_SET ext = false.
Proof.
  unfold hasString. intros (y & Hin & ->%String.eqb_eq)%existsb_exists.
  vm_compute in Hin.
  repeat (destruct Hin as [<-|Hin]; [reflexivity|]). done.
Qed.

Lemma markdown_not_media_nor_text ext :
  hasString MARKDOWN_EXTENSIONS ext = true →
  hasString MEDIA_EXTENSION_SET ext = false
  ∧ hasString TEXT_EXTENSION_SET ext = false.
Proof.
  unfold hasString. intros (y & Hin & ->%String.eqb_eq)%existsb_exists.
  vm_compute in Hin.
  repeat (destruct Hin as [<-|Hin]; [by split|]). done.
Qed.
End extension_facts.

(** X12. No file name is both a media file and a previewable text file, and
    a name with a markdown extension is neither: the three extension sets
    are disjoint, so the order in which the content area tests them does not
    matter. *)
Theorem extension_classes_are_disjoint (name : string) :
  isMediaFile name && isPreviewableTextFile name = false
  ∧ (hasString MARKDOWN_EXTENSIONS (getExtension name) = true →
     isMediaFile name = false ∧ isPreviewableTextFile name = false).
Proof.
  unfold isMediaFile, isPreviewableTextFile. split.
  - destruct (truthy (getExtension name)); [|done].
    destruct (hasString MEDIA_EXTENSION_SET (getExtension name)) eqn:Hm;
      [|done].
    by rewrite (media_not_text _ Hm).
  - intros [-> ->]%markdown_not_media_nor_text.
    by destruct (truthy (getExtension name)).
Qed.

(** X13. The extension of a file name is empty when the name has no dot,
    and otherwise the lower-cased end of the name from its last dot on.  For
    a name of ASCII characters it is then a dot followed by dot-free text,
    lower-casing it again changes nothing, and the classification of the
    name does not depend on the case of its letters. *)
Theorem getExtension_shape (name : string) :
  (getExtension name = "" ∧ includes name "." = false
   ∨ ∃ base tail,
       name = base +:+ String "." tail
       ∧ includes tail "." = false
       ∧ getExtension name = toLowerCase (String "." tail))
  ∧ (isAscii name = true →
     (getExtension name = ""
      ∨ ∃ rest, getExtension name = String "." rest
                ∧ includes rest "." = false)
     ∧ toLowerCase (getExtension name) = getExtension name
     ∧ getExtension (toLowerCase name) = getExtension name
     ∧ isMediaFile (toLowerCase name) = isMediaFile name
     ∧ isPreviewableTextFile (toLowerCase name)
       = isPreviewableTextFile name).
Proof.
  split.
  - unfold getExtension. destruct (fromLast "." name) as [suffix|] eqn:Hlast.
    + right.
      destruct (fromLast_Some _ _ Hlast) as (base & tail & -> & -> & Htail).
      exists base, tail. split; [done|].
      split; [by apply fromLast_None_includes|done].
    + left. split; [done|]. by apply fromLast_None_includes.
  - intros Hname. split; [|split; [|split; [|split]]].
    + rewrite (getExtension_ascii name Hname).
      destruct (fromLast "." name) as [suffix|] eqn:Hlast; [|by left].
      right.
      destruct (fromLast_Some _ _ Hlast) as (base & tail & _ & -> & Htail).
      exists (foldCase tail). split; [done|].
      apply fromLast_None_includes. rewrite fromLast_foldCase.
      by rewrite Htail.
    + rewrite (getExtension_ascii name Hname).
      destruct (fromLast "." name) as [suffix|] eqn:Hlast; [|done].
      rewrite toLowerCase_ascii.
      * apply foldCase_idempotent.
      * rewrite isAscii_foldCase. by apply (fromLast_ascii "." name).
    + by apply getExtension_toLowerCase.
    + unfold isMediaFile. by rewrite getExtension_toLowerCase.
    + unfold isPreviewableTextFile. by rewrite getExtension_toLowerCase.
Qed.

(** X14. [shouldShowFile] shows every directory; and a file whose name has
    no dot escapes the [extraExtensions] restriction: whatever extensions
    are listed, it is shown in the scope [all] and hidden in the scopes
    [media] and [configs]. *)
Theorem shouldShowFile_edge_cases (file : GitHubFile)
    (scope : FileFilterScope) (includeMarkdown : bool)
    (extraExtensions : list string) :
  (file_type file = TypeDir →
   shouldShowFile file scope includeMarkdown extraExtensions = true)
  ∧ (file_type file = TypeFile → includes (file_name file) "." = false →
     shouldShowFile file ScopeAll includeMarkdown extraExtensions = true
     ∧ shouldShowFile file ScopeMedia includeMarkdown extraExtensions = false
     ∧ shouldShowFile file ScopeConfigs includeMarkdown extraExtensions
       = false).
Proof.
  unfold shouldShowFile. split; [by intros ->|]. intros -> Hdot.
  assert (Hext : getExtension (file_name file) = "").
  { unfold getExtension.
    destruct (fromLast "." (file_name file)) as [suffix|] eqn:Hlast; [|done].
    apply fromLast_Some in Hlast as (b & r & Heq & -> & _).
    assert (Hin : includes (file_name file) "." = true); [|congruence].
    rewrite Heq. apply includes_append. by exists b, r. }
  unfold isMediaFile, isPreviewableTextFile. rewrite Hext. cbn [truthy].
  by rewrite andb_false_r.
Qed.

Lemma shouldShowFile_edge_cases_witness :
  file_type (plainFile "LICENSE" "LICENSE") = TypeFile
  ∧ includes (file_name (plainFile "LICENSE" "LICENSE")) "." = false
  ∧ shouldShowFile (plainFile "LICENSE" "LICENSE") ScopeAll true [".md"]
    = true.
Proof.
  assert (H1 : file_type (plainFile "LICENSE" "LICENSE") = TypeFile)
    by reflexivity.
  assert (H2 : includes (file_name (plainFile "LICENSE" "LICENSE")) "."
               = false) by reflexivity.
  split; [exact H1|]. split; [exact H2|].
  exact (proj1 (proj2 (shouldShowFile_edge_cases _ ScopeAll true [".md"])
                  H1 H2)).
Defined.

(** X15. The media viewer and [isMediaFile] agree: the "not previewable"
    notice is shown exactly when none of the image, audio, video and
    document players is; the players exclude one another except the audio
    and the video player, which are both shown exactly for [.webm]. *)
Theorem media_viewer_agrees_with_isMediaFile (name : string) :
  showsFallbackNotice name
  = negb (isImage name || isAudio name || isVideo name || isDocument name)
  ∧ isImage name && (isAudio name || isVideo name || isDocument name) = false
  ∧ isDocument name && (isAudio name || isVideo name) = false
  ∧ (isAudio name && isVideo name = true ↔ viewerExtension name = ".webm").
Proof.
  unfold showsFallbackNotice, isMediaFile, isImage, isAudio, isVideo,
    isDocument, viewerExtension, getExtension.
  destruct (fromLast "." name) as [suffix|]; [|by vm_compute].
  generalize (toLowerCase suffix). intros ext.
  assert (Hcases : In ext MEDIA_EXTENSION_SET
                   ∨ hasString MEDIA_EXTENSION_SET ext = false).
  { destruct (hasString MEDIA_EXTENSION_SET ext) eqn:H; [left|by right].
    apply existsb_exists in H as (y & Hin & ->%String.eqb_eq). done. }
  destruct Hcases as [Hin|Hnot].
  - vm_compute in Hin.
    repeat (destruct Hin as [<-|Hin]; [by vm_compute|]). done.
  - assert (Hsub : ∀ l, (∀ x, In x l → In x MEDIA_EXTENSION_SET) →
                        hasString l ext = false).
    { intros l Hl. destruct (hasString l ext) eqn:H; [|done].
      apply existsb_exists in H as (y & Hin & Heq).
      rewrite <-Hnot. symmetry. apply existsb_exists. exists y. auto. }
    rewrite Hnot.
    rewrite (Hsub IMAGE_EXTENSIONS), (Hsub AUDIO_EXTENSIONS),
      (Hsub VIDEO_EXTENSIONS), (Hsub DOC_EXTENSIONS);
      try (intros x Hx; vm_compute in Hx |- *; tauto).
    split; [by destruct (truthy ext)|]. split; [done|]. split; [done|].
    split; [done|]. intros ->. by vm_compute in Hnot.
Qed.

(** ** Paths *)

Section path_facts.
Implicit Types (s p base : string) (segments : list string).

Lemma stripLeadingSlashes_head s :
  startsWith (stripLeadingSlashes s) "/" = false.
Proof.
  induction s as [|c s IH]; [done|]. cbn [stripLeadingSlashes].
  destruct (Ascii.eqb c "/") eqn:Hc; [done|]. cbn. by rewrite Hc.
Qed.

Lemma stripLeadingSlashes_id p :
  startsWith p "/" = false → stripLeadingSlashes p = p.
Proof.
  destruct p as [|c p]; [done|]. cbn. rewrite andb_true_r. by intros ->.
Qed.

Lemma stripLeadingSlashes_append pre p :
  onlySlashes pre = true → startsWith p "/" = false →
  stripLeadingSlashes (pre +:+ p) = p.
Proof.
  intros Hpre Hp. induction pre as [|c pre IH].
  - by apply stripLeadingSlashes_id.
  - cbn [onlySlashes] in Hpre. apply andb_true_iff in Hpre as [Hc Hpre].
    rewrite append_cons. cbn [stripLeadingSlashes]. rewrite Hc. by apply IH.
Qed.

Lemma splitOn_not_nil sep s : splitOn sep s ≠ [].
Proof.
  destruct s as [|c s]; [done|]. cbn [splitOn].
  destruct (Ascii.eqb c sep); [done|]. by destruct (splitOn sep s).
Qed.

Lemma joinWith_cons sep x y segments :
  joinWith sep (x :: y :: segments) = x +:+ sep +:+ joinWith sep (y :: segments).
Proof. reflexivity. Qed.

(** Splitting at the slashes and joining with slashes gives the string
    back. *)
Lemma joinWith_splitOn s : joinWith "/" (splitOn "/" s) = s.
Proof.
  induction s as [|c s IH]; [done|]. cbn [splitOn].
  destruct (Ascii.eqb_spec c "/") as [->|Hc].
  - destruct (splitOn "/" s) as [|y l] eqn:Hs; [by apply splitOn_not_nil in Hs|].
    rewrite joinWith_cons, IH. done.
  - destruct (splitOn "/" s) as [|y l] eqn:Hs; [by apply splitOn_not_nil in Hs|].
    destruct l as [|z l].
    + cbn [joinWith] in IH |- *. by rewrite IH.
    + rewrite joinWith_cons in IH |- *. rewrite <-IH. by rewrite append_cons.
Qed.

Lemma noSlash_cons c s :
  noSlash (String c s) = negb (Ascii.eqb c "/") && noSlash s.
Proof.
  unfold noSlash. cbn [includes startsWith]. rewrite andb_true_r.
  by rewrite negb_orb.
Qed.

Lemma splitOn_noSlash s segment :
  In segment (splitOn "/" s) → noSlash segment = true.
Proof.
  revert segment. induction s as [|c s IH]; intros segment.
  - intros [<-|[]]. done.
  - cbn [splitOn]. destruct (Ascii.eqb c "/") eqn:Hc.
    + intros [<-|Hin]; [done|by apply IH].
    + destruct (splitOn "/" s) as [|y l]; [by intros [<-|[]]; rewrite noSlash_cons, Hc|].
      intros [<-|Hin].
      * rewrite noSlash_cons, Hc. apply IH. by left.
      * apply IH. by right.
Qed.

Lemma joinWith_snoc sep segments x :
  segments ≠ [] →
  joinWith sep (segments ++ [x]) = joinWith sep segments +:+ sep +:+ x.
Proof.
  induction segments as [|y l IH]; [done|]. intros _.
  destruct l as [|z l]; [done|].
  change ((y :: z :: l) ++ [x]) with (y :: (z :: (l ++ [x]))).
  rewrite !joinWith_cons.
  change (z :: l ++ [x]) with ((z :: l) ++ [x]). rewrite IH by done.
  by rewrite !append_assoc.
Qed.

Lemma removelast_last segments :
  segments ≠ [] →
  ∃ x, last segments = Some x ∧ segments = removelast segments ++ [x].
Proof.
  induction segments as [|y l IH]; [done|]. intros _.
  destruct l as [|z l]; [by exists y|].
  destruct IH as (x & Hlast & Heq); [done|]. exists x.
  rewrite last_cons_cons. split; [done|].
  change (removelast (y :: z :: l)) with (y :: removelast (z :: l)).
  cbn [app]. by rewrite <-Heq.
Qed.

Lemma noSlash_append_slash a b : noSlash (a +:+ "/" +:+ b) = false.
Proof.
  unfold noSlash. apply negb_false_iff. apply includes_append. by exists a, b.
Qed.
End path_facts.

(** X16. [joinPath] returns the base for an empty path; leading slashes of
    the path do not matter; and for a non-empty path the result is the base,
    one slash, and a rest that does not begin with a slash (the rest is
    empty when the path is made of slashes only). *)
Theorem joinPath_ignores_leading_slashes (base path : string) :
  joinPath base "" = base
  ∧ (∀ slashes p, onlySlashes slashes = true → startsWith p "/" = false →
                  p ≠ "" →
                  joinPath base (slashes +:+ p) = base +:+ "/" +:+ p)
  ∧ (path ≠ "" →
     ∃ rest, joinPath base path = base +:+ "/" +:+ rest
             ∧ startsWith rest "/" = false
             ∧ (onlySlashes path = true → rest = "")).
Proof.
  split; [done|]. split.
  - intros slashes p Hs Hp Hne. unfold joinPath.
    assert (Htruthy : truthy (slashes +:+ p) = true).
    { destruct slashes; [by apply truthy_nonempty|done]. }
    rewrite Htruthy. cbn [negb]. by rewrite stripLeadingSlashes_append.
  - intros Hne%truthy_nonempty. unfold joinPath. rewrite Hne. cbn [negb].
    exists (stripLeadingSlashes path). split; [done|].
    split; [apply stripLeadingSlashes_head|].
    clear Hne. induction path as [|c path IH]; [done|].
    cbn [onlySlashes stripLeadingSlashes]. intros [-> ?]%andb_true_iff. auto.
Qed.

(** X17. The payload [openFileFromTree] builds has the path without its
    leading slashes.  When that path has no slash, the file name is the path
    and the parent directory is empty; otherwise the path is the parent
    directory, a slash and a last segment without slash, and the file name
    is that segment, or the whole path when the segment is empty (a path
    ending in a slash). *)
Theorem openFileFromTree_splits_path (config : RepoConfig)
    (fullPath : string) :
  file_path (treeFilePayload config fullPath) = stripLeadingSlashes fullPath
  ∧ startsWith (file_path (treeFilePayload config fullPath)) "/" = false
  ∧ file_name (treeFilePayload config fullPath) = treeFileName fullPath
  ∧ (noSlash (stripLeadingSlashes fullPath) = true →
     treeFileName fullPath = stripLeadingSlashes fullPath
     ∧ treeParentDir fullPath = "")
  ∧ (noSlash (stripLeadingSlashes fullPath) = false →
     ∃ segment,
       stripLeadingSlashes fullPath
       = treeParentDir fullPath +:+ "/" +:+ segment
       ∧ noSlash segment = true
       ∧ treeFileName fullPath
         = if truthy segment then segment
           else stripLeadingSlashes fullPath).
Proof.
  split; [done|]. split; [apply stripLeadingSlashes_head|]. split; [done|].
  unfold treeFileName, treeParentDir.
  generalize (stripLeadingSlashes fullPath). intros n.
  pose proof (joinWith_splitOn n) as Hjoin.
  pose proof (splitOn_noSlash n) as Hsegs.
  destruct (removelast_last (splitOn "/" n) (splitOn_not_nil "/" n))
    as (x & Hlast & Heq).
  rewrite Hlast. rewrite Heq in Hjoin, Hsegs.
  destruct (removelast (splitOn "/" n)) as [|y l] eqn:Hinit.
  - cbn [app joinWith] in Hjoin. subst x. split.
    + intros _. split; [by destruct (truthy n)|done].
    + intros Hslash. rewrite (Hsegs n) in Hslash; [done|by left].
  - rewrite joinWith_snoc in Hjoin by done. split.
    + intros Hslash. by rewrite <-Hjoin, noSlash_append_slash in Hslash.
    + intros _. exists x. split; [done|]. split; [|done].
      apply Hsegs. apply in_or_app. right. by left.
Qed.

(** ** The image lightbox *)

(** X18. With the index inside the images, both arrow keys keep it inside,
    each undoes the other, and the buttons do what the keys do; the
    expression that sets the index on opening returns the initial index
    unchanged, whatever it is. *)
Theorem lightbox_index_stays_in_range (images : nat) (index initial : Z) :
  (0 ≤ index < Z.of_nat images)%Z →
  (0 ≤ arrowRight (Z.of_nat images) index < Z.of_nat images)%Z
  ∧ (0 ≤ arrowLeft (Z.of_nat images) index < Z.of_nat images)%Z
  ∧ arrowLeft (Z.of_nat images) (arrowRight (Z.of_nat images) index) = index
  ∧ arrowRight (Z.of_nat images) (arrowLeft (Z.of_nat images) index) = index
  ∧ nextButton (Z.of_nat images) index = arrowRight (Z.of_nat images) index
  ∧ previousButton (Z.of_nat images) index
    = arrowLeft (Z.of_nat images) index
  ∧ lightboxOpenIndex initial = initial.
Proof.
  intros Hrange. set (n := Z.of_nat images) in *.
  assert (Hmax : Z.max n 1 = n) by lia.
  assert (Hright : ∀ i, (0 ≤ i < n)%Z →
            arrowRight n i = if decide (i + 1 = n)%Z then 0%Z else (i + 1)%Z).
  { intros i Hi. unfold arrowRight. rewrite Hmax. case_decide as Hlast.
    - rewrite Hlast. apply Z.rem_same. lia.
    - apply Z.rem_small. lia. }
  assert (Hleft : ∀ i, (0 ≤ i < n)%Z →
            arrowLeft n i = if decide (i = 0)%Z then (n - 1)%Z else (i - 1)%Z).
  { intros i Hi. unfold arrowLeft. rewrite Hmax. case_decide as Hfirst.
    - subst i. replace (0 - 1 + n)%Z with (n - 1)%Z by lia.
      apply Z.rem_small. lia.
    - rewrite Z.rem_mod_nonneg by lia.
      replace (i - 1 + n)%Z with (i - 1 + 1 * n)%Z by lia.
      rewrite Z.mod_add by lia. apply Z.mod_small. lia. }
  assert (Hr : (0 ≤ arrowRight n index < n)%Z).
  { rewrite Hright by done. case_decide; lia. }
  assert (Hl : (0 ≤ arrowLeft n index < n)%Z).
  { rewrite Hleft by done. case_decide; lia. }
  split; [done|]. split; [done|]. split; [|split; [|split; [|split]]].
  - rewrite (Hleft _ Hr), (Hright _ Hrange). repeat case_decide; lia.
  - rewrite (Hright _ Hl), (Hleft _ Hrange). repeat case_decide; lia.
  - unfold nextButton, arrowRight. by rewrite Hmax.
  - unfold previousButton, arrowLeft. by rewrite Hmax.
  - unfold lightboxOpenIndex. lia.
Qed.

Lemma lightbox_index_stays_in_range_witness :
  (0 ≤ 2 < Z.of_nat 3)%Z
  ∧ arrowRight (Z.of_nat 3) 2 = 0%Z
  ∧ arrowLeft (Z.of_nat 3) (arrowRight (Z.of_nat 3) 2) = 2%Z.
Proof.
  assert (H : (0 ≤ 2 < Z.of_nat 3)%Z) by (cbn; lia).
  split; [exact H|]. split; [reflexivity|].
  exact (proj1 (proj2 (proj2 (lightbox_index_stays_in_range 3 2 0 H)))).
Defined.

(** ** The paged file list *)

Section paging_facts.
Lemma limitAfter_value clicks :
  limitAfter clicks = INITIAL_LIMIT + clicks * LOAD_MORE_INCREMENT.
Proof.
  induction clicks as [|k IH]; [done|].
  change (limitAfter (S k)) with (loadMore (limitAfter k)).
  rewrite IH. unfold loadMore. lia.
Qed.
End paging_facts.

(** X19. The displayed files are always the first files of the filtered
    list; "Load more" is offered exactly while some file is hidden, the count
    it shows is the positive number of hidden files, and a click reveals
    fifty more of them or all that are left; once fifty plus fifty per click
    reaches the length of the list, everything is displayed. *)
Theorem load_more_reveals_the_list (files : list GitHubFile) (clicks : nat) :
  displayedFiles files (limitAfter clicks)
  ++ drop (limitAfter clicks) files = files
  ∧ length (displayedFiles files (limitAfter clicks))
    = min (50 + 50 * clicks) (length files)
  ∧ (hasMore files (limitAfter clicks) = true
     ↔ displayedFiles files (limitAfter clicks) ≠ files)
  ∧ (hasMore files (limitAfter clicks) = true →
     (0 < remainingCount files (limitAfter clicks))%Z
     ∧ (Z.of_nat (length (displayedFiles files (limitAfter clicks)))
        + remainingCount files (limitAfter clicks)
        = Z.of_nat (length files))%Z
     ∧ (Z.of_nat (length (displayedFiles files (loadMore (limitAfter clicks))))
        = Z.of_nat (length (displayedFiles files (limitAfter clicks)))
          + Z.min 50 (remainingCount files (limitAfter clicks)))%Z)
  ∧ (length files ≤ 50 + 50 * clicks →
     hasMore files (limitAfter clicks) = false
     ∧ displayedFiles files (limitAfter clicks) = files).
Proof.
  unfold displayedFiles, hasMore, remainingCount, loadMore.
  rewrite limitAfter_value. unfold INITIAL_LIMIT, LOAD_MORE_INCREMENT.
  set (limit := 50 + clicks * 50).
  split; [apply take_drop|]. split; [rewrite length_take; lia|].
  split; [|split].
  - rewrite Nat.ltb_lt. split.
    + intros Hlt Heq. apply (f_equal length) in Heq.
      rewrite length_take in Heq. lia.
    + intros Hne. destruct (decide (limit < length files)) as [|Hge]; [done|].
      exfalso. apply Hne. apply take_ge. lia.
  - rewrite Nat.ltb_lt, !length_take. lia.
  - intros Hle. split; [apply Nat.ltb_ge; lia|apply take_ge; lia].
Qed.

(** ** The expanded paths of the tree *)

Section toggle_facts.
Lemma toggleTreePath_elem path prev x :
  x ∈ toggleTreePath path prev ↔ (if decide (x = path) then x ∉ prev else x ∈ prev).
Proof.
  unfold toggleTreePath. cbn zeta.
  destruct (decide (path ∈ prev)) as [Hin|Hin];
    destruct (decide (x = path)) as [->|Hne].
  - rewrite elem_of_difference, elem_of_singleton. tauto.
  - rewrite elem_of_difference, elem_of_singleton. tauto.
  - rewrite elem_of_union, elem_of_singleton. tauto.
  - rewrite elem_of_union, elem_of_singleton. tauto.
Qed.
End toggle_facts.

(** X20. Toggling a path twice restores the set of expanded paths; a toggle
    changes the membership of that path and of no other; toggles of two
    paths commute. *)
Theorem toggleTreePath_involutive (path other : string) (prev : gset string) :
  toggleTreePath path (toggleTreePath path prev) = prev
  ∧ (path ∈ toggleTreePath path prev ↔ path ∉ prev)
  ∧ (other ≠ path → (other ∈ toggleTreePath path prev ↔ other ∈ prev))
  ∧ toggleTreePath path (toggleTreePath other prev)
    = toggleTreePath other (toggleTreePath path prev).
Proof.
  split; [|split; [|split]].
  - apply set_eq. intros x. rewrite toggleTreePath_elem.
    destruct (decide (x = path)); rewrite toggleTreePath_elem; case_decide; try done.
    destruct (decide (x ∈ prev)); tauto.
  - rewrite toggleTreePath_elem. by rewrite decide_True.
  - intros Hne. rewrite toggleTreePath_elem. by rewrite decide_False.
  - apply set_eq. intros x. rewrite !(toggleTreePath_elem _ (toggleTreePath _ _)).
    destruct (decide (x = path)), (decide (x = other));
      rewrite !toggleTreePath_elem; repeat case_decide; done.
Qed.

(** ** Text to speech *)

Section tts_facts.
Lemma ttsStep_exclusive st action :
  isPlaying st && isPaused st = false →
  isPlaying (ttsStep st action) && isPaused (ttsStep st action) = false.
Proof.
  intros Hst. destruct action; cbn; try done;
    by destruct (isSupported st).
Qed.

Lemma ttsStep_unsupported st action :
  isSupported st = false → isControl action = true → ttsStep st action = st.
Proof. intros Hs. destruct action; cbn; try done; by rewrite Hs. Qed.

Lemma ttsStep_isSupported st action :
  isSupported (ttsStep st action) = isSupported st.
Proof. by destruct st as [[] ? ?], action. Qed.
End tts_facts.

(** X21. The speech hook never reports playing and paused at once, whatever
    controls are used and whatever callbacks arrive; and where speech is not
    supported the four controls change nothing. *)
Theorem tts_never_playing_and_paused (actions : list TTSAction)
    (st : TTSState) :
  isPlaying st && isPaused st = false →
  isPlaying (ttsRun actions st) && isPaused (ttsRun actions st) = false
  ∧ (isSupported st = false → forallb isControl actions = true →
     ttsRun actions st = st).
Proof.
  unfold ttsRun. revert st.
  induction actions as [|action actions IH]; intros st Hst; [done|].
  cbn [foldl forallb].
  destruct (IH (ttsStep st action) (ttsStep_exclusive st action Hst))
    as [Hinv Hstay].
  split; [done|]. intros Hs [Hc Hcs]%andb_true_iff.
  rewrite (ttsStep_unsupported st action Hs Hc) in Hstay |- *. auto.
Qed.

Lemma tts_never_playing_and_paused_witness :
  isPlaying {| isSupported := true; isPlaying := false; isPaused := false |}
  && isPaused {| isSupported := true; isPlaying := false; isPaused := false |}
  = false
  ∧ isPlaying
      (ttsRun [Speak "hello"; OnStart; Pause; Resume; Stop; Pause]
         {| isSupported := true; isPlaying := false; isPaused := false |})
    && isPaused
         (ttsRun [Speak "hello"; OnStart; Pause; Resume; Stop; Pause]
            {| isSupported := true; isPlaying := false; isPaused := false |})
    = false.
Proof.
  assert (H : isPlaying
                {| isSupported := true; isPlaying := false;
                   isPaused := false |}
              && isPaused
                   {| isSupported := true; isPlaying := false;
                      isPaused := false |} = false) by reflexivity.
  split; [exact H|].
  exact (proj1 (tts_never_playing_and_paused
                  [Speak "hello"; OnStart; Pause; Resume; Stop; Pause] _ H)).
Defined.

(** ** The filtered knowledge tree *)

Section filtered_tree_facts.
Variable scope : FileFilterScope.
Variable hideEmpty : bool.

Lemma sameFields_refl n : sameFields n n.
Proof. by repeat split. Qed.

Lemma in_omap_filterNode m nodes :
  In m (omap (filterNode scope hideEmpty) nodes) →
  ∃ n, In n nodes ∧ filterNode scope hideEmpty n = Some m.
Proof.
  intros Hin. apply list_elem_of_In, list_elem_of_omap in Hin
    as (n & Hn & Hf).
  exists n. split; [by apply list_elem_of_In|done].
Qed.

Lemma filterNode_rendered expanded n :
  ∀ m k d0 d x,
    filterNode scope hideEmpty n = Some m →
    In (d, x) (renderTreeNode expanded d0 m) →
    (∃ d' y, In (d', y) (nodesAt k n) ∧ sameFields x y)
    ∧ (node_type x = TypeFile →
       shouldShowFile (plainFile (node_name x) (node_path x)) scope false []
       = true)
    ∧ (node_type x = TypeDir →
       ∃ kids, node_children x = Some kids ∧ (hideEmpty = true → kids ≠ [])).
Proof.
  induction n as [name path type children count level IH]
    using KnowledgeTreeNode_nested_ind.
  intros m k d0 d x Hf Hin. cbn [filterNode] in Hf. destruct type.
  - destruct (shouldShowFile (plainFile name path) scope false []) eqn:Hshow;
      [|done].
    injection Hf as <-. cbn [renderTreeNode node_type] in Hin.
    destruct Hin as [[= <- <-]|[]]. split; [|split; [done|done]].
    exists k, (mkNode name path TypeFile children count level).
    split; [by left|apply sameFields_refl].
  - destruct children as [nodes|]; [|done]. cbn zeta in Hf.
    set (kept := omap (filterNode scope hideEmpty) nodes) in *.
    assert (Hkids : ∃ kids,
              m = mkNode name path TypeDir (Some kids) count level
              ∧ (hideEmpty = true → kids ≠ [])
              ∧ ∀ c, In c kids → In c kept).
    { destruct (length kept =? 0) eqn:Hlen.
      - destruct hideEmpty; [done|]. injection Hf as <-.
        exists []. split; [done|]. split; [done|]. by intros c [].
      - injection Hf as <-. exists kept. split; [done|]. split; [|done].
        intros _ Hnil. by rewrite Hnil in Hlen. }
    destruct Hkids as (kids & -> & Hne & Hsub).
    cbn [renderTreeNode node_type node_children node_path] in Hin.
    destruct Hin as [[= <- <-]|Hin].
    + split; [|split; [done|]].
      * exists k, (mkNode name path TypeDir (Some nodes) count level).
        split; [by left|by repeat split].
      * intros _. by exists kids.
    + destruct (bool_decide (path ∈ expanded) && (0 <? length kids));
        [|done].
      apply in_flat_map in Hin as (c & Hc & Hin).
      apply Hsub, in_omap_filterNode in Hc as (n' & Hn' & Hfn').
      cbn [from_option] in IH. rewrite List.Forall_forall in IH.
      destruct (IH n' Hn' c (S k) (S d0) d x Hfn' Hin)
        as ((d' & y & Hy & Hsame) & Hfile & Hdir).
      split; [|done]. exists d', y. split; [|done].
      cbn [nodesAt node_children]. right. apply in_flat_map. by exists n'.
Qed.

Lemma omap_filterNode_fixed nodes :
  Forall (λ n, ∀ m, filterNode scope hideEmpty n = Some m →
                    filterNode scope hideEmpty m = Some m) nodes →
  omap (filterNode scope hideEmpty) (omap (filterNode scope hideEmpty) nodes)
  = omap (filterNode scope hideEmpty) nodes.
Proof.
  induction 1 as [|n rest Hn _ IH]; [done|].
  cbn [omap list_omap]. change (list_omap ?f ?l) with (omap f l).
  destruct (filterNode scope hideEmpty n) as [m|] eqn:Hf; [|done].
  cbn [omap list_omap]. change (list_omap ?f ?l) with (omap f l).
  by rewrite (Hn m eq_refl), IH.
Qed.

Lemma filterNode_fixed n m :
  filterNode scope hideEmpty n = Some m →
  filterNode scope hideEmpty m = Some m.
Proof.
  revert m.
  induction n as [name path type children count level IH]
    using KnowledgeTreeNode_nested_ind.
  intros m Hf. cbn [filterNode] in Hf. destruct type.
  - destruct (shouldShowFile (plainFile name path) scope false []) eqn:Hshow;
      [|done].
    injection Hf as <-. cbn [filterNode]. by rewrite Hshow.
  - destruct children as [nodes|]; [|done]. cbn zeta in Hf.
    cbn [from_option] in IH. apply omap_filterNode_fixed in IH.
    set (kept := omap (filterNode scope hideEmpty) nodes) in *.
    destruct (length kept =? 0) eqn:Hlen.
    + destruct hideEmpty eqn:Hhide; [done|]. injection Hf as <-.
      cbn [filterNode omap list_omap length Nat.eqb]. done.
    + injection Hf as <-. cbn [filterNode]. cbn zeta.
      by rewrite IH, Hlen.
Qed.

Lemma omap_filterNode_idempotent (nodes : list KnowledgeTreeNode) :
  omap (filterNode scope hideEmpty) (omap (filterNode scope hideEmpty) nodes)
  = omap (filterNode scope hideEmpty) nodes.
Proof.
  apply omap_filterNode_fixed, List.Forall_forall.
  intros n _ m. apply filterNode_fixed.
Qed.
End filtered_tree_facts.

Section unfiltered_tree_facts.
Lemma omap_Some_id (f : KnowledgeTreeNode → option KnowledgeTreeNode) nodes :
  Forall (λ n, f n = Some n) nodes → omap f nodes = nodes.
Proof.
  induction 1 as [|n rest Hn _ IH]; [done|].
  cbn [omap list_omap]. change (list_omap ?g ?l) with (omap g l).
  by rewrite Hn, IH.
Qed.

Lemma filterNode_all_id n :
  (∀ d m, In (d, m) (nodesAt 0 n) →
          node_type m = TypeDir → ∃ kids, node_children m = Some kids) →
  filterNode ScopeAll false n = Some n.
Proof.
  induction n as [name path type children count level IH]
    using KnowledgeTreeNode_nested_ind.
  intros Hdirs. cbn [filterNode]. destruct type; [done|].
  destruct (Hdirs 0 _ (or_introl eq_refl) eq_refl)
    as (kids & [= ->]).
  cbn zeta. cbn [from_option] in IH.
  assert (Hid : omap (filterNode ScopeAll false) kids = kids).
  { apply omap_Some_id. rewrite List.Forall_forall in IH |- *.
    intros c Hc. apply (IH c Hc). intros d m Hm.
    apply (Hdirs (S d) m). cbn [nodesAt node_children]. right.
    apply in_flat_map. exists c. split; [done|].
    clear -Hm. revert Hm. generalize 0 as k. revert d m.
    induction c as [name path type children count level IH]
      using KnowledgeTreeNode_nested_ind.
    intros d m k [[= <- <-]|Hin]; [by left|]. right.
    cbn [node_children] in *. destruct children as [nodes|]; [|done].
    cbn [from_option] in IH. rewrite List.Forall_forall in IH.
    apply in_flat_map in Hin as (c & Hc & Hin). apply in_flat_map.
    exists c. split; [done|]. by apply IH. }
  rewrite Hid. destruct kids; [done|]. done.
Qed.
End unfiltered_tree_facts.

(** X22. Every node drawn in the knowledge tree has the name, path, type,
    level and strand count of a node of the unfiltered tree; a file drawn
    passes the file filter of the current scope; a directory drawn has a
    list of children, not empty when empty folders are hidden. *)
Theorem rendered_tree_is_filtered (expanded : gset string)
    (tree : list KnowledgeTreeNode) (options : SearchOptions)
    (d : nat) (x : KnowledgeTreeNode) :
  In (d, x) (renderKnowledgeTree expanded tree options) →
  (∃ d' y, In (d', y) (forestNodes tree) ∧ sameFields x y)
  ∧ (node_type x = TypeFile →
     shouldShowFile (plainFile (node_name x) (node_path x))
       (filterScope options) false [] = true)
  ∧ (node_type x = TypeDir →
     ∃ kids, node_children x = Some kids
             ∧ (hideEmptyFolders options = true → kids ≠ [])).
Proof.
  unfold renderKnowledgeTree, filteredTree. intros Hin.
  apply in_flat_map in Hin as (m & Hm & Hin).
  apply in_omap_filterNode in Hm as (n & Hn & Hf).
  destruct (rootScope options).
  - destruct (List.find _ tree) as [w|] eqn:Hfind; [|done].
    apply find_some in Hfind as [Hw _].
    destruct (filterNode_rendered _ _ expanded n m 2 0 d x Hf Hin)
      as ((d' & y & Hy & Hsame) & Hrest).
    split; [|done]. exists d', y. split; [|done].
    unfold forestNodes. apply in_flat_map. exists w. split; [done|].
    destruct w as [wname wpath wtype [kids|] wcount wlevel]; [|done].
    unfold childrenOf in Hn. cbn [nodesAt node_children] in Hn |- *.
    right. apply in_flat_map. by exists n.
  - destruct (filterNode_rendered _ _ expanded n m 1 0 d x Hf Hin)
      as ((d' & y & Hy & Hsame) & Hrest).
    split; [|done]. exists d', y. split; [|done].
    unfold forestNodes. apply in_flat_map. by exists n.
Qed.

Lemma rendered_tree_is_filtered_witness :
  In (1, mkNode "intro.md" "weaves/intro.md" TypeFile None 1 Strand)
    (renderKnowledgeTree {["weaves"]} sampleTree strandsOfWholeTree)
  ∧ shouldShowFile (plainFile "intro.md" "weaves/intro.md") ScopeStrands
      false [] = true.
Proof.
  assert (H : In (1, mkNode "intro.md" "weaves/intro.md" TypeFile None 1
                       Strand)
                (renderKnowledgeTree {["weaves"]} sampleTree
                   strandsOfWholeTree)).
  { vm_compute. right. left. reflexivity. }
  split; [exact H|].
  exact (proj1 (proj2 (rendered_tree_is_filtered _ _ _ _ _ H)) eq_refl).
Defined.

(** X23. Over the whole tree, filtering is idempotent: the filtered tree
    filtered again with the same options is the filtered tree. *)
Theorem filteredTree_idempotent (tree : list KnowledgeTreeNode)
    (options : SearchOptions) :
  rootScope options = RootWeaves →
  filteredTree (filteredTree tree options) options
  = filteredTree tree options.
Proof.
  intros Hroot. unfold filteredTree. rewrite Hroot.
  apply omap_filterNode_idempotent.
Qed.

Lemma filteredTree_idempotent_witness :
  rootScope strandsOfWholeTree = RootWeaves
  ∧ filteredTree (filteredTree sampleTree strandsOfWholeTree)
      strandsOfWholeTree
    = filteredTree sampleTree strandsOfWholeTree.
Proof.
  split; [reflexivity|].
  exact (filteredTree_idempotent sampleTree strandsOfWholeTree eq_refl).
Defined.

(** X24. With the scope on all files, empty folders not hidden and the root
    on the whole tree, a tree whose directories all carry a list of children
    is shown as it is. *)
Theorem filteredTree_all_is_identity (tree : list KnowledgeTreeNode)
    (options : SearchOptions) :
  rootScope options = RootWeaves →
  filterScope options = ScopeAll →
  hideEmptyFolders options = false →
  (∀ d m, In (d, m) (flat_map (nodesAt 0) tree) →
          node_type m = TypeDir → ∃ kids, node_children m = Some kids) →
  filteredTree tree options = tree.
Proof.
  intros Hroot Hscope Hhide Hdirs. unfold filteredTree.
  rewrite Hroot, Hscope, Hhide. apply omap_Some_id, List.Forall_forall.
  intros n Hn. apply filterNode_all_id. intros d m Hm.
  apply (Hdirs d m). apply in_flat_map. by exists n.
Qed.

Lemma filteredTree_all_is_identity_witness :
  filteredTree sampleTree (setRootScope RootWeaves initialOptions)
  = sampleTree.
Proof.
  apply filteredTree_all_is_identity; [reflexivity..|].
  intros d m Hm Hdir. vm_compute in Hm.
  destruct Hm as [[= <- <-]|[[= <- <-]|[[= <- <-]|[[= <- <-]|[]]]]];
    try discriminate Hdir.
  by eexists.
Defined.

(** X25. With the root on the fabric, every node drawn lies below a
    top-level node whose path is [weaves]: the top-level nodes themselves,
    and whatever is beside that node, are not drawn; without such a node,
    nothing is. *)
Theorem fabric_scope_draws_weaves_only (expanded : gset string)
    (tree : list KnowledgeTreeNode) (options : SearchOptions) :
  rootScope options = RootFabric →
  (∀ d x, In (d, x) (renderKnowledgeTree expanded tree options) →
     ∃ w d' y, In w tree ∧ node_path w = "weaves"
               ∧ In (d', y) (flat_map (nodesAt 2) (childrenOf w))
               ∧ sameFields x y)
  ∧ ((∀ w, In w tree → node_path w ≠ "weaves") →
     renderKnowledgeTree expanded tree options = []).
Proof.
  intros Hroot. unfold renderKnowledgeTree, filteredTree. rewrite Hroot.
  destruct (List.find _ tree) as [w|] eqn:Hfind.
  - apply find_some in Hfind as [Hw Hpath%String.eqb_eq]. split.
    + intros d x Hin. apply in_flat_map in Hin as (m & Hm & Hin).
      apply in_omap_filterNode in Hm as (n & Hn & Hf).
      destruct (filterNode_rendered _ _ expanded n m 2 0 d x Hf Hin)
        as ((d' & y & Hy & Hsame) & _).
      exists w, d', y. split; [done|]. split; [done|]. split; [|done].
      apply in_flat_map. by exists n.
    + intros Hnone. by destruct (Hnone w Hw).
  - split; [by intros d x []|done].
Qed.

Lemma fabric_scope_draws_weaves_only_witness :
  rootScope initialOptions = RootFabric
  ∧ renderKnowledgeTree {["weaves"]}
      [mkNode "README.md" "README.md" TypeFile None 1 Strand] initialOptions
    = [].
Proof.
  split; [reflexivity|].
  apply (proj2 (fabric_scope_draws_weaves_only {["weaves"]}
                  [mkNode "README.md" "README.md" TypeFile None 1 Strand]
                  initialOptions eq_refl)).
  intros w [<-|[]]. discriminate.
Defined.

(** ** The options that do not filter *)

(** X26. In the search hook the filtered list ignores the content, scope,
    empty-folder and root options: toggling or setting them leaves the list
    as it is; and after [resetFilters] the list is the whole input. *)
Theorem filteredFiles_ignores_other_options (files : list GitHubFile)
    (options : SearchOptions) (scope : FileFilterScope)
    (root : NavigationRootScope) :
  filteredFiles files (toggleSearchContent options)
  = filteredFiles files options
  ∧ filteredFiles files (setFilterScope scope options)
    = filteredFiles files options
  ∧ filteredFiles files (toggleHideEmptyFolders options)
    = filteredFiles files options
  ∧ filteredFiles files (setRootScope root options)
    = filteredFiles files options
  ∧ filteredFiles files (resetFilters options) = files.
Proof.
  assert (Hq : ∀ o, filteredFiles files o
                    = if length files =? 0 then []
                      else if truthy (query o)
                           then List.filter
                                  (queryCallback o
                                     (if caseSensitive o then query o
                                      else toLowerCase (query o))) files
                           else files).
  { intros o. unfold filteredFiles. cbn zeta.
    by destruct (filterScope o), (hideEmptyFolders o). }
  rewrite !Hq. cbn [toggleSearchContent setFilterScope toggleHideEmptyFolders
                      setRootScope resetFilters query caseSensitive].
  split; [done|]. split; [done|]. split; [done|]. split; [done|].
  cbn [truthy]. by destruct files.
Qed.

(** ** The strip pass only deletes *)

Section strip_only_deletes.
Lemma replaceFrom_sublist skip s :
  sublist (list_ascii_of_string (replaceFrom skip s))
          (list_ascii_of_string s).
Proof.
  revert skip. induction s as [|c rest IH]; intros skip; [done|].
  destruct skip as [|k].
  - rewrite replaceFrom_unfold.
    destruct (matchLength (String c rest)) as [[|k]|];
      cbn [list_ascii_of_string].
    + by apply sublist_skip.
    + apply sublist_cons, IH.
    + by apply sublist_skip.
  - cbn [replaceFrom list_ascii_of_string]. apply sublist_cons, IH.
Qed.

Lemma length_list_ascii_of_string s :
  length (list_ascii_of_string s) = String.length s.
Proof. induction s as [|c rest IH]; [done|]. cbn. by rewrite IH. Qed.

Lemma replaceFrom_length skip s :
  String.length (replaceFrom skip s) ≤ String.length s.
Proof.
  rewrite <- !length_list_ascii_of_string.
  apply sublist_length, replaceFrom_sublist.
Qed.

Lemma replaceFrom_shorter s :
  containsFlag s = true →
  String.length (replaceFrom 0 s) < String.length s.
Proof.
  induction s as [|c rest IH]; [done|]. cbn [containsFlag].
  rewrite replaceFrom_unfold.
  destruct (matchLength (String c rest)) as [len|] eqn:Hm.
  - intros _. destruct (matchLength_Some _ _ Hm) as (t & _ & _ & _ & ->).
    replace (flagRun t + 4) with (S (flagRun t + 3)) by lia.
    pose proof (replaceFrom_length (flagRun t + 3) rest).
    cbn [String.length]. lia.
  - intros Hrest. cbn [String.length]. specialize (IH Hrest). lia.
Qed.
End strip_only_deletes.

(** X27. The strip pass only deletes: every text value after the pass is
    the value before it with some characters left out, in the same order;
    it is strictly shorter when the value held a flag and the same value
    when it held none. *)
Theorem strip_pass_only_deletes (tree : MdRoot) :
  Forall2 (λ after before,
             sublist (list_ascii_of_string after)
                     (list_ascii_of_string before)
             ∧ (if containsFlag before
                then String.length after < String.length before
                else after = before))
          (rootTextValues (transformer tree 0).1) (rootTextValues tree).
Proof.
  rewrite rootTextValues_transformer.
  induction (rootTextValues tree) as [|v rest IH]; [by constructor|].
  cbn [List.map]. constructor; [|done]. split; [apply replaceFrom_sublist|].
  destruct (containsFlag v) eqn:Hflag.
  - by apply replaceFrom_shorter.
  - by apply replaceFrom_unchanged.
Qed.

(** ** The knowledge graph *)

Section graph_facts.
Implicit Types (st : list GraphNode * list GraphEdge).

Lemma existsb_graph_id st s :
  existsb (λ n, String.eqb (graph_id n) s) st.1 = false → ¬ In s (graphIds st).
Proof.
  intros Hex (g & <- & Hg)%in_map_iff.
  assert (existsb (λ n, String.eqb (graph_id n) (graph_id g)) st.1 = true)
    as Htrue; [|congruence].
  apply existsb_exists. exists g. split; [done|]. apply String.eqb_refl.
Qed.

Lemma GraphInv_targets st e :
  GraphInv st → In e st.2 → In (edge_target e) (graphIds st).
Proof.
  intros (_ & _ & Hfwd) He. destruct (Hfwd e He) as (i & j & _ & _ & Hj).
  apply list_elem_of_In. by eapply list_elem_of_lookup_2.
Qed.

(** Pushing a node, with the edge from its parent if it has one. *)
Lemma GraphInv_push st node parentId :
  GraphInv st →
  ¬ In (nodeId node) (graphIds st) →
  (∀ p, parentId = Some p → truthy p = true → In p (graphIds st)) →
  GraphInv
    (st.1 ++ [graphNodeOf node],
     match parentId with
     | Some parent =>
         if truthy parent
         then st.2 ++ [{| edge_source := parent;
                          edge_target := nodeId node |}]
         else st.2
     | None => st.2
     end).
Proof.
  intros Hinv Hnew Hparent.
  pose proof (GraphInv_targets st) as Htargets.
  destruct Hinv as (Hids & Htgt & Hfwd).
  assert (Hids' : NoDup (graphIds (st.1 ++ [graphNodeOf node], st.2))).
  { unfold graphIds in *. cbn [fst]. rewrite List.map_app. cbn [List.map].
    apply NoDup_app. split; [done|]. split.
    - intros s Hs [<-|[]]%list_elem_of_In. by apply Hnew, list_elem_of_In.
    - apply NoDup_singleton. }
  assert (Hold : ∀ e, In e st.2 →
            ∃ i j, i < j
              ∧ (List.map graph_id (st.1 ++ [graphNodeOf node])) !! i
                = Some (edge_source e)
              ∧ (List.map graph_id (st.1 ++ [graphNodeOf node])) !! j
                = Some (edge_target e)).
  { intros e He. destruct (Hfwd e He) as (i & j & Hij & Hi & Hj).
    exists i, j. rewrite List.map_app. split; [done|].
    split; apply lookup_app_l_Some; done. }
  unfold GraphInv, graphIds in *. cbn [fst snd] in *.
  split; [done|].
  destruct parentId as [parent|]; [|by split].
  destruct (truthy parent) eqn:Htruthy; [|by split].
  split.
  - rewrite List.map_app. cbn [List.map edge_target].
    apply NoDup_app. split; [done|]. split; [|apply NoDup_singleton].
    intros s Hs [<-|[]]%list_elem_of_In.
    apply list_elem_of_In, in_map_iff in Hs as (e & He & Hin).
    apply Hnew. cbn [edge_target] in He. rewrite <- He. apply Htargets; [by split|done].
  - intros e [He|[<-|[]]]%in_app_or; [by apply Hold|].
    cbn [edge_source edge_target].
    specialize (Hparent parent eq_refl Htruthy).
    apply list_elem_of_In, list_elem_of_lookup_1 in Hparent as [i Hi].
    exists i, (length (List.map graph_id st.1)).
    split; [by apply lookup_lt_Some in Hi|].
    rewrite List.map_app. split; [by apply lookup_app_l_Some|].
    rewrite lookup_app_r by done. by rewrite Nat.sub_diag.
Qed.

Lemma traverse_unfold node parentId st :
  traverse node parentId st
  = if existsb (λ n, String.eqb (graph_id n) (nodeId node)) st.1 then st
    else
      let pushed :=
        (st.1 ++ [graphNodeOf node],
         match parentId with
         | Some parent =>
             if truthy parent
             then st.2 ++ [{| edge_source := parent;
                              edge_target := nodeId node |}]
             else st.2
         | None => st.2
         end) in
      match node_children node with
      | Some nodes =>
          fold_left (λ st child, traverse child (Some (nodeId node)) st)
            nodes pushed
      | None => pushed
      end.
Proof. by destruct node. Qed.

Lemma fold_traverse_inv nodes parentId :
  Forall (λ child, ∀ parentId st,
            GraphInv st →
            (∀ p, parentId = Some p → truthy p = true → In p (graphIds st)) →
            GraphInv (traverse child parentId st)
            ∧ ∃ more, (traverse child parentId st).1 = st.1 ++ more) nodes →
  ∀ st,
    GraphInv st →
    (∀ p, parentId = Some p → truthy p = true → In p (graphIds st)) →
    GraphInv (fold_left (λ st child, traverse child parentId st) nodes st)
    ∧ ∃ more,
        (fold_left (λ st child, traverse child parentId st) nodes st).1
        = st.1 ++ more.
Proof.
  induction 1 as [|child rest Hchild _ IHrest]; intros st Hinv Hparent.
  { split; [done|]. exists []. by rewrite app_nil_r. }
  cbn [fold_left].
  destruct (Hchild parentId st Hinv Hparent) as [Hinv' [more' Hm']].
  destruct (IHrest (traverse child parentId st) Hinv') as [Hinv'' [more Hm]].
  { intros p Hp Htruthy. unfold graphIds in *. rewrite Hm', List.map_app.
    apply in_or_app. left. by apply Hparent. }
  split; [done|]. exists (more' ++ more). by rewrite Hm, Hm', app_assoc.
Qed.

(** [traverse] keeps the invariant and only appends nodes. *)
Lemma traverse_inv node :
  ∀ parentId st,
    GraphInv st →
    (∀ p, parentId = Some p → truthy p = true → In p (graphIds st)) →
    GraphInv (traverse node parentId st)
    ∧ ∃ more, (traverse node parentId st).1 = st.1 ++ more.
Proof.
  induction node as [name path type children count level IH]
    using KnowledgeTreeNode_nested_ind.
  intros parentId st Hinv Hparent. rewrite traverse_unfold.
  set (node := mkNode name path type children count level) in *.
  destruct (existsb _ st.1) eqn:Hex.
  { split; [done|]. exists []. by rewrite app_nil_r. }
  apply existsb_graph_id in Hex.
  pose proof (GraphInv_push st node parentId Hinv Hex Hparent) as Hpush.
  cbn zeta. set (pushed := (st.1 ++ [graphNodeOf node], _)) in *.
  assert (Hself : In (nodeId node) (graphIds pushed)).
  { unfold graphIds, pushed. cbn [fst]. rewrite List.map_app.
    apply in_or_app. right. by left. }
  assert (Hmore : ∃ more, pushed.1 = st.1 ++ more) by (by eexists).
  clearbody pushed. unfold node at 1. cbn [node_children].
  destruct children as [nodes|]; [|done]. cbn [from_option] in IH.
  destruct (fold_traverse_inv nodes (Some (nodeId node)) IH pushed Hpush)
    as [Hinv' [more' Hm']].
  { by intros p [= <-] _. }
  split; [done|]. destruct Hmore as [more Hm]. exists (more ++ more').
  rewrite app_assoc, <- Hm. exact Hm'.
Qed.

Lemma fold_traverse_origin nodes parentId k :
  Forall (λ child, ∀ k parentId st g,
            In g (traverse child parentId st).1 →
            In g st.1
            ∨ ∃ d t, In (d, t) (nodesAt k child) ∧ g = graphNodeOf t) nodes →
  ∀ st g,
    In g (fold_left (λ st child, traverse child parentId st) nodes st).1 →
    In g st.1
    ∨ ∃ d t, In (d, t) (flat_map (nodesAt k) nodes) ∧ g = graphNodeOf t.
Proof.
  induction 1 as [|child rest Hchild _ IHrest]; intros st g Hg; [by left|].
  cbn [fold_left] in Hg.
  destruct (IHrest _ _ Hg) as [Hold|(d & t & Ht & ->)].
  - destruct (Hchild k parentId st g Hold) as [?|(d & t & Ht & ->)];
      [by left|].
    right. exists d, t. split; [|done]. cbn [flat_map]. apply in_or_app.
    by left.
  - right. exists d, t. split; [|done]. cbn [flat_map]. apply in_or_app.
    by right.
Qed.

(** Every node pushed is the graph node of a node of the tree. *)
Lemma traverse_origin node :
  ∀ k parentId st g,
    In g (traverse node parentId st).1 →
    In g st.1 ∨ ∃ d t, In (d, t) (nodesAt k node) ∧ g = graphNodeOf t.
Proof.
  induction node as [name path type children count level IH]
    using KnowledgeTreeNode_nested_ind.
  intros k parentId st g. rewrite traverse_unfold.
  set (node := mkNode name path type children count level) in *.
  destruct (existsb _ st.1); [by left|].
  cbn zeta. set (pushed := (st.1 ++ [graphNodeOf node], _)).
  assert (Hpushed : ∀ g, In g pushed.1 →
            In g st.1 ∨ ∃ d t, In (d, t) (nodesAt k node) ∧ g = graphNodeOf t).
  { intros g' [Hg|[<-|[]]]%in_app_or; [by left|]. right.
    exists k, node. split; [by left|done]. }
  clearbody pushed. unfold node at 1. cbn [node_children].
  destruct children as [nodes|]; [|by apply Hpushed].
  cbn [from_option] in IH. intros Hg.
  destruct (fold_traverse_origin nodes (Some (nodeId node)) (S k) IH
              pushed g Hg) as [Hold|(d & t & Ht & ->)];
    [by apply Hpushed|].
  right. exists d, t. split; [|done]. by right.
Qed.
End graph_facts.

(** X28. The graph built from the knowledge tree has no identifier twice
    and no node that is the target of two edges; every edge goes from a node
    to a node pushed after it, so the edges form a forest over the nodes;
    and every graph node carries the identifier, label, level, radius and
    path computed from one node of the tree. *)
Theorem buildGraph_is_forest (tree : option (list KnowledgeTreeNode)) :
  NoDup (List.map graph_id (buildGraph tree).1)
  ∧ NoDup (List.map edge_target (buildGraph tree).2)
  ∧ (∀ e, In e (buildGraph tree).2 →
       ∃ i j, i < j
         ∧ List.map graph_id (buildGraph tree).1 !! i = Some (edge_source e)
         ∧ List.map graph_id (buildGraph tree).1 !! j = Some (edge_target e))
  ∧ (∀ g, In g (buildGraph tree).1 →
       ∃ roots d t, tree = Some roots ∧ In (d, t) (forestNodes roots)
                    ∧ g = graphNodeOf t).
Proof.
  assert (Hempty : GraphInv ([], [])).
  { split; [apply NoDup_nil_2|]. split; [apply NoDup_nil_2|]. by intros e []. }
  destruct tree as [roots|]; cbn [buildGraph].
  - assert (Hall : ∀ (P : KnowledgeTreeNode → Prop),
              (∀ n, P n) → Forall P roots).
    { intros P HP. apply List.Forall_forall. by intros n _. }
    destruct (fold_traverse_inv roots None
                (Hall _ (λ n, traverse_inv n)) ([], []) Hempty)
      as [(Hids & Htgt & Hfwd) _]; [done|].
    split; [done|]. split; [done|]. split; [done|].
    intros g Hg.
    destruct (fold_traverse_origin roots None 1
                (Hall _ (λ n, traverse_origin n)) ([], []) g Hg)
      as [[]|(d & t & Ht & ->)].
    by exists roots, d, t.
  - destruct Hempty as (Hids & Htgt & Hfwd).
    split; [done|]. split; [done|]. split; [done|]. by intros g [].
Qed.

Section graph_coverage.
Implicit Types (st : list GraphNode * list GraphEdge).

Lemma existsb_graph_id_false st s :
  ¬ In s (graphIds st) →
  existsb (λ n, String.eqb (graph_id n) s) st.1 = false.
Proof.
  intros Hnot. destruct (existsb _ st.1) eqn:Hex; [|done].
  apply existsb_exists in Hex as (g & Hg & Heq%String.eqb_eq).
  destruct Hnot. apply in_map_iff. by exists g.
Qed.

Lemma fold_traverse_all nodes parentId k :
  Forall (λ child, ∀ k parentId st,
            NoDup (graphIds st
                   ++ List.map (λ dn, nodeId dn.2) (nodesAt k child)) →
            (traverse child parentId st).1
            = st.1 ++ List.map (λ dn, graphNodeOf dn.2) (nodesAt k child))
         nodes →
  ∀ st,
    NoDup (graphIds st
           ++ List.map (λ dn, nodeId dn.2) (flat_map (nodesAt k) nodes)) →
    (fold_left (λ st child, traverse child parentId st) nodes st).1
    = st.1 ++ List.map (λ dn, graphNodeOf dn.2) (flat_map (nodesAt k) nodes).
Proof.
  induction 1 as [|child rest Hchild _ IHrest]; intros st Hnodup.
  { cbn. by rewrite app_nil_r. }
  cbn [fold_left flat_map] in *.
  rewrite List.map_app, app_assoc in Hnodup.
  assert (Hfirst : (traverse child parentId st).1
            = st.1 ++ List.map (λ dn, graphNodeOf dn.2) (nodesAt k child)).
  { apply Hchild. by apply NoDup_app in Hnodup as [? _]. }
  rewrite IHrest.
  - by rewrite Hfirst, List.map_app, app_assoc.
  - unfold graphIds in *. rewrite Hfirst, List.map_app, List.map_map.
    exact Hnodup.
Qed.

Lemma traverse_all node :
  ∀ k parentId st,
    NoDup (graphIds st ++ List.map (λ dn, nodeId dn.2) (nodesAt k node)) →
    (traverse node parentId st).1
    = st.1 ++ List.map (λ dn, graphNodeOf dn.2) (nodesAt k node).
Proof.
  induction node as [name path type children count level IH]
    using KnowledgeTreeNode_nested_ind.
  intros k parentId st. rewrite traverse_unfold.
  set (node := mkNode name path type children count level) in *.
  change (nodesAt k node)
    with ((k, node)
          :: match children with
             | Some nodes => flat_map (nodesAt (S k)) nodes
             | None => []
             end).
  cbn [List.map snd]. intros Hnodup.
  rewrite existsb_graph_id_false.
  2:{ apply NoDup_app in Hnodup as (_ & Hdisj & _). intros Hin.
      apply (Hdisj (nodeId node)); [by apply list_elem_of_In|]. by left. }
  cbn zeta. set (pushed := (st.1 ++ [graphNodeOf node], _)).
  assert (Hpushed : pushed.1 = st.1 ++ [graphNodeOf node]) by done.
  clearbody pushed. unfold node at 1. cbn [node_children].
  destruct children as [nodes|].
  - cbn [from_option] in IH.
    rewrite (fold_traverse_all nodes (Some (nodeId node)) (S k) IH).
    + by rewrite Hpushed, <- app_assoc.
    + unfold graphIds in *. rewrite Hpushed, List.map_app, <- app_assoc.
      exact Hnodup.
  - by rewrite Hpushed.
Qed.
End graph_coverage.

(** X29. When the nodes of the tree have pairwise distinct identifiers, the
    graph has one node for every node of the tree, in the order of a
    depth-first walk. *)
Theorem buildGraph_covers_tree (roots : list KnowledgeTreeNode) :
  NoDup (List.map (λ dn, nodeId dn.2) (forestNodes roots)) →
  (buildGraph (Some roots)).1
  = List.map (λ dn, graphNodeOf dn.2) (forestNodes roots).
Proof.
  intros Hnodup. cbn [buildGraph]. unfold forestNodes in *.
  rewrite (fold_traverse_all roots None 1); [done| |done].
  apply List.Forall_forall. intros n _. apply traverse_all.
Qed.

Lemma buildGraph_covers_tree_witness :
  NoDup (List.map (λ dn, nodeId dn.2) (forestNodes sampleTree))
  ∧ List.map graph_id (buildGraph (Some sampleTree)).1
    = ["weaves"; "weaves/intro.md"; "weaves/logo.png"; "README.md"].
Proof.
  assert (H : NoDup (List.map (λ dn, nodeId dn.2) (forestNodes sampleTree))).
  { apply (bool_decide_unpack _). by vm_compute. }
  split; [exact H|]. by rewrite (buildGraph_covers_tree sampleTree H).
Defined.

(** ** The links between strands *)

Section link_facts.
Implicit Types (s p t a b seg : string).
Variable matchAt : string → option nat.
Variable replacement : string.

Lemma replaceAll_unfold c rest :
  replaceAll matchAt replacement 0 (String c rest)
  = match matchAt (String c rest) with
    | Some (S k) => replacement +:+ replaceAll matchAt replacement k rest
    | _ => String c (replaceAll matchAt replacement 0 rest)
    end.
Proof. reflexivity. Qed.

Lemma replaceAll_skip k s :
  replaceAll matchAt replacement k s
  = replaceAll matchAt replacement 0 (dropString k s).
Proof.
  revert k. induction s as [|c rest IH]; intros [|k]; try done.
  cbn [replaceAll dropString]. apply IH.
Qed.

(** A prefix in which no match starts is copied. *)
Lemma replaceAll_prefix p t :
  (∀ a b, p = a +:+ b → b ≠ "" → matchAt (b +:+ t) = None) →
  replaceAll matchAt replacement 0 (p +:+ t)
  = p +:+ replaceAll matchAt replacement 0 t.
Proof.
  induction p as [|c rest IH]; intros Hnone; [done|].
  rewrite !append_cons, replaceAll_unfold, <- append_cons.
  rewrite (Hnone "" (String c rest)) by done.
  rewrite IH; [done|]. intros a b -> Hb.
  apply (Hnone (String c a) b); [|done]. by rewrite append_cons.
Qed.

(** A string in which no match starts is left as it is. *)
Lemma replaceAll_none s :
  (∀ a b, s = a +:+ b → matchAt b = None) →
  replaceAll matchAt replacement 0 s = s.
Proof.
  intros Hnone. rewrite <- (append_nil_r s) at 1.
  rewrite replaceAll_prefix; [by rewrite append_nil_r|].
  intros a b Hs _. rewrite append_nil_r. by apply (Hnone a).
Qed.

Lemma replaceAll_match s n t :
  matchAt (s +:+ t) = Some n → String.length s = n → 0 < n →
  replaceAll matchAt replacement 0 (s +:+ t)
  = replacement +:+ replaceAll matchAt replacement 0 t.
Proof.
  intros Hm Hlen Hpos. destruct s as [|c rest]; [cbn in Hlen; lia|].
  rewrite append_cons in Hm |- *. rewrite replaceAll_unfold, Hm.
  destruct n as [|k]; [lia|]. f_equal. rewrite replaceAll_skip. f_equal.
  cbn [String.length] in Hlen. injection Hlen as <-.
  clear. induction rest as [|c rest IH]; [done|].
  rewrite append_cons. apply IH.
Qed.
End link_facts.

Section segment_facts.
Implicit Types (s p t a b seg : string).

Lemma append_nil_l s : "" +:+ s = s.
Proof. reflexivity. Qed.

Lemma startsWith_cons c s c' q :
  startsWith (String c s) (String c' q) = Ascii.eqb c c' && startsWith s q.
Proof. reflexivity. Qed.

Lemma includes_prefix s t q : includes s q = true → includes (s +:+ t) q = true.
Proof.
  intros (a & b & ->)%includes_append. apply includes_append.
  exists a, (b +:+ t). by rewrite !append_assoc.
Qed.

Lemma includes_false_prefix s t q :
  includes (s +:+ t) q = false → includes s q = false.
Proof.
  intros H. destruct (includes s q) eqn:Hs; [|done].
  by rewrite (includes_prefix s t q Hs) in H.
Qed.

Lemma includes_false_suffix s t q :
  includes (s +:+ t) q = false → includes t q = false.
Proof.
  intros H. destruct (includes t q) eqn:Ht; [|done].
  by rewrite (includes_append_r s t q Ht) in H.
Qed.

Lemma includes_false_weaken s q q' :
  includes q q' = true → includes s q' = false → includes s q = false.
Proof.
  intros Hq H. destruct (includes s q) eqn:Hs; [|done].
  by rewrite (includes_trans s q q' Hs Hq) in H.
Qed.

Lemma matchDotSegment_includes s n :
  matchDotSegment s = Some n → includes s "/./" = true.
Proof.
  unfold matchDotSegment. destruct (startsWith s "/./") eqn:H; [|done].
  intros _. destruct s; cbn [includes]; by rewrite H.
Qed.

(** No [/./] starts in a part without [/.] that is followed by a slash. *)
Lemma matchDotSegment_prefix p t a b :
  includes p "/." = false → p = a +:+ b → b ≠ "" →
  matchDotSegment (b +:+ "/" +:+ t) = None.
Proof.
  intros Hp -> Hb. apply includes_false_suffix in Hp.
  unfold matchDotSegment.
  destruct (startsWith (b +:+ "/" +:+ t) "/./") eqn:Hs; [|done]. exfalso.
  destruct b as [|c [|c' b']]; [done| |].
  - rewrite !append_cons, append_nil_l in Hs. cbn in Hs.
    by rewrite andb_false_r in Hs.
  - rewrite !append_cons in Hs. cbn [startsWith] in Hs.
    apply andb_true_iff in Hs as [Hc [Hc' _]%andb_true_iff].
    apply Ascii.eqb_eq in Hc as ->. apply Ascii.eqb_eq in Hc' as ->.
    cbn in Hp. done.
Qed.

Lemma segmentRun_noSlash seg t :
  noSlash seg = true →
  segmentRun (seg +:+ "/" +:+ t) = String.length seg
  ∧ dropString (String.length seg) (seg +:+ "/" +:+ t) = "/" +:+ t.
Proof.
  unfold noSlash. induction seg as [|c rest IH]; [done|].
  rewrite append_cons. cbn [includes startsWith segmentRun String.length
                             dropString].
  destruct (Ascii.eqb c "/") eqn:Hc; [done|].
  cbn [andb orb]. intros Hrest. destruct (IH Hrest) as [-> ->]. done.
Qed.

(** The first slash of a string, if it has one. *)
Lemma first_slash s :
  noSlash s = true
  ∨ ∃ seg t, s = seg +:+ "/" +:+ t ∧ noSlash seg = true.
Proof.
  induction s as [|c rest IH]; [by left|].
  destruct (Ascii.eqb c "/") eqn:Hc.
  - apply Ascii.eqb_eq in Hc as ->. right. by exists "", rest.
  - destruct IH as [Hno|(seg & t & -> & Hseg)].
    + left. unfold noSlash in *. cbn [includes startsWith].
      by rewrite Hc.
    + right. exists (String c seg), t. split; [by rewrite append_cons|].
      unfold noSlash in *. cbn [includes startsWith]. by rewrite Hc.
Qed.

Lemma matchParentSegment_includes s n :
  matchParentSegment s = Some n → includes s "/../" = true.
Proof.
  destruct s as [|c rest]; [done|]. cbn [matchParentSegment].
  destruct (Ascii.eqb c "/") eqn:Hc; [|done]. cbn zeta.
  destruct (0 <? segmentRun rest); [|done]. cbn [andb].
  destruct (startsWith _ "/../") eqn:Hs; [|done]. intros _.
  apply startsWith_append in Hs as [b Hb].
  apply includes_append.
  assert (Hdrop : ∀ k t, ∃ a, t = a +:+ dropString k t).
  { clear. intros k t. revert k. induction t as [|c t IH]; intros [|k].
    - by exists "".
    - by exists "".
    - by exists "".
    - destruct (IH k) as [a Ha]. exists (String c a).
      cbn [dropString]. by rewrite append_cons, <- Ha. }
  destruct (Hdrop (segmentRun rest) rest) as [a Ha].
  exists (String c a), b. rewrite append_cons. f_equal.
  by rewrite Ha at 1; rewrite Hb.
Qed.

(** No [/seg/../] starts in a part without [/.] that is followed by a slash
    and something other than [../]. *)
Lemma matchParentSegment_prefix p t a b :
  includes p "/." = false →
  startsWith t "../" = false →
  p = a +:+ b → b ≠ "" →
  matchParentSegment (b +:+ "/" +:+ t) = None.
Proof.
  intros Hp Ht -> Hb. apply includes_false_suffix in Hp.
  destruct b as [|c b']; [done|]. clear Hb. rewrite append_cons.
  cbn [matchParentSegment]. destruct (Ascii.eqb c "/") eqn:Hc; [|done].
  apply Ascii.eqb_eq in Hc as ->. cbn zeta.
  destruct (0 <? _); [|done]. cbn [andb].
  destruct (startsWith _ "/../") eqn:Hs; [|done]. exfalso.
  destruct (first_slash b') as [Hno|(seg & u & -> & Hseg)].
  - destruct (segmentRun_noSlash b' t Hno) as [Hrun Hdrop].
    rewrite Hrun, Hdrop in Hs. rewrite append_cons, append_nil_l in Hs.
    rewrite startsWith_cons, Ht in Hs. by rewrite andb_false_r in Hs.
  - rewrite !append_assoc in Hs.
    destruct (segmentRun_noSlash seg (u +:+ "/" +:+ t) Hseg) as [Hrun Hdrop].
    rewrite Hrun, Hdrop in Hs. rewrite append_cons, append_nil_l in Hs.
    rewrite startsWith_cons in Hs. apply andb_true_iff in Hs as [_ Hs].
    destruct u as [|c u'].
    + rewrite append_nil_l, append_cons, startsWith_cons in Hs. done.
    + rewrite append_cons, startsWith_cons in Hs.
      apply andb_true_iff in Hs as [Hc _]. apply Ascii.eqb_eq in Hc as ->.
      assert (Hdot : includes (String "/" (seg +:+ "/" +:+ String "." u'))
                       "/." = true); [|congruence].
      apply includes_append. exists (String "/" seg), u'.
      by rewrite (append_cons _ seg).
Qed.

Lemma noSlash_suffix_head p a c b :
  noSlash p = true → p = a +:+ String c b → Ascii.eqb c "/" = false.
Proof.
  unfold noSlash. intros Hp ->. destruct (Ascii.eqb c "/") eqn:Hc; [|done].
  apply Ascii.eqb_eq in Hc as ->. exfalso.
  assert (includes (a +:+ String "/" b) "/" = true) as H;
    [|by rewrite H in Hp].
  apply includes_append. by exists a, b.
Qed.

Lemma matchDotSegment_noSlash p t a b :
  noSlash p = true → p = a +:+ b → b ≠ "" → matchDotSegment (b +:+ t) = None.
Proof.
  intros Hp Hab Hb. destruct b as [|c b']; [done|].
  rewrite append_cons. unfold matchDotSegment.
  by rewrite startsWith_cons, (noSlash_suffix_head p a c b' Hp Hab).
Qed.

Lemma matchParentSegment_noSlash p t a b :
  noSlash p = true → p = a +:+ b → b ≠ "" →
  matchParentSegment (b +:+ t) = None.
Proof.
  intros Hp Hab Hb. destruct b as [|c b']; [done|].
  rewrite append_cons. cbn [matchParentSegment].
  by rewrite (noSlash_suffix_head p a c b' Hp Hab).
Qed.

Lemma length_append s t :
  String.length (s +:+ t) = String.length s + String.length t.
Proof.
  induction s as [|c rest IH]; [done|].
  rewrite append_cons. cbn [String.length]. by rewrite IH.
Qed.

(** The match at a segment followed by [/../]. *)
Lemma matchParentSegment_segment seg t :
  noSlash seg = true → truthy seg = true →
  matchParentSegment (String "/" (seg +:+ "/" +:+ "../" +:+ t))
  = Some (String.length seg + 5).
Proof.
  intros Hseg Hne. cbn [matchParentSegment]. cbn zeta.
  change (Ascii.eqb "/" "/") with true. cbn match.
  destruct (segmentRun_noSlash seg ("../" +:+ t) Hseg) as [-> ->].
  destruct seg as [|c seg']; [done|]. by cbn [String.length Nat.ltb Nat.leb].
Qed.

(** The two passes leave a string without a match as it is. *)
Lemma replaceAll_no_dot_segment s :
  includes s "/./" = false → replaceAll matchDotSegment "/" 0 s = s.
Proof.
  intros Hs. apply replaceAll_none. intros a b ->.
  destruct (matchDotSegment b) as [n|] eqn:Hm; [|done].
  apply matchDotSegment_includes in Hm.
  by rewrite (includes_append_r a b _ Hm) in Hs.
Qed.

Lemma replaceAll_no_parent_segment s :
  includes s "/../" = false → replaceAll matchParentSegment "/" 0 s = s.
Proof.
  intros Hs. apply replaceAll_none. intros a b ->.
  destruct (matchParentSegment b) as [n|] eqn:Hm; [|done].
  apply matchParentSegment_includes in Hm.
  by rewrite (includes_append_r a b _ Hm) in Hs.
Qed.

Lemma includes_startsWith_false s q :
  includes s q = false → startsWith s q = false.
Proof. destruct s; cbn [includes]; by intros [? _]%orb_false_iff. Qed.

(** A link [../name] from [dir/seg]. *)
Lemma normalizedPath_parent dir seg name :
  includes (dir +:+ "/" +:+ seg) "/." = false →
  noSlash seg = true → truthy seg = true →
  includes ("/" +:+ name) "/./" = false →
  includes name "/../" = false →
  normalizedPath (linkedPath (dir +:+ "/" +:+ seg) ("../" +:+ name))
  = dir +:+ "/" +:+ name.
Proof.
  intros H1 H2 H3 H4 H5. unfold normalizedPath, linkedPath.
  rewrite (replaceAll_prefix _ _ (dir +:+ "/" +:+ seg)).
  2:{ intros a b Hab Hb.
      apply (matchDotSegment_prefix _ ("../" +:+ name) a b H1 Hab Hb). }
  change (replaceAll matchDotSegment "/" 0 ("/" +:+ "../" +:+ name))
    with ("/.." +:+ replaceAll matchDotSegment "/" 0 ("/" +:+ name)).
  rewrite (replaceAll_no_dot_segment _ H4).
  change ("/.." +:+ "/" +:+ name) with ("/" +:+ "../" +:+ name).
  rewrite append_assoc.
  rewrite (replaceAll_prefix _ _ dir).
  2:{ intros a b Hab Hb. rewrite append_assoc.
      apply (matchParentSegment_prefix dir _ a b); [| |done..].
      - by apply includes_false_prefix in H1.
      - destruct seg as [|c seg']; [done|].
        rewrite append_cons, startsWith_cons.
        destruct (Ascii.eqb c ".") eqn:Hc; [|done].
        apply Ascii.eqb_eq in Hc as ->. exfalso.
        assert (includes (dir +:+ "/" +:+ String "." seg') "/." = true) as H;
          [|by rewrite H in H1].
        apply includes_append. exists dir, seg'. by rewrite !append_cons. }
  f_equal. rewrite append_assoc.
  change ("/" +:+ seg +:+ "/" +:+ "../" +:+ name)
    with (String "/" (seg +:+ "/" +:+ "../" +:+ name)).
  rewrite replaceAll_unfold, (matchParentSegment_segment seg name H2 H3).
  replace (String.length seg + 5) with (S (String.length seg + 4)) by lia.
  f_equal. rewrite replaceAll_skip.
  replace (dropString (String.length seg + 4)
             (seg +:+ "/" +:+ "../" +:+ name)) with name.
  - by apply replaceAll_no_parent_segment.
  - clear. induction seg as [|c seg IH]; [done|].
    rewrite append_cons. cbn [String.length Nat.add dropString]. apply IH.
Qed.
End segment_facts.

(** X30. How a link between strands is resolved when no segment of
    [name] begins with a dot.  [./name] from a directory leads to [name] in
    that directory, and [../name] from [dir/seg] to [name] in [dir].  Only
    one level is resolved: [../../name] from [dir/seg] leads to
    [dir/../name].  From a top-level directory [../name] is left as it is,
    and [../../name] leads to [name] inside that very directory. *)
Theorem wiki_link_resolution (currentPath dir seg name : string) :
  includes ("/" +:+ name) "/." = false →
  (includes currentPath "/." = false →
   normalizedPath (linkedPath currentPath ("./" +:+ name))
   = currentPath +:+ "/" +:+ name)
  ∧ (includes (dir +:+ "/" +:+ seg) "/." = false →
     noSlash seg = true → truthy seg = true →
     normalizedPath (linkedPath (dir +:+ "/" +:+ seg) ("../" +:+ name))
     = dir +:+ "/" +:+ name
     ∧ normalizedPath (linkedPath (dir +:+ "/" +:+ seg) ("../../" +:+ name))
       = dir +:+ "/../" +:+ name)
  ∧ (noSlash currentPath = true →
     normalizedPath (linkedPath currentPath ("../" +:+ name))
     = currentPath +:+ "/../" +:+ name
     ∧ normalizedPath (linkedPath currentPath ("../../" +:+ name))
       = currentPath +:+ "/" +:+ name).
Proof.
  intros Hname.
  assert (Hdot : includes ("/" +:+ name) "/./" = false)
    by (by apply (includes_false_weaken _ "/./" "/.")).
  assert (Hparent : includes ("/" +:+ name) "/../" = false)
    by (by apply (includes_false_weaken _ "/../" "/.")).
  assert (Hdot' : includes name "/./" = false)
    by (by apply (includes_false_suffix "/")).
  assert (Hparent' : includes name "/../" = false)
    by (by apply (includes_false_suffix "/")).
  split; [|split].
  - intros Hcp. unfold normalizedPath, linkedPath.
    rewrite (replaceAll_prefix _ _ currentPath).
    2:{ intros a b Hab Hb.
        apply (matchDotSegment_prefix _ ("./" +:+ name) a b Hcp Hab Hb). }
    change (replaceAll matchDotSegment "/" 0 ("/" +:+ "./" +:+ name))
      with ("/" +:+ replaceAll matchDotSegment "/" 0 name).
    rewrite (replaceAll_no_dot_segment name Hdot').
    rewrite (replaceAll_prefix _ _ currentPath).
    2:{ intros a b Hab Hb.
        apply (matchParentSegment_prefix currentPath name a b);
          [done| |done..].
        destruct (startsWith name "../") eqn:Hs; [|done].
        apply startsWith_append in Hs as [r ->]. done. }
    f_equal. by apply replaceAll_no_parent_segment.
  - intros H1 H2 H3. split; [by apply normalizedPath_parent|].
    change ("../../" +:+ name) with ("../" +:+ "../" +:+ name).
    rewrite (normalizedPath_parent dir seg ("../" +:+ name)); done.
  - intros Hcp. unfold normalizedPath, linkedPath. split.
    + rewrite (replaceAll_prefix _ _ currentPath)
        by (intros a b; by apply matchDotSegment_noSlash).
      change (replaceAll matchDotSegment "/" 0 ("/" +:+ "../" +:+ name))
        with ("/.." +:+ replaceAll matchDotSegment "/" 0 ("/" +:+ name)).
      rewrite (replaceAll_no_dot_segment _ Hdot).
      rewrite (replaceAll_prefix _ _ currentPath)
        by (intros a b; by apply matchParentSegment_noSlash).
      f_equal.
      change ("/.." +:+ "/" +:+ name)
        with (String "/" (String "." (String "." ("/" +:+ name)))).
      rewrite replaceAll_unfold.
      change (matchParentSegment
                (String "/" (String "." (String "." ("/" +:+ name)))))
        with (if startsWith ("/" +:+ name) "/../" then Some 7 else None).
      rewrite (includes_startsWith_false _ _ Hparent).
      change (replaceAll matchParentSegment "/" 0
                (String "." (String "." ("/" +:+ name))))
        with (".." +:+ replaceAll matchParentSegment "/" 0 ("/" +:+ name)).
      by rewrite (replaceAll_no_parent_segment _ Hparent).
    + rewrite (replaceAll_prefix _ _ currentPath)
        by (intros a b; by apply matchDotSegment_noSlash).
      change (replaceAll matchDotSegment "/" 0 ("/" +:+ "../../" +:+ name))
        with ("/../.." +:+ replaceAll matchDotSegment "/" 0 ("/" +:+ name)).
      rewrite (replaceAll_no_dot_segment _ Hdot).
      rewrite (replaceAll_prefix _ _ currentPath)
        by (intros a b; by apply matchParentSegment_noSlash).
      f_equal.
      change (replaceAll matchParentSegment "/" 0
                ("/../.." +:+ "/" +:+ name))
        with ("/" +:+ replaceAll matchParentSegment "/" 0 name).
      by rewrite (replaceAll_no_parent_segment _ Hparent').
Qed.

Lemma wiki_link_resolution_witness :
  includes ("/" +:+ "intro.md") "/." = false
  ∧ normalizedPath (linkedPath "weaves/frame" "../intro.md")
    = "weaves/intro.md"
  ∧ normalizedPath (linkedPath "weaves/frame" "../../intro.md")
    = "weaves/../intro.md"
  ∧ normalizedPath (linkedPath "weaves" "../../intro.md")
    = "weaves/intro.md".
Proof.
  assert (H : includes ("/" +:+ "intro.md") "/." = false) by reflexivity.
  split; [exact H|].
  destruct (wiki_link_resolution "weaves" "weaves" "frame" "intro.md" H)
    as (_ & Hparent & Htop).
  destruct (Hparent eq_refl eq_refl eq_refl) as [H1 H2].
  destruct (Htop eq_refl) as [_ H3].
  split; [exact H1|]. split; [exact H2|exact H3].
Defined.

(** * The levels of the knowledge tree *)

Section level_facts.
Implicit Types (s a rest : string) (segments scope : list string).










End level_facts.



